(** * Nana / Dunes indexer: the transaction engine and its helpers

    A shallow embedding of the per-transaction engine of the indexer
    (the TypeScript [processEtching], [processMint], [processEdicts]),
    of the decoder's validity checks ([decipher] in dunestone.ts), of
    the protocol rules ([isMintOpen], [minimumLengthAtHeight],
    [updateUnallocated], from the runeutils copy whose signatures the
    engine calls) and of the 128-bit balance split
    ([convertAmountToParts], [convertPartsToAmount] in utils.ts); then
    of the helpers around them: [getUnallocatedDunesFromUtxos],
    [getCommitment], the amount and mint id checks of the schema in
    dunestone.ts, and the string, array and object helpers of utils.ts
    with their older copies in utils.js.

    Conventions.
    - A JavaScript [bigint] is a [Z]; [/] and [%] on bigints truncate
      towards zero and are [Z.quot] and [Z.rem].
    - A JavaScript object used as a dictionary is a [gmap]; a missing
      key is [None] (JavaScript's [undefined]).
    - A [throw] (or a [TypeError] raised by the runtime) is [Throw]. *)

From Stdlib Require Import ZArith Lia Bool List Ascii String Sorted Permutation.
From stdpp Require Import gmap strings list fin_maps pretty.

Local Open Scope Z_scope.

(* ================================================================== *)
(** * Part I. The embedding *)
(* ================================================================== *)

(** ** utils.ts: the two signed 64-bit halves of a u128 *)

Definition MAX_64_UNSIGNED : Z := 0xffffffffffffffff.
Definition MAX_64_SIGNED : Z := 0x7fffffffffffffff.

(** [balance_0] and [balance_1] are returned as decimal strings
    ([toString()]) and read back with [BigInt(..)]; the two conversions
    are inverse to each other on every bigint, so the halves are kept
    as the integers the strings denote. *)
Record AmountParts := { balance_0 : Z; balance_1 : Z }.

Definition convertAmountToParts (amount : Z) : AmountParts :=
  let lower64 := Z.land amount MAX_64_UNSIGNED in
  let upper64 := Z.land (Z.shiftr amount 64) MAX_64_UNSIGNED in
  let lower64 :=
    if MAX_64_SIGNED <? lower64 then lower64 - (MAX_64_UNSIGNED + 1) else lower64 in
  let upper64 :=
    if MAX_64_SIGNED <? upper64 then upper64 - (MAX_64_UNSIGNED + 1) else upper64 in
  {| balance_0 := lower64; balance_1 := upper64 |}.

Definition convertPartsToAmount (balance_0 balance_1 : Z) : Z :=
  let b0 := balance_0 in
  let b1 := balance_1 in
  let b0 := if b0 <? 0 then b0 + (MAX_64_UNSIGNED + 1) else b0 in
  let b1 := if b1 <? 0 then b1 + (MAX_64_UNSIGNED + 1) else b1 in
  Z.lor (Z.shiftl b1 64) b0.

(** ** JavaScript values used by the engine *)

(** The outcome of a call: a value, or an exception that aborts the
    block ([processBlock] logs it and rethrows). *)
Inductive result (A : Type) : Type :=
| Ok (a : A)
| Throw (msg : string).
Arguments Ok {A} a.
Arguments Throw {A} msg.

#[global] Instance result_ret : MRet result := @Ok.
#[global] Instance result_bind : MBind result :=
  λ A B f r, match r with Ok a => f a | Throw msg => Throw msg end.

(** A JavaScript [number] as block heights and indexes use it: an
    integer, [NaN], or [Infinity]. *)
Inductive number : Type :=
| Num (z : Z)
| NaN
| Infinity.

Definition number_add (a b : number) : number :=
  match a, b with
  | Num x, Num y => Num (x + y)
  | NaN, _ | _, NaN => NaN
  | _, _ => Infinity
  end.

(** [a > b]; every comparison with [NaN] is false. *)
Definition number_gt (a b : number) : bool :=
  match a, b with
  | Num x, Num y => y <? x
  | Infinity, Num _ => true
  | _, _ => false
  end.

Definition number_lt (a b : number) : bool := number_gt b a.

(** [a === b] on numbers; [NaN] is equal to nothing. *)
Definition number_eq (a b : number) : bool :=
  match a, b with
  | Num x, Num y => x =? y
  | Infinity, Infinity => true
  | _, _ => false
  end.

Definition Math_max (a b : number) : number :=
  match a, b with
  | NaN, _ | _, NaN => NaN
  | Infinity, _ | _, Infinity => Infinity
  | Num x, Num y => Num (Z.max x y)
  end.

Definition Math_min (a b : number) : number :=
  match a, b with
  | NaN, _ | _, NaN => NaN
  | Infinity, o | o, Infinity => o
  | Num x, Num y => Num (Z.min x y)
  end.

(** [str.split(sep)] for a one-character separator. *)
Fixpoint split_go (sep : ascii) (s : string) (cur : string) : list string :=
  match s with
  | EmptyString => [String.rev cur]
  | String c s' =>
      if Ascii.eqb c sep then String.rev cur :: split_go sep s' EmptyString
      else split_go sep s' (String c cur)
  end.

Definition String_split (sep : ascii) (s : string) : list string :=
  split_go sep s EmptyString.

Definition digit_of (c : ascii) : option Z :=
  let n := Z.of_N (N_of_ascii c) in
  if (48 <=? n) && (n <=? 57) then Some (n - 48) else None.

Definition hex_digit_of (c : ascii) : option Z :=
  let n := Z.of_N (N_of_ascii c) in
  if (48 <=? n) && (n <=? 57) then Some (n - 48)
  else if (97 <=? n) && (n <=? 102) then Some (n - 87)
  else if (65 <=? n) && (n <=? 70) then Some (n - 55)
  else None.

(** The value of the longest prefix of digits, [None] when the string
    does not start with a digit. *)
Fixpoint leading_digits (digit : ascii → option Z) (radix : Z)
    (s : string) (acc : option Z) : option Z :=
  match s with
  | EmptyString => acc
  | String c s' =>
      match digit c with
      | Some d => leading_digits digit radix s' (Some (radix * default 0 acc + d))
      | None => acc
      end
  end.

Definition is_space (c : ascii) : bool :=
  let n := N_of_ascii c in
  ((n =? 32) || (n =? 9) || (n =? 10) || (n =? 11) || (n =? 12) || (n =? 13))%N.

Fixpoint skip_spaces (s : string) : string :=
  match s with
  | String c s' => if is_space c then skip_spaces s' else s
  | EmptyString => s
  end.

(** [parseInt(str)] without a radix: leading white space, an optional
    sign, an optional [0x] prefix, then the longest run of digits;
    [NaN] when there is none. *)
Definition parseInt (str : string) : number :=
  let s := skip_spaces str in
  let '(sign, s) :=
    match s with
    | String "-" s' => (-1, s')
    | String "+" s' => (1, s')
    | _ => (1, s)
    end in
  let magnitude :=
    match s with
    | String "0" (String "x" s') | String "0" (String "X" s') =>
        leading_digits hex_digit_of 16 s' None
    | _ => leading_digits digit_of 10 s None
    end in
  match magnitude with
  | Some m => Num (sign * m)
  | None => NaN
  end.

Fixpoint all_digits (s : string) : bool :=
  match s with
  | EmptyString => true
  | String c s' => match digit_of c with Some _ => all_digits s' | None => false end
  end.

(** [Number(str)] on the strings the id pattern [^\d+:\d+$] leaves
    after [split(":")]: a run of decimal digits is its value and the
    empty string is [0]; any other string is outside that pattern and
    reads as [NaN] here. *)
Definition Number_of_string (str : string) : number :=
  if all_digits str then Num (default 0 (leading_digits digit_of 10 str None))
  else NaN.

(** A numeric attribute of a stored row as the engine meets it: the
    bigint the engine itself put in the block cache, or the decimal
    string the store hands back. [BigInt(..)] reads both; only the bigint
    zero is falsy, a decimal string never is. *)
Inductive numeric : Type :=
| AsBigInt (z : Z)
| AsString (z : Z).

Definition BigInt (v : numeric) : Z :=
  match v with AsBigInt z | AsString z => z end.

Definition truthy_numeric (v : option numeric) : bool :=
  match v with
  | None => false
  | Some (AsBigInt z) => negb (z =? 0)
  | Some (AsString _) => true
  end.

(** [!s] is false exactly for a non-empty string. *)
Definition truthy_string (s : option string) : bool :=
  match s with
  | None | Some EmptyString => false
  | Some _ => true
  end.

(** ** constants *)

Definition GENESIS_BLOCK : Z := 840000.
Definition UNLOCK_INTERVAL : Z := 17500.
Definition INITIAL_AVAILABLE : Z := 13.

(** ** Rows of the store *)

Module IDune.
Record t : Type := {
  id : Z;
  dune_protocol_id : string;
  name : string;
  symbol : string;
  decimals : Z;
  total_supply : Z;
  total_holders : Z;
  mints : Z;
  premine : Z;
  mint_cap : option numeric;
  mint_amount : option Z;
  mint_start : option Z;
  mint_end : option Z;
  mint_offset_start : option Z;
  mint_offset_end : option Z;
  price_amount : option Z;
  price_pay_to : option string;
  turbo : bool;
  burnt_amount : Z;
  unmintable : bool;
  etch_transaction_id : option Z;
  deployer_address_id : Z
}.

Definition set_mints (d : t) (v : Z) : t :=
  {| id := id d; dune_protocol_id := dune_protocol_id d; name := name d;
     symbol := symbol d; decimals := decimals d;
     total_supply := total_supply d; total_holders := total_holders d;
     mints := v; premine := premine d; mint_cap := mint_cap d;
     mint_amount := mint_amount d; mint_start := mint_start d;
     mint_end := mint_end d; mint_offset_start := mint_offset_start d;
     mint_offset_end := mint_offset_end d; price_amount := price_amount d;
     price_pay_to := price_pay_to d; turbo := turbo d;
     burnt_amount := burnt_amount d; unmintable := unmintable d;
     etch_transaction_id := etch_transaction_id d;
     deployer_address_id := deployer_address_id d |}.

End IDune.

Module IEvent.
Record t : Type := {
  type : Z;
  block : Z;
  transaction_id : option Z;
  dune_id : Z;
  amount : option Z;
  from_address_id : Z;
  to_address_id : Z
}.
End IEvent.

(** ** runeutils: the protocol rules

    The TypeScript engine imports [isMintOpen], [updateUnallocated] and
    [minimumLengthAtHeight] from [duneutils]; the copy under the sources
    is runeutils', whose four-argument [isMintOpen] is the one the
    engine calls. Its [rune_protocol_id] and [Allocation.rune_id] are the
    Dune row's [dune_protocol_id] and the allocation's [dune_id]. *)

Definition minimumLengthAtHeight (block : Z) : Z :=
  let stepsPassed := (block - GENESIS_BLOCK) / UNLOCK_INTERVAL in
  INITIAL_AVAILABLE - stepsPassed.

Definition updateUnallocated (prevUnallocatedRunes : gmap string Z)
    (dune_id : string) (amount : Z) : gmap string Z :=
  <[dune_id := default 0 (prevUnallocatedRunes !! dune_id) + amount]>
    prevUnallocatedRunes.

(** [e !== creationBlock] for an element of [[mint_start, mint_offset_start]]:
    [null] differs from every number. *)
Definition differs_from (creationBlock : number) (e : option number) : bool :=
  match e with
  | None => true
  | Some n => negb (number_eq n creationBlock)
  end.

(** [parseInt(n)] for [null] (the string "null") or a number. *)
Definition parseInt_value (e : option number) : number :=
  match e with
  | Some (Num z) => Num z
  | _ => NaN
  end.

Definition isMintOpen (block txIndex : Z) (Rune : IDune.t) (mint_offset : bool)
    : bool :=
  let mints := IDune.mints Rune in
  let mint_cap := IDune.mint_cap Rune in
  let mint_start := Num <$> IDune.mint_start Rune in
  let mint_end := Num <$> IDune.mint_end Rune in
  let rune_protocol_id := IDune.dune_protocol_id Rune in
  if IDune.unmintable Rune then false else
  let ids := parseInt <$> String_split ":" rune_protocol_id in
  let creationBlock := default NaN (ids !! 0%nat) in
  let creationTxIndex := ids !! 1%nat in
  if number_eq (Num block) creationBlock
     && from_option (λ t, number_eq t (Num txIndex)) false creationTxIndex
  then false else
  let creationBlock :=
    if String.eqb rune_protocol_id "1:0" then Num GENESIS_BLOCK else creationBlock in
  let mint_offset_start :=
    number_add (Num (default 0 (IDune.mint_offset_start Rune))) (parseInt_value (Some creationBlock)) in
  let mint_offset_end :=
    number_add (Num (default 0 (IDune.mint_offset_end Rune))) (parseInt_value (Some creationBlock)) in
  let total_mints := mints + (if mint_offset then 1 else 0) in
  if truthy_numeric mint_cap && (from_option BigInt 0 mint_cap <? total_mints)
  then false else
  let starts :=
    parseInt_value <$>
      List.filter (differs_from creationBlock) [mint_start; Some mint_offset_start] in
  let ends :=
    parseInt_value <$>
      List.filter (differs_from creationBlock) [mint_end; Some mint_offset_end] in
  let start :=
    if (length starts =? 2)%nat
    then Math_max (default creationBlock mint_start) mint_offset_start
    else default creationBlock (starts !! 0%nat) in
  let end_ :=
    if (length ends =? 2)%nat
    then Math_min (default mint_offset_end mint_end) mint_offset_end
    else default Infinity (ends !! 0%nat) in
  negb (number_gt start (Num block) || number_lt end_ (Num block)).

(** ** dunestone.ts: the decoded payload

    [IDunestoneIndexed]: the amount-bearing fields ([amount], [cap],
    [premine]) are bigints. Fields that the engine reads through [??]
    or [?.] are optional here. *)

Module IPriceTerms.
Record t : Type := { amount : Z; pay_to : string }.
End IPriceTerms.

Module ITerms.
Record t : Type := {
  price : option IPriceTerms.t;
  amount : Z;
  cap : option Z;
  height : option Z * option Z;
  offset : option Z * option Z
}.
End ITerms.

Module IEdict.
Record t : Type := { id : string; amount : Z; output : Z }.
End IEdict.

Module IEtching.
Record t : Type := {
  divisibility : option Z;
  premine : option Z;
  dune : string;
  symbol : option string;
  terms : option ITerms.t;
  turbo : bool
}.
End IEtching.

Module IDunestoneIndexed.
Record t : Type := {
  edicts : option (list IEdict.t);
  etching : option IEtching.t;
  mint : option string;
  pointer : option Z;
  cenotaph : bool
}.
End IDunestoneIndexed.

(** A transaction output. [value_sats] stands for
    [BigInt(Math.floor(v.value * 1e8))], the only use the engine's mint
    makes of the floating-point [value]. *)
Module Vout.
Record t : Type := { n : Z; address : option string; value_sats : Z }.
End Vout.

(** [IndexedTxExtended], with the fields the engine steps read;
    [coinbase] tells whether [vin[0].coinbase] is present. *)
Module IndexedTxExtended.
Record t : Type := {
  block : Z;
  txIndex : Z;
  dunestone : IDunestoneIndexed.t;
  coinbase : bool;
  vout : list Vout.t;
  virtual_id : option Z;
  sender : option string
}.

End IndexedTxExtended.

(** ** The block cache *)

(** Modelled from the spec: the [storage] module ([findOne],
    [findOrCreate], [create], [updateAttribute], [findManyInFilter]) is
    not among the sources. Following section 4.4, entities live in RAM
    under their natural key: a Dune under its [dune_protocol_id] (and
    reachable by [name] through the [@REF@name] suffix), an Address
    under its address string; a created row receives a tentative local
    id; events are append-only. *)
Record Storage : Type := {
  Dune : gmap string IDune.t;
  Address : gmap string Z;
  Event : list IEvent.t;
  next_dune_id : Z;
  next_address_id : Z
}.

(** Modelled from the spec: [findOne("Dune", dune_protocol_id)]. *)
Definition findOne_Dune (storage : Storage) (key : string) : option IDune.t :=
  Dune storage !! key.

(** Modelled from the spec: [findOne("Dune", name + "@REF@name")]. *)
Definition findOne_Dune_by_name (storage : Storage) (name : string)
    : option IDune.t :=
  snd <$> list_find (λ d, IDune.name d = name) (snd <$> map_to_list (Dune storage)).

(** Modelled from the spec: [findOne("Address", address)], the row's id. *)
Definition findOne_Address (storage : Storage) (address : string) : option Z :=
  Address storage !! address.

(** Modelled from the spec: [findOrCreate("Address", address, ..)], the
    row's id and the cache after the call. *)
Definition findOrCreate_Address (storage : Storage) (address : string)
    : Z * Storage :=
  match Address storage !! address with
  | Some id => (id, storage)
  | None =>
      (next_address_id storage,
       {| Dune := Dune storage;
          Address := <[address := next_address_id storage]> (Address storage);
          Event := Event storage;
          next_dune_id := next_dune_id storage;
          next_address_id := next_address_id storage + 1 |})
  end.

(** Modelled from the spec: [create("Dune", row)]; the row is given its
    tentative id and filed under its [dune_protocol_id]. *)
Definition create_Dune (storage : Storage) (row : Z → IDune.t) : IDune.t * Storage :=
  let created := row (next_dune_id storage) in
  (created,
   {| Dune := <[IDune.dune_protocol_id created := created]> (Dune storage);
      Address := Address storage;
      Event := Event storage;
      next_dune_id := next_dune_id storage + 1;
      next_address_id := next_address_id storage |}).

(** Modelled from the spec: [create("Event", row)]. *)
Definition create_Event (storage : Storage) (row : IEvent.t) : Storage :=
  {| Dune := Dune storage;
     Address := Address storage;
     Event := Event storage ++ [row];
     next_dune_id := next_dune_id storage;
     next_address_id := next_address_id storage |}.

(** Modelled from the spec: [updateAttribute("Dune", key, "mints", v)]. *)
Definition updateAttribute_Dune_mints (storage : Storage) (key : string) (v : Z)
    : Storage :=
  {| Dune := alter (λ d, IDune.set_mints d v) key (Dune storage);
     Address := Address storage;
     Event := Event storage;
     next_dune_id := next_dune_id storage;
     next_address_id := next_address_id storage |}.

(** Modelled from the spec: [findManyInFilter("Dune", filter)] returns
    the cached rows whose [dune_protocol_id] is in [filter]; the engine
    folds them into [existingDunes], which this function is: whether a
    row was returned for [id]. *)
Definition findManyInFilter_Dune (storage : Storage) (filter : list string)
    (id : string) : bool :=
  bool_decide (id ∈ filter) && bool_decide (is_Some (Dune storage !! id)).

(** ** The engine: etching *)

(** [`${block}:${txIndex}`] *)
Definition dune_id_of (block txIndex : Z) : string :=
  pretty block +:+ ":" +:+ pretty txIndex.

(** [Number("0x" + Buffer.from(symbol).toString("hex"))] is truthy
    unless the symbol has no byte or only zero bytes. *)
Definition isSafeChar (symbol : string) : bool :=
  existsb (λ c, negb (N_of_ascii c =? 0)%N) (list_ascii_of_string symbol).

(** [processEtching]; its [rpc] and [useTest] arguments are not used by
    the body. The unallocated bag is mutated in place and returned; here
    it is returned together with the cache. *)
Definition processEtching (UnallocatedDunes : gmap string Z)
    (Transaction : IndexedTxExtended.t) (storage : Storage) (isGenesis : bool)
    : gmap string Z * Storage :=
  let block := IndexedTxExtended.block Transaction in
  let txIndex := IndexedTxExtended.txIndex Transaction in
  let dunestone := IndexedTxExtended.dunestone Transaction in
  match IDunestoneIndexed.etching dunestone with
  | None => (UnallocatedDunes, storage)
  | Some etching =>
  match findOne_Dune storage (dune_id_of block txIndex) with
  | Some _ => (UnallocatedDunes, storage)
  | None =>
  let duneName := IEtching.dune etching in
  match findOne_Dune_by_name storage duneName with
  | Some _ => (UnallocatedDunes, storage)
  | None =>
  let terms := IEtching.terms etching in
  let amount_is_0n := from_option (λ t, ITerms.amount t =? 0) false terms in
  let isFlex := amount_is_0n && bool_decide (is_Some (terms ≫= ITerms.price)) in
  let hasMintcap :=
    from_option (λ cap, negb (cap =? 0)) false (terms ≫= ITerms.cap) in
  if negb isFlex && amount_is_0n then (UnallocatedDunes, storage) else
  if isFlex && hasMintcap then (UnallocatedDunes, storage) else
  let symbol :=
    match IEtching.symbol etching with
    | Some s => if truthy_string (Some s) && isSafeChar s then s else "¤"
    | None => "¤"
    end in
  let '(etcherId, storage) :=
    findOrCreate_Address storage
      (default "UNKNOWN" (IndexedTxExtended.sender Transaction)) in
  let '(EtchedDune, storage) :=
    create_Dune storage (λ id,
      {| IDune.id := id;
         IDune.dune_protocol_id :=
           if negb isGenesis then dune_id_of block txIndex else "1:0";
         IDune.name := duneName;
         IDune.symbol := symbol;
         IDune.decimals := default 0 (IEtching.divisibility etching);
         IDune.total_supply := default 0 (IEtching.premine etching);
         IDune.total_holders := 0;
         IDune.mints := 0;
         IDune.premine := default 0 (IEtching.premine etching);
         IDune.mint_cap := AsBigInt <$> (terms ≫= ITerms.cap);
         IDune.mint_amount := ITerms.amount <$> terms;
         IDune.mint_start := terms ≫= (λ t, (ITerms.height t).1);
         IDune.mint_end := terms ≫= (λ t, (ITerms.height t).2);
         IDune.mint_offset_start := terms ≫= (λ t, (ITerms.offset t).1);
         IDune.mint_offset_end := terms ≫= (λ t, (ITerms.offset t).2);
         IDune.price_amount :=
           IPriceTerms.amount <$> (terms ≫= ITerms.price);
         IDune.price_pay_to :=
           IPriceTerms.pay_to <$> (terms ≫= ITerms.price);
         IDune.turbo := IEtching.turbo etching;
         IDune.burnt_amount := 0;
         IDune.unmintable :=
           IDunestoneIndexed.cenotaph dunestone
           || (from_option (λ t, ITerms.amount t =? 0) true terms && negb isFlex);
         IDune.etch_transaction_id := IndexedTxExtended.virtual_id Transaction;
         IDune.deployer_address_id := etcherId |}) in
  let storage :=
    create_Event storage
      {| IEvent.type := 0;
         IEvent.block := block;
         IEvent.transaction_id := IndexedTxExtended.virtual_id Transaction;
         IEvent.dune_id := IDune.id EtchedDune;
         IEvent.amount := Some (default 0 (IEtching.premine etching));
         IEvent.from_address_id := etcherId;
         IEvent.to_address_id := 2 |} in
  if IDunestoneIndexed.cenotaph dunestone then (UnallocatedDunes, storage) else
  (updateUnallocated UnallocatedDunes (IDune.dune_protocol_id EtchedDune)
     (IDune.premine EtchedDune),
   storage)
  end end end.

(** ** The engine: mint *)

Section Mint.

(** [isPriceTermsMet] belongs to [duneutils], which is not among the
    sources; [processMint] only asks it a yes or no question, so it is a
    parameter of the section. *)
Variable isPriceTermsMet : IDune.t → IndexedTxExtended.t → bool.

(** The sats paid to [payTo]:
    [vout.filter(address === payTo).map(sats).reduce(+, 0n)]. *)
Definition totalRecv (vout : list Vout.t) (payTo : string) : Z :=
  foldl Z.add 0
    (Vout.value_sats <$>
       List.filter (λ v, bool_decide (Vout.address v = Some payTo)) vout).

Definition processMint (UnallocatedDunes : gmap string Z)
    (Transaction : IndexedTxExtended.t) (storage : Storage)
    : result (gmap string Z * Storage) :=
  let block := IndexedTxExtended.block Transaction in
  let txIndex := IndexedTxExtended.txIndex Transaction in
  let dunestone := IndexedTxExtended.dunestone Transaction in
  let mint := IDunestoneIndexed.mint dunestone in
  if negb (truthy_string mint) then Ok (UnallocatedDunes, storage) else
  match findOne_Dune storage (default "" mint) with
  | None => Ok (UnallocatedDunes, storage)
  | Some duneToMint =>
  if negb (isPriceTermsMet duneToMint Transaction)
  then Ok (UnallocatedDunes, storage) else
  if isMintOpen block txIndex duneToMint true then
    if IDunestoneIndexed.cenotaph dunestone
    then Ok (UnallocatedDunes, storage) else
    let mintAmount := default 0 (IDune.mint_amount duneToMint) in
    let isFlex := bool_decide (is_Some (IDune.price_amount duneToMint)) in
    mintAmount ←
      (if isFlex then
         let payTo := IDune.price_pay_to duneToMint in
         let priceAmount := IDune.price_amount duneToMint in
         if negb (truthy_string payTo)
         then Throw "Missing pay_to address in price terms" else
         if default 0 priceAmount =? 0
         then Throw "Invalid price amount" else
         Ok (Z.quot (totalRecv (IndexedTxExtended.vout Transaction)
                       (default "" payTo))
                    (default 0 priceAmount))
       else Ok mintAmount);
    if mintAmount <=? 0 then Ok (UnallocatedDunes, storage) else
    match findOne_Address storage
            (default "UNKNOWN" (IndexedTxExtended.sender Transaction)) with
    | None => Throw "Invalid response from local cache @ mint:1"
    | Some fromAddressId =>
        let storage :=
          create_Event storage
            {| IEvent.type := 1;
               IEvent.block := block;
               IEvent.transaction_id := IndexedTxExtended.virtual_id Transaction;
               IEvent.dune_id := IDune.id duneToMint;
               IEvent.amount := IDune.mint_amount duneToMint;
               IEvent.from_address_id := fromAddressId;
               IEvent.to_address_id := 2 |} in
        let newMints := IDune.mints duneToMint + 1 in
        let storage :=
          updateAttribute_Dune_mints storage
            (IDune.dune_protocol_id duneToMint) newMints in
        Ok (updateUnallocated UnallocatedDunes
              (IDune.dune_protocol_id duneToMint) mintAmount,
            storage)
    end
  else Ok (UnallocatedDunes, storage)
  end.

End Mint.

(** ** The engine: edicts and the pointer sweep *)

(** A pending output ([IndexerUtxo]); [dune_balances] is optional in the
    source type. *)
Module IndexerUtxo.
Record t : Type := {
  address_id : Z;
  vout_index : Z;
  value_sats : Z;
  dune_balances : option (gmap string Z)
}.

Definition set_dune_balances (u : t) (b : gmap string Z) : t :=
  {| address_id := address_id u; vout_index := vout_index u;
     value_sats := value_sats u; dune_balances := Some b |}.
End IndexerUtxo.

(** The key of the [transfers] record: ["burn"], or an address id. *)
Inductive toAddress : Type :=
| burn
| to_address (address_id : Z).

#[global] Instance toAddress_eq_dec : EqDecision toAddress.
Proof. solve_decision. Defined.

#[global] Instance toAddress_countable : Countable toAddress.
Proof.
  refine (inj_countable'
            (λ k, match k with burn => None | to_address a => Some a end)
            (λ o, match o with None => burn | Some a => to_address a end) _).
  intros []; reflexivity.
Defined.

(** What [processEdicts] mutates: the unallocated bag, the pending
    outputs and the transfers record. [nonOpReturnOutputs] holds
    references to the very objects of [pendingUtxos]; an output is
    therefore named by its position in [pendingUtxos], and every write
    goes to that one list. *)
Record EdictState : Type := {
  UnallocatedDunes : gmap string Z;
  pendingUtxos : list IndexerUtxo.t;
  transfers : gmap toAddress (gmap string Z)
}.

(** [arr[i]] for a number [i]: [undefined] out of range. *)
Definition index_in {A} (arr : list A) (i : Z) : option nat :=
  if (0 <=? i) && (i <? Z.of_nat (length arr)) then Some (Z.to_nat i) else None.

(** [allocate(utxo, duneId, amount)], the closure of [processEdicts];
    [utxo] is the position of the output in [pendingUtxos]. With the
    bag lacking [duneId], [withDefault] is [undefined] for a zero
    amount and the subtraction raises a [TypeError]. *)
Definition allocate (utxo : nat) (duneId : string) (amount : Z) (s : EdictState)
    : result EdictState :=
  let unallocated := UnallocatedDunes s !! duneId in
  withDefault ←
    match unallocated with
    | Some have => Ok (if (have <? amount) || (amount =? 0) then have else amount)
    | None =>
        if amount =? 0 then Throw "TypeError: Cannot mix BigInt and other types"
        else Ok amount
    end;
  let bag := <[duneId := default 0 unallocated - withDefault]> (UnallocatedDunes s) in
  match pendingUtxos s !! utxo with
  | None => Throw "TypeError: Cannot read properties of undefined"
  | Some u =>
      let balances := default ∅ (IndexerUtxo.dune_balances u) in
      let u' :=
        IndexerUtxo.set_dune_balances u
          (<[duneId := default 0 (balances !! duneId) + withDefault]> balances) in
      let pending := <[utxo := u']> (pendingUtxos s) in
      if withDefault =? 0 then
        Ok {| UnallocatedDunes := bag; pendingUtxos := pending;
              transfers := transfers s |}
      else
        let toAddress :=
          if IndexerUtxo.address_id u =? 2 then burn
          else to_address (IndexerUtxo.address_id u) in
        let row := default ∅ (transfers s !! toAddress) in
        Ok {| UnallocatedDunes := bag; pendingUtxos := pending;
              transfers :=
                <[toAddress :=
                    <[duneId := default 0 (row !! duneId) + withDefault]> row]>
                  (transfers s) |}
  end.

(** [arr.forEach((x, index) => f(x, index))] over a state that may throw. *)
Fixpoint forEach_from {A St : Type} (f : A → nat → St → result St)
    (arr : list A) (index : nat) (s : St) : result St :=
  match arr with
  | [] => Ok s
  | x :: rest => s' ← f x index s; forEach_from f rest (S index) s'
  end.

Definition forEach {A St : Type} (f : A → nat → St → result St)
    (arr : list A) (s : St) : result St :=
  forEach_from f arr 0%nat s.

(** The positions of [pendingUtxos.filter((utxo) => utxo.address_id !== 2)]. *)
Fixpoint nonOpReturn_from (pending : list IndexerUtxo.t) (i : nat) : list nat :=
  match pending with
  | [] => []
  | u :: rest =>
      if IndexerUtxo.address_id u =? 2 then nonOpReturn_from rest (S i)
      else i :: nonOpReturn_from rest (S i)
  end.

Definition nonOpReturnOutputs (pending : list IndexerUtxo.t) : list nat :=
  nonOpReturn_from pending 0%nat.

(** [!UnallocatedDunes[id]]: the key is missing, or holds [0n]. *)
Definition falsy_amount (v : option Z) : bool :=
  match v with
  | None => true
  | Some z => z =? 0
  end.

(** One turn of the loop over the edicts. [existingDunes] tells whether
    a Dune row was found for the id; [nonOp] is [nonOpReturnOutputs]. *)
Definition processEdict (existingDunes : string → bool) (nonOp : list nat)
    (edict : IEdict.t) (s : EdictState) : result EdictState :=
  let id := IEdict.id edict in
  if negb (existingDunes id) then Ok s else
  if falsy_amount (UnallocatedDunes s !! id) then Ok s else
  if IEdict.output edict =? Z.of_nat (length (pendingUtxos s)) then
    if IEdict.amount edict =? 0 then
      let amountOutputs := Z.of_nat (length nonOp) in
      if 0 <? amountOutputs then
        let amount := Z.quot (default 0 (UnallocatedDunes s !! id)) amountOutputs in
        let remainder := Z.rem (default 0 (UnallocatedDunes s !! id)) amountOutputs in
        let withRemainder := amount + 1 in
        forEach
          (λ utxo index,
             allocate utxo id
               (if Z.of_nat index <? remainder then withRemainder else amount))
          nonOp s
      else Ok s
    else
      forEach (λ utxo _, allocate utxo id (IEdict.amount edict)) nonOp s
  else
    match index_in (pendingUtxos s) (IEdict.output edict) with
    | Some utxo => allocate utxo id (IEdict.amount edict) s
    | None => Throw "TypeError: Cannot read properties of undefined"
    end.

(** [edict.id === "0:0" ? transactionDuneId : edict.id] *)
Definition resolve_edict (transactionDuneId : string) (edict : IEdict.t)
    : IEdict.t :=
  {| IEdict.id :=
       if String.eqb (IEdict.id edict) "0:0" then transactionDuneId
       else IEdict.id edict;
     IEdict.amount := IEdict.amount edict;
     IEdict.output := IEdict.output edict |}.

(** The output that receives the residual bag, [None] when the source
    throws "No pointer output found". *)
Definition pointerOutput (pointer : option Z) (pending : list IndexerUtxo.t)
    : option nat :=
  let nonOp := nonOpReturnOutputs pending in
  let chosen :=
    match pointer with
    | Some p =>
        if p =? 0 then head nonOp
        else match index_in pending p with
             | Some utxo => Some utxo
             | None => head nonOp
             end
    | None => head nonOp
    end in
  match chosen with
  | Some utxo => Some utxo
  | None =>
      fst <$> list_find (λ utxo, IndexerUtxo.address_id utxo = 2) pending
  end.

(** [Object.entries(UnallocatedDunes).forEach(([id, amt]) =>
    allocate(pointerOutput, id, amt))]. The entries are read once, before
    the loop. JavaScript visits them in insertion order and [map_to_list]
    in its own; each call touches the keys of one dune id only, and the
    bag, the balances and the transfers the loop ends with are those of
    [sweep_lookup] whatever the order. *)
Definition sweep (pointerOutput : nat) (s : EdictState) : result EdictState :=
  forEach (λ allocationData _, allocate pointerOutput allocationData.1 allocationData.2)
    (map_to_list (UnallocatedDunes s)) s.

(** The loop over the edicts, up to the pointer sweep. *)
Definition run_edicts (Transaction : IndexedTxExtended.t) (storage : Storage)
    (s : EdictState) : result EdictState :=
  let dunestone := IndexedTxExtended.dunestone Transaction in
  let nonOp := nonOpReturnOutputs (pendingUtxos s) in
  match IDunestoneIndexed.edicts dunestone with
  | Some edicts =>
      let transactionDuneId :=
        dune_id_of (IndexedTxExtended.block Transaction)
          (IndexedTxExtended.txIndex Transaction) in
      let edicts := resolve_edict transactionDuneId <$> edicts in
      let existingDunes := findManyInFilter_Dune storage (IEdict.id <$> edicts) in
      forEach (λ edict _, processEdict existingDunes nonOp edict) edicts s
  | None => Ok s
  end.

Definition processEdicts (Transaction : IndexedTxExtended.t) (storage : Storage)
    (s : EdictState) : result EdictState :=
  let dunestone := IndexedTxExtended.dunestone Transaction in
  if IDunestoneIndexed.cenotaph dunestone then
    Ok {| UnallocatedDunes := UnallocatedDunes s;
          pendingUtxos := pendingUtxos s;
          transfers := <[burn := UnallocatedDunes s]> (transfers s) |}
  else
    s ← run_edicts Transaction storage s;
    match pointerOutput (IDunestoneIndexed.pointer dunestone) (pendingUtxos s) with
    | Some utxo => sweep utxo s
    | None => Throw "No pointer output found. This transaction is invalid."
    end.

(** ** dunestone.ts: the decoder's validity checks *)

(** What the decoder has in hand when it reaches its own checks: no
    OP_RETURN output at all, a payload that is not JSON, a JSON value the
    schema rejects, or the object [DunestoneSchema.safeParse] returned
    (its amount strings already read as bigints, which is all [toBig]
    does). *)
Inductive payload : Type :=
| no_op_return
| not_json
| schema_failure
| parsed (dune : IDunestoneIndexed.t).

Definition only_cenotaph (flag : bool) : IDunestoneIndexed.t :=
  {| IDunestoneIndexed.edicts := None;
     IDunestoneIndexed.etching := None;
     IDunestoneIndexed.mint := None;
     IDunestoneIndexed.pointer := None;
     IDunestoneIndexed.cenotaph := flag |}.

(** [e.output > voutLen - 1] *)
Definition badOutput (voutLen : Z) (e : IEdict.t) : bool :=
  voutLen - 1 <? IEdict.output e.

(** [const [blk, idx] = e.id.split(":").map(Number);
     return blk === 0 && idx !== 0] *)
Definition badZeroDune (e : IEdict.t) : bool :=
  let parts := Number_of_string <$> String_split ":" (IEdict.id e) in
  let blk := parts !! 0%nat in
  let idx := parts !! 1%nat in
  from_option (λ b, number_eq b (Num 0)) false blk
  && negb (from_option (λ i, number_eq i (Num 0)) false idx).

Definition decipher (vout : list Vout.t) (p : payload) : IDunestoneIndexed.t :=
  match p with
  | no_op_return => only_cenotaph false
  | not_json => only_cenotaph true
  | schema_failure => only_cenotaph true
  | parsed dune =>
      let voutLen := Z.of_nat (length vout) in
      let invalid :=
        match IDunestoneIndexed.edicts dune with
        | Some edicts =>
            existsb (badOutput voutLen) edicts || existsb badZeroDune edicts
        | None => false
        end in
      if invalid then only_cenotaph true
      else
        {| IDunestoneIndexed.edicts := IDunestoneIndexed.edicts dune;
           IDunestoneIndexed.etching := IDunestoneIndexed.etching dune;
           IDunestoneIndexed.mint := IDunestoneIndexed.mint dune;
           IDunestoneIndexed.pointer := IDunestoneIndexed.pointer dune;
           IDunestoneIndexed.cenotaph := false |}
  end.

(** ** The engine: the steps of a transaction *)



(** ** Observations used in the statements *)





(** [utxo.dune_balances[duneId] ?? 0n] *)
Definition balance_of (u : IndexerUtxo.t) (duneId : string) : Z :=
  default 0 (default ∅ (IndexerUtxo.dune_balances u) !! duneId).

(** [UnallocatedDunes[duneId] ?? 0n] *)
Definition unallocated_of (s : EdictState) (duneId : string) : Z :=
  default 0 (UnallocatedDunes s !! duneId).

(** [transfers[to]?.[duneId] ?? 0n] *)
Definition transferred (t : gmap toAddress (gmap string Z)) (to : toAddress)
    (duneId : string) : Z :=
  default 0 (default ∅ (t !! to) !! duneId).

(** The [transfers] key of an output: ["burn"] for address id 2. *)
Definition destination (u : IndexerUtxo.t) : toAddress :=
  if IndexerUtxo.address_id u =? 2 then burn
  else to_address (IndexerUtxo.address_id u).

(** The amount [allocate] moves when the bag holds [have]. *)
Definition give (have amt : Z) : Z :=
  if (have <? amt) || (amt =? 0) then have else amt.

(** The state [allocate] leaves when it moves [g] of [duneId] out of
    [have] onto the output [u] at position [utxo]. *)
Definition allocated (utxo : nat) (duneId : string) (have g : Z)
    (u : IndexerUtxo.t) (s : EdictState) : EdictState :=
  {| UnallocatedDunes := <[duneId := have - g]> (UnallocatedDunes s);
     pendingUtxos :=
       <[utxo :=
           IndexerUtxo.set_dune_balances u
             (<[duneId := balance_of u duneId + g]>
                (default ∅ (IndexerUtxo.dune_balances u)))]> (pendingUtxos s);
     transfers :=
       if g =? 0 then transfers s
       else <[destination u :=
                <[duneId := transferred (transfers s) (destination u) duneId + g]>
                  (default ∅ (transfers s !! destination u))]> (transfers s) |}.

(** The terms [processEtching] refuses: a zero [amount] without a price,
    or a zero [amount] with a price and a non-zero [cap]. *)
Definition invalid_terms (terms : option ITerms.t) : Prop :=
  ∃ t, terms = Some t ∧ ITerms.amount t = 0
       ∧ (ITerms.price t = None ∨ ∃ c, ITerms.cap t = Some c ∧ c ≠ 0).

(** The key [processEtching] files the new Dune under. *)
Definition etched_key (Transaction : IndexedTxExtended.t) (isGenesis : bool)
    : string :=
  if isGenesis then "1:0"
  else dune_id_of (IndexedTxExtended.block Transaction)
         (IndexedTxExtended.txIndex Transaction).

(** ** Fixtures: the scenarios of the specification's section 8 *)

(** A cache holding the three reserved addresses and no Dune. *)
Definition fresh_storage : Storage :=
  {| Dune := ∅;
     Address := {[ "COINBASE" := 1; "OP_RETURN" := 2; "UNKNOWN" := 3 ]};
     Event := [];
     next_dune_id := 1;
     next_address_id := 4 |}.

Definition transaction (block txIndex : Z) (dunestone : IDunestoneIndexed.t)
    (vout : list Vout.t) : IndexedTxExtended.t :=
  {| IndexedTxExtended.block := block;
     IndexedTxExtended.txIndex := txIndex;
     IndexedTxExtended.dunestone := dunestone;
     IndexedTxExtended.coinbase := false;
     IndexedTxExtended.vout := vout;
     IndexedTxExtended.virtual_id := Some 1;
     IndexedTxExtended.sender := None |}.

(** Scenario 1: [HELLO], premine 1000, terms amount 10 and cap [cap]. *)
Definition hello_etching (cap : option Z) : IEtching.t :=
  {| IEtching.divisibility := Some 2;
     IEtching.premine := Some 1000;
     IEtching.dune := "HELLO";
     IEtching.symbol := Some "$";
     IEtching.terms :=
       Some {| ITerms.price := None; ITerms.amount := 10; ITerms.cap := cap;
               ITerms.height := (None, None); ITerms.offset := (None, None) |};
     IEtching.turbo := true |}.

Definition etch_only (etching : IEtching.t) : IDunestoneIndexed.t :=
  {| IDunestoneIndexed.edicts := None;
     IDunestoneIndexed.etching := Some etching;
     IDunestoneIndexed.mint := None;
     IDunestoneIndexed.pointer := None;
     IDunestoneIndexed.cenotaph := false |}.

Definition mint_only (mint : string) (cenotaph : bool) : IDunestoneIndexed.t :=
  {| IDunestoneIndexed.edicts := None;
     IDunestoneIndexed.etching := None;
     IDunestoneIndexed.mint := Some mint;
     IDunestoneIndexed.pointer := None;
     IDunestoneIndexed.cenotaph := cenotaph |}.

Definition edicts_only (edicts : list IEdict.t) (pointer : option Z)
    : IDunestoneIndexed.t :=
  {| IDunestoneIndexed.edicts := Some edicts;
     IDunestoneIndexed.etching := None;
     IDunestoneIndexed.mint := None;
     IDunestoneIndexed.pointer := pointer;
     IDunestoneIndexed.cenotaph := false |}.

(** The cache after [HELLO] was etched by transaction 7 of block 840100. *)
Definition storage_with_hello (cap : option Z) : Storage :=
  (processEtching ∅ (transaction 840100 7 (etch_only (hello_etching cap)) [])
     fresh_storage false).2.




Definition output (address_id vout_index : Z) : IndexerUtxo.t :=
  {| IndexerUtxo.address_id := address_id;
     IndexerUtxo.vout_index := vout_index;
     IndexerUtxo.value_sats := 546;
     IndexerUtxo.dune_balances := Some ∅ |}.

Definition vout_to (n : Z) (address : option string) (value_sats : Z) : Vout.t :=
  {| Vout.n := n; Vout.address := address; Vout.value_sats := value_sats |}.

(** ** Decimal strings

    What the statements say about the strings the code reads and
    writes. *)

(** The value of a run of decimal digits, [0] for the empty string. *)
Definition decimal_value (s : string) : Z :=
  default 0 (leading_digits digit_of 10 s None).

(** [sep] does not occur in [s]. *)
Fixpoint without (sep : ascii) (s : string) : bool :=
  match s with
  | EmptyString => true
  | String c s' => negb (Ascii.eqb c sep) && without sep s'
  end.

(** ** JavaScript's [BigInt(string)]

    StringToBigInt: white space is trimmed at both ends; the empty
    string is [0n]; a decimal literal may carry a sign; [0x], [0o] and
    [0b] literals carry none; anything else is a [SyntaxError]. *)

(** The value of an octal digit. *)
Definition octal_digit_of (c : ascii) : option Z :=
  let n := Z.of_N (N_of_ascii c) in
  if (48 <=? n) && (n <=? 55) then Some (n - 48) else None.

(** The value of a binary digit. *)
Definition binary_digit_of (c : ascii) : option Z :=
  let n := Z.of_N (N_of_ascii c) in
  if (48 <=? n) && (n <=? 49) then Some (n - 48) else None.

(** Every character of [s] is a digit of the radix. *)
Fixpoint all_of (digit : ascii → option Z) (s : string) : bool :=
  match s with
  | EmptyString => true
  | String c s' => match digit c with Some _ => all_of digit s' | None => false end
  end.

(** White space stripped at both ends. *)
Definition String_trim (s : string) : string :=
  String.rev (skip_spaces (String.rev (skip_spaces s))).

(** A non-empty run of digits of the radix, or a [SyntaxError]. *)
Definition digits_value (digit : ascii → option Z) (radix : Z) (s : string)
    : result Z :=
  match s with
  | EmptyString => Throw "SyntaxError: Cannot convert to a BigInt"
  | _ =>
      if all_of digit s then Ok (default 0 (leading_digits digit radix s None))
      else Throw "SyntaxError: Cannot convert to a BigInt"
  end.

(** [BigInt(str)] on a string. *)
Definition BigInt_of_string (str : string) : result Z :=
  match String_trim str with
  | EmptyString => Ok 0
  | String c rest as s =>
      if Ascii.eqb c "-" then v ← digits_value digit_of 10 rest; Ok (- v)
      else if Ascii.eqb c "+" then digits_value digit_of 10 rest
      else if Ascii.eqb c "0" then
        match rest with
        | String p digits =>
            if Ascii.eqb p "x" || Ascii.eqb p "X"
            then digits_value hex_digit_of 16 digits
            else if Ascii.eqb p "o" || Ascii.eqb p "O"
            then digits_value octal_digit_of 8 digits
            else if Ascii.eqb p "b" || Ascii.eqb p "B"
            then digits_value binary_digit_of 2 digits
            else digits_value digit_of 10 s
        | EmptyString => digits_value digit_of 10 s
        end
      else digits_value digit_of 10 s
  end.

(** ** dunestone.ts: the amounts and the mint id of the schema *)


Definition MAX_U32 : Z := 0xffffffff.

Definition MAX_U8 : Z := 0xff.



(** [/^\d+:\d+$/]: digits, one colon, digits. *)
Definition matches_id_pattern (val : string) : bool :=
  match String_split ":" val with
  | [a; b] =>
      all_digits a && negb (String.eqb a "") && all_digits b && negb (String.eqb b "")
  | _ => false
  end.

(** [Number.isInteger(n)] *)
Definition Number_isInteger (n : number) : bool :=
  match n with Num _ => true | _ => false end.

(** [`${n}`] for a number. *)
Definition number_toString (n : number) : string :=
  match n with
  | Num z => pretty z
  | NaN => "NaN"
  | Infinity => "Infinity"
  end.

(** The [transform] of [MintSchema], which zod applies to a string that
    matched the pattern: [Ok] is the value returned, [Throw] the error
    thrown. *)
Definition MintSchema_transform (val : string) : result string :=
  let parts := String_split ":" val in
  let block := from_option Number_of_string NaN (parts !! 0%nat) in
  let tx := from_option Number_of_string NaN (parts !! 1%nat) in
  if negb (Number_isInteger block)
     || number_lt block (Num 0)
     || number_gt block (Num MAX_U32)
     || negb (Number_isInteger tx)
     || number_lt tx (Num 0)
     || number_gt tx (Num MAX_U32)
  then Throw "block and tx must be valid u32 integers"
  else Ok (number_toString block +:+ ":" +:+ number_toString tx).

(** ** utils.ts: decimal amounts as strings *)

(** ["0".repeat(count)] *)
Fixpoint zeros (count : nat) : string :=
  match count with
  | O => ""
  | S n => String "0" (zeros n)
  end.

(** [s.padStart(targetLength, "0")] *)
Definition padStart (s : string) (targetLength : nat) : string :=
  zeros (targetLength - String.length s) +:+ s.

(** [s.padEnd(targetLength, "0")] *)
Definition padEnd (s : string) (targetLength : nat) : string :=
  s +:+ zeros (targetLength - String.length s).

(** [s.slice(0, n)] *)
Fixpoint String_take (n : nat) (s : string) : string :=
  match n, s with
  | S n', String c s' => String c (String_take n' s')
  | _, _ => ""
  end.

(** [s.slice(n)] *)
Fixpoint String_drop (n : nat) (s : string) : string :=
  match n, s with
  | S n', String _ s' => String_drop n' s'
  | _, _ => s
  end.

(** [fromBigInt], for an [amount] that is a bigint. *)
Definition fromBigInt (amount : Z) (decimals : nat) : result string :=
  divisor ← BigInt_of_string ("1" +:+ zeros decimals);
  let value := amount in
  let quotient := Z.quot value divisor in
  let remainder := Z.rem value divisor in
  Ok (pretty quotient +:+ "." +:+ padStart (pretty remainder) decimals).

(** [toBigInt]; a missing fractional part is [""]. *)
Definition toBigInt (amountStr : string) (decimals : nat) : result string :=
  let parts := String_split "." amountStr in
  let integerPart := default "" (parts !! 0%nat) in
  let fractionalPart := default "" (parts !! 1%nat) in
  integer ← BigInt_of_string integerPart;
  fractional ← BigInt_of_string (padEnd fractionalPart decimals);
  multiplier ← BigInt_of_string ("1" +:+ zeros decimals);
  Ok (pretty (integer * multiplier + fractional)).

(** [btcToSats], from [str = val.toString()]. *)
Definition btcToSats (str : string) : result Z :=
  let parts := String_split "." str in
  let whole := default "" (parts !! 0%nat) in
  let frac := default "" (parts !! 1%nat) in
  whole ← BigInt_of_string whole;
  let wholeSats := whole * 100000000 in
  fracSats ← BigInt_of_string (String_take 8 (padEnd frac 8));
  Ok (wholeSats + fracSats).

(** ** The engine: the bag of the inputs *)

(** [getUnallocatedDunesFromUtxos]: a reduce over the inputs and, for
    each, over the entries of its [dune_balances] (none when the field
    is missing), with [acc[proto] = (acc[proto] ?? 0n) + BigInt(amtStr)]. *)
Definition getUnallocatedDunesFromUtxos (inputUtxos : list IndexerUtxo.t)
    : gmap string Z :=
  foldl
    (λ acc utxo,
       let duneBalances :=
         match IndexerUtxo.dune_balances utxo with
         | Some balances => map_to_list balances
         | None => []
         end in
       foldl (λ acc entry, <[entry.1 := default 0 (acc !! entry.1) + entry.2]> acc)
         acc duneBalances)
    ∅ inputUtxos.

(** ** Observations on the edict loop *)

(** What the outputs hold of a dune, all together. *)
Definition total_balance (outputs : list IndexerUtxo.t) (duneId : string) : Z :=
  foldr (λ u acc, balance_of u duneId + acc) 0 outputs.

(** What the outputs that go to [to] hold of a dune. *)
Definition received (outputs : list IndexerUtxo.t) (to : toAddress)
    (duneId : string) : Z :=
  foldr (λ u acc,
           (if decide (destination u = to) then balance_of u duneId else 0) + acc)
    0 outputs.

(** No entry of the bag and no balance of an output is negative. *)
Definition solvent (s : EdictState) : Prop :=
  (∀ id v, UnallocatedDunes s !! id = Some v → 0 ≤ v)
  ∧ (∀ j u id, pendingUtxos s !! j = Some u → 0 ≤ balance_of u id).

(** ** The protocol rules: the window of [isMintOpen] *)

(** The statements of [isMintOpen] after the cap test, with the
    creation block [cb] in place of the parsed one. *)
Definition window_open (cb block : Z) (d : IDune.t) : bool :=
  let creationBlock := Num cb in
  let mint_start := Num <$> IDune.mint_start d in
  let mint_end := Num <$> IDune.mint_end d in
  let mint_offset_start :=
    number_add (Num (default 0 (IDune.mint_offset_start d))) (parseInt_value (Some creationBlock)) in
  let mint_offset_end :=
    number_add (Num (default 0 (IDune.mint_offset_end d))) (parseInt_value (Some creationBlock)) in
  let starts :=
    parseInt_value <$>
      List.filter (differs_from creationBlock) [mint_start; Some mint_offset_start] in
  let ends :=
    parseInt_value <$>
      List.filter (differs_from creationBlock) [mint_end; Some mint_offset_end] in
  let start :=
    if (length starts =? 2)%nat
    then Math_max (default creationBlock mint_start) mint_offset_start
    else default creationBlock (starts !! 0%nat) in
  let end_ :=
    if (length ends =? 2)%nat
    then Math_min (default mint_offset_end mint_end) mint_offset_end
    else default Infinity (ends !! 0%nat) in
  negb (number_gt start (Num block) || number_lt end_ (Num block)).

(** ** utils.ts: [stripValue] *)

(** A JavaScript value as [stripValue] tells them apart: a value that is
    not an object (kept opaque), [null], an array, or a plain object with
    its own enumerable properties in order. *)
#[warnings="-register-all"]
Inductive value : Type :=
| Primitive (p : string)
| Null
| Array (items : list value)
| Object (properties : list (string * value)).

(** [`${index}`] for an array index *)
Definition index_key (index : nat) : string := pretty (Z.of_nat index).

(** [stripValue]: an object with a [_value] property is replaced by
    that property, stripped; of any other object, the array included,
    the spread [{...obj}] is returned with every property stripped. *)
Fixpoint stripValue (obj : value) : value :=
  match obj with
  | Primitive _ | Null => obj
  | Object properties =>
      let fix _value (l : list (string * value)) : option value :=
        match l with
        | [] => None
        | (key, v) :: rest =>
            if String.eqb key "_value" then Some (stripValue v) else _value rest
        end in
      match _value properties with
      | Some stripped => stripped
      | None =>
          Object
            ((fix each (l : list (string * value)) : list (string * value) :=
                match l with
                | [] => []
                | (key, v) :: rest => (key, stripValue v) :: each rest
                end) properties)
      end
  | Array items =>
      Object
        ((fix each (l : list value) (index : nat) : list (string * value) :=
            match l with
            | [] => []
            | v :: rest => (index_key index, stripValue v) :: each rest (S index)
            end) items 0%nat)
  end.

(** No array and no [_value] property anywhere in the value. *)
Fixpoint stripped (obj : value) : Prop :=
  match obj with
  | Primitive _ | Null => True
  | Array _ => False
  | Object properties =>
      (fix all (l : list (string * value)) : Prop :=
         match l with
         | [] => True
         | (key, v) :: rest => key ≠ "_value"%string ∧ stripped v ∧ all rest
         end) properties
  end.

(** ** utils.ts: [mergeSortArrayOfObj] *)

Section MergeSort.

(** [T] is the type of the objects, [field] the property read by
    [item[field]], and [lt a b] the outcome of JavaScript's [a < b] on two
    values of that property. *)
Context {T K : Type} (field : T → K) (lt : K → K → bool).

(** [mergeObj]: the two indexes [l] and [r] of the loop are the lists
    still to be read. *)
Fixpoint mergeObj (left right : list T) : list T :=
  let fix mergeObj_right (right : list T) : list T :=
    match left, right with
    | [], _ => right
    | _, [] => left
    | x :: left', y :: right' =>
        if lt (field x) (field y) then x :: mergeObj left' right
        else y :: mergeObj_right right'
    end in
  mergeObj_right right.

(** [mergeSortArrayOfObj]; each call halves the array, so the depth of
    the recursion is bounded by the length, which is the fuel. *)
Fixpoint mergeSort_from (depth : nat) (array : list T) : list T :=
  match depth with
  | O => array
  | S depth' =>
      if (length array <=? 1)%nat then array
      else
        let middle := (length array / 2)%nat in
        let left := mergeSort_from depth' (take middle array) in
        let right := mergeSort_from depth' (drop middle array) in
        mergeObj left right
  end.

Definition mergeSortArrayOfObj (array : list T) : list T :=
  mergeSort_from (length array) array.

(** [y[field] < x[field]] is false for every two neighbours [x, y]. *)
Definition ascending (array : list T) : Prop :=
  Sorted (λ x y, lt (field y) (field x) = false) array.

End MergeSort.

(** ** utils.ts and utils.js: [removeItemsWithDuplicateProp] *)

Section RemoveDuplicates.

(** [prop] reads [item[prop]]; the [seen] set compares property values
    by SameValueZero, which is equality on [K]; [strict_eq] is [===]. *)
Context {T K : Type} `{Countable K} (prop : T → K) (strict_eq : K → K → bool).

(** utils.ts: [array.filter] with the [seen] set threaded through. *)
Fixpoint removeItems_filter (seen : gset K) (array : list T) : list T :=
  match array with
  | [] => []
  | item :: rest =>
      let val := prop item in
      if decide (val ∈ seen) then removeItems_filter seen rest
      else item :: removeItems_filter ({[ val ]} ∪ seen) rest
  end.

Definition removeItemsWithDuplicateProp (array : list T) : list T :=
  removeItems_filter ∅ array.

(** utils.js: [array.reduce] that pushes an item when no item of the
    accumulator has the same property. *)
Definition removeItemsWithDuplicateProp_js (array : list T) : list T :=
  foldl
    (λ acc item,
       if existsb (λ testElement, strict_eq (prop testElement) (prop item)) acc
       then acc else acc ++ [item])
    [] array.

End RemoveDuplicates.

(** ** utils.ts: [chunkify] *)

Section Chunkify.

(** [T] is the type of the items. *)
Context {T : Type}.

(** [array.slice(start, end)]: a negative index counts from the end,
    and both are clamped to the array. *)
Definition Array_slice (array : list T) (start end_ : Z) : list T :=
  let len := Z.of_nat (length array) in
  let k := if start <? 0 then Z.max (len + start) 0 else Z.min start len in
  let final := if end_ <? 0 then Z.max (len + end_) 0 else Z.min end_ len in
  take (Z.to_nat (final - k)) (drop (Z.to_nat k) array).

(** The loop of [chunkify] for an integer [size], from index [i] with
    the chunks pushed so far; [None] when [steps] turns do not reach the
    end of the loop. *)
Fixpoint chunkify_from (steps : nat) (array : list T) (size : Z) (i : Z)
    (result : list (list T)) : option (list (list T)) :=
  if i <? Z.of_nat (length array) then
    match steps with
    | O => None
    | S steps' =>
        chunkify_from steps' array size (i + size)
          (result ++ [Array_slice array i (i + size)])
    end
  else Some result.

Definition chunkify (steps : nat) (array : list T) (size : Z)
    : option (list (list T)) :=
  chunkify_from steps array size 0 [].

End Chunkify.

(** ** utils.ts and utils.js: [pluralize] *)

(** [s] without [prefix], when it starts with it. *)
Fixpoint strip_prefix (prefix s : string) : option string :=
  match prefix, s with
  | EmptyString, _ => Some s
  | String a prefix', String b s' =>
      if Ascii.eqb a b then strip_prefix prefix' s' else None
  | String _ _, EmptyString => None
  end.

(** The word without [suffix], when it ends with it. *)
Definition strip_suffix (suffix word : string) : option string :=
  String.rev <$> strip_prefix (String.rev suffix) (String.rev word).

(** [/suffix$/.test(word)] for a literal [suffix]. *)
Definition ends_with (suffix word : string) : bool :=
  bool_decide (is_Some (strip_suffix suffix word)).

(** [word.replace(/suffix$/, replacement)] for a literal [suffix]. *)
Definition replace_suffix (suffix replacement word : string) : string :=
  match strip_suffix suffix word with
  | Some stem => stem +:+ replacement
  | None => word
  end.

(** [[aeiou]] *)
Definition is_vowel (c : ascii) : bool :=
  Ascii.eqb c "a" || Ascii.eqb c "e" || Ascii.eqb c "i" || Ascii.eqb c "o"
  || Ascii.eqb c "u".

(** [/[^aeiou]y$/.test(word)] *)
Definition ends_with_consonant_y (word : string) : bool :=
  match String.rev word with
  | String c (String before _) => Ascii.eqb c "y" && negb (is_vowel before)
  | _ => false
  end.

(** [/(s|sh|ch|x|z)$/.test(word)] *)
Definition ends_with_sibilant (word : string) : bool :=
  ends_with "s" word || ends_with "sh" word || ends_with "ch" word
  || ends_with "x" word || ends_with "z" word.

(** utils.ts. [/fe?$/] matches a final [fe] or a final [f]; the match
    that [replace] rewrites is the leftmost one, the final [fe] when the
    word ends with it. *)
Definition pluralize (word : string) : string :=
  if ends_with_consonant_y word then replace_suffix "y" "ies" word
  else if ends_with_sibilant word then word +:+ "es"
  else if ends_with "fe" word || ends_with "f" word then
    if ends_with "fe" word then replace_suffix "fe" "ves" word
    else replace_suffix "f" "ves" word
  else word +:+ "s".

(** utils.js *)
Definition pluralize_js (word : string) : string :=
  if ends_with_consonant_y word then replace_suffix "y" "ies" word
  else if ends_with_sibilant word then word +:+ "es"
  else if ends_with "f" word then replace_suffix "f" "ves" word
  else if ends_with "fe" word then replace_suffix "fe" "ves" word
  else word +:+ "s".

(** ** utils.ts: [stripFields] and [includeOnlyFields] *)

Section Fields.

(** [V] is the type of the values; the [fields] are names of own
    properties, as their type [keyof T] has it. *)
Context {V : Type}.



End Fields.

(** ** The protocol rules: [getCommitment] *)

(** [count] bytes of [value], least significant first. *)
Fixpoint le_bytes (count : nat) (value : Z) : list Z :=
  match count with
  | O => []
  | S n => value mod 256 :: le_bytes n (value / 256)
  end.

(** [buffer.writeBigUInt64LE(value, offset)]: the eight bytes written,
    or the [RangeError] for a value outside [0, 2^64). *)
Definition writeBigUInt64LE (value : Z) : result (list Z) :=
  if (0 <=? value) && (value <? 2 ^ 64) then Ok (le_bytes 8 value)
  else Throw "RangeError: The value is out of range".

(** [while (end > 0 && bytes.at(end - 1) === 0) end--;
     return bytes.subarray(0, end)] *)
Fixpoint strip_trailing_zeros (bytes : list Z) : list Z :=
  match bytes with
  | [] => []
  | b :: rest =>
      match strip_trailing_zeros rest with
      | [] => if b =? 0 then [] else [b]
      | kept => b :: kept
      end
  end.

Section Commitment.

(** [OrdJSRune.fromString(runeName).value], from a library that is not
    among the sources. *)
Variable Rune_value : string → Z.

(** [getCommitment]: the two 64-bit halves written into a buffer of 16
    bytes, then the trailing zero bytes cut off. *)
Definition getCommitment (runeName : string) : result (list Z) :=
  let value := Rune_value runeName in
  low ← writeBigUInt64LE (Z.land 0xffffffffffffffff value);
  high ← writeBigUInt64LE (Z.shiftr value 64);
  Ok (strip_trailing_zeros (low ++ high)).

End Commitment.

(** The number a little-endian byte string denotes. *)
Definition le_value (bytes : list Z) : Z :=
  foldr (λ b acc, b + 256 * acc) 0 bytes.

(** ** Fixtures for the edict loop *)

(** Seven units of [840100:7] in the bag, an OP_RETURN at output 0 and an
    address at output 1. *)
Definition seven_unallocated : EdictState :=
  {| UnallocatedDunes := {[ "840100:7" := 7 ]};
     pendingUtxos := [output 2 0; output 5 1];
     transfers := ∅ |}.

(** An edict that sends 4 units of [840100:7] to output 0. *)
Definition four_to_output_0 : IndexedTxExtended.t :=
  transaction 840102 3
    (edicts_only [{| IEdict.id := "840100:7"; IEdict.amount := 4; IEdict.output := 0 |}]
       None) [].

(* ================================================================== *)
(** * Part II. Properties *)
(* ================================================================== *)

(** ** Facts about utils.ts *)

Lemma MAX_64_UNSIGNED_ones : MAX_64_UNSIGNED = Z.ones 64.
Proof. reflexivity. Qed.

Lemma lor_shiftl_low (hi lo : Z) :
  0 <= lo < 2 ^ 64 -> Z.lor (Z.shiftl hi 64) lo = hi * 2 ^ 64 + lo.
Proof.
  intros Hlo.
  rewrite Z.shiftl_mul_pow2 by lia.
  rewrite <- Z.lxor_lor, <- Z.add_nocarry_lxor; try reflexivity.
  all: apply Z.bits_inj'; intros n Hn; rewrite Z.land_spec, Z.bits_0.
  all: destruct (Z.lt_ge_cases n 64) as [Hlt | Hge].
  all: try (rewrite Z.mul_pow2_bits_low by lia; reflexivity).
  all: rewrite (Z.bits_above_log2 lo n), andb_false_r; try reflexivity; try lia.
  all: destruct (Z.eq_dec lo 0) as [-> | Hne]; [simpl; lia |].
  all: apply Z.lt_le_trans with 64; [apply Z.log2_lt_pow2; lia | lia].
Qed.

(** C9. Splitting an unsigned 128-bit amount into the signed 64-bit
    halves [(balance_0, balance_1)] and recombining them gives the amount
    back; both halves fit a signed 64-bit integer. *)
Theorem convertParts_roundtrip (amount : Z) :
  0 <= amount < 2 ^ 128 ->
  let p := convertAmountToParts amount in
  convertPartsToAmount (balance_0 p) (balance_1 p) = amount
  /\ - 2 ^ 63 <= balance_0 p < 2 ^ 63
  /\ - 2 ^ 63 <= balance_1 p < 2 ^ 63.
Proof.
  intros Hrange. cbv zeta.
  unfold convertAmountToParts, convertPartsToAmount; cbn [balance_0 balance_1].
  rewrite MAX_64_UNSIGNED_ones, !Z.land_ones, Z.shiftr_div_pow2 by lia.
  change (Z.ones 64 + 1) with (2 ^ 64).
  change MAX_64_SIGNED with (2 ^ 63 - 1).
  set (lo := amount mod 2 ^ 64).
  set (hi := (amount / 2 ^ 64) mod 2 ^ 64).
  assert (Hlo : 0 <= lo < 2 ^ 64) by (apply Z.mod_pos_bound; lia).
  assert (Hhi : 0 <= hi < 2 ^ 64) by (apply Z.mod_pos_bound; lia).
  assert (Hsplit : amount = hi * 2 ^ 64 + lo).
  { unfold hi, lo. rewrite (Z.mod_small (amount / 2 ^ 64)).
    - rewrite Z.mul_comm. apply Z.div_mod. lia.
    - split; [apply Z.div_pos; lia |].
      apply Z.div_lt_upper_bound; [lia |].
      change (2 ^ 64 * 2 ^ 64) with (2 ^ 128). lia. }
  assert (Hb0 : (let b := if 2 ^ 63 - 1 <? lo then lo - 2 ^ 64 else lo in
                 if b <? 0 then b + 2 ^ 64 else b) = lo).
  { cbv zeta. destruct (2 ^ 63 - 1 <? lo) eqn:E.
    - apply Z.ltb_lt in E. destruct (lo - 2 ^ 64 <? 0) eqn:F; [lia |].
      apply Z.ltb_ge in F. lia.
    - apply Z.ltb_ge in E. destruct (lo <? 0) eqn:F; [| reflexivity].
      apply Z.ltb_lt in F. lia. }
  assert (Hb1 : (let b := if 2 ^ 63 - 1 <? hi then hi - 2 ^ 64 else hi in
                 if b <? 0 then b + 2 ^ 64 else b) = hi).
  { cbv zeta. destruct (2 ^ 63 - 1 <? hi) eqn:E.
    - apply Z.ltb_lt in E. destruct (hi - 2 ^ 64 <? 0) eqn:F; [lia |].
      apply Z.ltb_ge in F. lia.
    - apply Z.ltb_ge in E. destruct (hi <? 0) eqn:F; [| reflexivity].
      apply Z.ltb_lt in F. lia. }
  cbv zeta in Hb0, Hb1. rewrite Hb0, Hb1.
  split; [rewrite lor_shiftl_low by exact Hlo; lia |].
  split.
  - destruct (2 ^ 63 - 1 <? lo) eqn:E;
      [apply Z.ltb_lt in E | apply Z.ltb_ge in E]; lia.
  - destruct (2 ^ 63 - 1 <? hi) eqn:E;
      [apply Z.ltb_lt in E | apply Z.ltb_ge in E]; lia.
Qed.

Lemma convertParts_roundtrip_witness :
  0 <= 2 ^ 127 + 2 ^ 63 + 5 < 2 ^ 128
  /\ convertPartsToAmount
       (balance_0 (convertAmountToParts (2 ^ 127 + 2 ^ 63 + 5)))
       (balance_1 (convertAmountToParts (2 ^ 127 + 2 ^ 63 + 5)))
     = 2 ^ 127 + 2 ^ 63 + 5.
Proof.
  split; [lia |].
  apply (convertParts_roundtrip (2 ^ 127 + 2 ^ 63 + 5)). lia.
Defined.

(** ** The allocation primitive *)

Lemma allocate_Ok (utxo : nat) (duneId : string) (amt have : Z)
    (u : IndexerUtxo.t) (s : EdictState) :
  UnallocatedDunes s !! duneId = Some have →
  pendingUtxos s !! utxo = Some u →
  allocate utxo duneId amt s = Ok (allocated utxo duneId have (give have amt) u s).
Proof.
  intros Hhave Hu. unfold allocate, allocated, give.
  rewrite Hhave. cbn [mbind result_bind default from_option]. rewrite Hu.
  unfold balance_of, transferred, destination.
  set (g := if (have <? amt) || (amt =? 0) then have else amt).
  destruct (g =? 0); reflexivity.
Qed.

Lemma balance_of_set (u : IndexerUtxo.t) (b : gmap string Z) (duneId : string) :
  balance_of (IndexerUtxo.set_dune_balances u b) duneId = default 0 (b !! duneId).
Proof. reflexivity. Qed.

Lemma allocated_balance (utxo : nat) (duneId id' : string) (have g : Z)
    (u : IndexerUtxo.t) (s : EdictState) :
  (utxo < length (pendingUtxos s))%nat →
  ∃ u', pendingUtxos (allocated utxo duneId have g u s) !! utxo = Some u'
        ∧ IndexerUtxo.address_id u' = IndexerUtxo.address_id u
        ∧ balance_of u' id' =
            if decide (id' = duneId) then balance_of u duneId + g
            else balance_of u id'.
Proof.
  intros Hlt. eexists. split; [| split].
  - cbn [allocated pendingUtxos]. apply list_lookup_insert_eq. exact Hlt.
  - reflexivity.
  - rewrite balance_of_set. case_decide as Hid.
    + subst id'. by rewrite lookup_insert_eq.
    + by rewrite lookup_insert_ne.
Qed.

Lemma allocated_other_output (utxo j : nat) (duneId : string) (have g : Z)
    (u : IndexerUtxo.t) (s : EdictState) :
  j ≠ utxo →
  pendingUtxos (allocated utxo duneId have g u s) !! j = pendingUtxos s !! j.
Proof. intros Hne. cbn [allocated pendingUtxos]. by apply list_lookup_insert_ne. Qed.

Lemma allocated_length (utxo : nat) (duneId : string) (have g : Z)
    (u : IndexerUtxo.t) (s : EdictState) :
  length (pendingUtxos (allocated utxo duneId have g u s)) = length (pendingUtxos s).
Proof. cbn [allocated pendingUtxos]. apply length_insert. Qed.

Lemma allocated_transferred (utxo : nat) (duneId : string) (have g : Z)
    (u : IndexerUtxo.t) (s : EdictState) (to : toAddress) (id' : string) :
  transferred (transfers (allocated utxo duneId have g u s)) to id' =
    if decide (to = destination u ∧ id' = duneId)
    then transferred (transfers s) to id' + g
    else transferred (transfers s) to id'.
Proof.
  cbn [allocated transfers]. destruct (g =? 0) eqn:Hg.
  - apply Z.eqb_eq in Hg. subst g. case_decide; lia.
  - unfold transferred at 1.
    destruct (decide (to = destination u)) as [-> | Hto].
    + rewrite lookup_insert_eq. cbn [from_option id].
      destruct (decide (id' = duneId)) as [-> | Hid].
      * rewrite lookup_insert_eq. rewrite decide_True by done. reflexivity.
      * rewrite lookup_insert_ne by done.
        rewrite decide_False by (intros [_ ?]; done). reflexivity.
    + rewrite lookup_insert_ne by done.
      rewrite decide_False by (intros [? _]; done). reflexivity.
Qed.

(** C4. [allocate(utxo, dune_id, amt)] with [have = U[dune_id]] moves
    [give = have] when [amt = 0] or [have < amt], and [give = amt]
    otherwise: [give] is subtracted from [U[dune_id]], added to the
    output's [dune_balances[dune_id]], and accumulated into
    [transfers[to][dune_id]], where [to] is ["burn"] for an output whose
    address id is 2; nothing else changes. *)
Theorem allocate_spec (utxo : nat) (duneId : string) (amt have : Z)
    (u : IndexerUtxo.t) (s : EdictState) :
  UnallocatedDunes s !! duneId = Some have →
  pendingUtxos s !! utxo = Some u →
  let moved := if decide (amt = 0 ∨ have < amt) then have else amt in
  let to := if decide (IndexerUtxo.address_id u = 2) then burn
            else to_address (IndexerUtxo.address_id u) in
  ∃ s',
    allocate utxo duneId amt s = Ok s'
    ∧ UnallocatedDunes s' = <[duneId := have - moved]> (UnallocatedDunes s)
    ∧ (∃ u', pendingUtxos s' !! utxo = Some u'
             ∧ IndexerUtxo.address_id u' = IndexerUtxo.address_id u
             ∧ balance_of u' duneId = balance_of u duneId + moved
             ∧ ∀ id', id' ≠ duneId → balance_of u' id' = balance_of u id')
    ∧ (∀ j, j ≠ utxo → pendingUtxos s' !! j = pendingUtxos s !! j)
    ∧ transferred (transfers s') to duneId
        = transferred (transfers s) to duneId + moved
    ∧ (∀ to' id', ¬ (to' = to ∧ id' = duneId) →
         transferred (transfers s') to' id' = transferred (transfers s) to' id').
Proof.
  intros Hhave Hu moved to.
  assert (Hmoved : moved = give have amt).
  { unfold moved, give. case_decide as H.
    - destruct H as [-> | Hlt].
      + by rewrite Z.eqb_refl, orb_true_r.
      + apply Z.ltb_lt in Hlt. by rewrite Hlt.
    - destruct (have <? amt) eqn:E1; [apply Z.ltb_lt in E1; naive_solver |].
      destruct (amt =? 0) eqn:E2; [apply Z.eqb_eq in E2; naive_solver |].
      reflexivity. }
  assert (Hto : to = destination u).
  { unfold to, destination. case_decide as H.
    - by rewrite H.
    - apply Z.eqb_neq in H. by rewrite H. }
  assert (Hlt : (utxo < length (pendingUtxos s))%nat) by (by eapply lookup_lt_Some).
  exists (allocated utxo duneId have (give have amt) u s).
  rewrite Hmoved, Hto.
  split; [by apply allocate_Ok |].
  split; [reflexivity |].
  split.
  { destruct (allocated_balance utxo duneId duneId have (give have amt) u s Hlt)
      as (u' & Hu' & Haddr & Hbal).
    exists u'. rewrite decide_True in Hbal by done.
    repeat split; try done.
    intros id' Hid.
    destruct (allocated_balance utxo duneId id' have (give have amt) u s Hlt)
      as (u'' & Hu'' & _ & Hbal').
    rewrite Hu' in Hu''. injection Hu'' as <-.
    by rewrite decide_False in Hbal' by done. }
  split; [intros j Hj; by apply allocated_other_output |].
  split.
  - rewrite allocated_transferred. by rewrite decide_True by done.
  - intros to' id' Hne. rewrite allocated_transferred.
    by rewrite decide_False by done.
Qed.

Lemma allocate_spec_witness :
  let s := {| UnallocatedDunes := {[ "840100:7" := 7 ]};
              pendingUtxos :=
                [ {| IndexerUtxo.address_id := 2; IndexerUtxo.vout_index := 0;
                     IndexerUtxo.value_sats := 0;
                     IndexerUtxo.dune_balances := Some ∅ |} ];
              transfers := ∅ |} in
  ∃ s', allocate 0 "840100:7" 5 s = Ok s'
        ∧ UnallocatedDunes s' = <[ "840100:7" := 7 - 5 ]> (UnallocatedDunes s)
        ∧ transferred (transfers s') burn "840100:7" = 0 + 5.
Proof.
  intros s.
  destruct (allocate_spec 0 "840100:7" 5 7
              {| IndexerUtxo.address_id := 2; IndexerUtxo.vout_index := 0;
                 IndexerUtxo.value_sats := 0;
                 IndexerUtxo.dune_balances := Some ∅ |} s)
    as (s' & Hrun & Hbag & _ & _ & Htr & _); [reflexivity | reflexivity |].
  exists s'. split; [exact Hrun |]. split; [exact Hbag | exact Htr].
Defined.

(** ** Positions of the outputs *)

Lemma index_in_lookup {A} (arr : list A) (i : Z) (n : nat) :
  index_in arr i = Some n → i = Z.of_nat n ∧ is_Some (arr !! n).
Proof.
  unfold index_in. destruct ((0 <=? i) && (i <? Z.of_nat (length arr))) eqn:E;
    [| discriminate].
  intros [= <-]. apply andb_true_iff in E as [H0 Hlen].
  apply Z.leb_le in H0. apply Z.ltb_lt in Hlen.
  split; [lia |]. apply lookup_lt_is_Some. lia.
Qed.

Lemma index_in_in_range {A} (arr : list A) (i : Z) :
  0 ≤ i < Z.of_nat (length arr) → index_in arr i = Some (Z.to_nat i).
Proof.
  intros [H0 Hlen]. unfold index_in.
  apply Z.leb_le in H0. apply Z.ltb_lt in Hlen. by rewrite H0, Hlen.
Qed.

Lemma elem_of_nonOpReturn_from (pending : list IndexerUtxo.t) (i j : nat) :
  j ∈ nonOpReturn_from pending i ↔
  (i ≤ j)%nat ∧ ∃ u, pending !! (j - i)%nat = Some u ∧ IndexerUtxo.address_id u ≠ 2.
Proof.
  revert i. induction pending as [| u rest IH]; intros i; cbn [nonOpReturn_from].
  - split; [by intros ?%elem_of_nil | by intros (_ & ? & ? & _)].
  - assert (Hrest : j ∈ nonOpReturn_from rest (S i) ↔
            (i < j)%nat ∧ ∃ u', (u :: rest) !! (j - i)%nat = Some u'
                                ∧ IndexerUtxo.address_id u' ≠ 2).
    { rewrite IH. split.
      - intros (Hle & u' & Hu' & Ha). split; [lia |]. exists u'. split; [| done].
        replace (j - i)%nat with (S (j - S i)) by lia. exact Hu'.
      - intros (Hlt & u' & Hu' & Ha). split; [lia |]. exists u'. split; [| done].
        replace (j - i)%nat with (S (j - S i)) in Hu' by lia. exact Hu'. }
    destruct (IndexerUtxo.address_id u =? 2) eqn:E.
    + apply Z.eqb_eq in E. rewrite Hrest. split.
      * intros (Hlt & Hu'). split; [lia | done].
      * intros (Hle & u' & Hu' & Ha).
        destruct (decide (j = i)) as [-> | Hne].
        { rewrite Nat.sub_diag in Hu'. injection Hu' as <-. done. }
        split; [lia |]. by exists u'.
    + apply Z.eqb_neq in E. rewrite elem_of_cons, Hrest. split.
      * intros [-> | (Hlt & Hu')]; [| split; [lia | done]].
        split; [lia |]. exists u. by rewrite Nat.sub_diag.
      * intros (Hle & Hu'). destruct (decide (j = i)) as [-> | Hne]; [by left |].
        right. split; [lia | done].
Qed.

Lemma elem_of_nonOpReturnOutputs (pending : list IndexerUtxo.t) (j : nat) :
  j ∈ nonOpReturnOutputs pending ↔
  ∃ u, pending !! j = Some u ∧ IndexerUtxo.address_id u ≠ 2.
Proof.
  unfold nonOpReturnOutputs. rewrite elem_of_nonOpReturn_from, Nat.sub_0_r.
  split; [by intros (_ & H) | intros H; split; [lia | done]].
Qed.

Lemma NoDup_nonOpReturn_from (pending : list IndexerUtxo.t) (i : nat) :
  NoDup (nonOpReturn_from pending i).
Proof.
  revert i. induction pending as [| u rest IH]; intros i; cbn [nonOpReturn_from].
  - constructor.
  - destruct (IndexerUtxo.address_id u =? 2); [apply IH |].
    constructor; [| apply IH].
    rewrite elem_of_nonOpReturn_from. intros (Hle & _). lia.
Qed.

Lemma pointerOutput_lookup (pointer : option Z) (pending : list IndexerUtxo.t)
    (p : nat) :
  pointerOutput pointer pending = Some p → is_Some (pending !! p).
Proof.
  unfold pointerOutput.
  assert (Hhead : ∀ j, head (nonOpReturnOutputs pending) = Some j →
                       is_Some (pending !! j)).
  { intros j Hj. apply head_Some_elem_of in Hj.
    apply elem_of_nonOpReturnOutputs in Hj as (u & Hu & _). by exists u. }
  assert (Hfind : fst <$> list_find (λ utxo, IndexerUtxo.address_id utxo = 2) pending
                  = Some p → is_Some (pending !! p)).
  { destruct (list_find _ pending) as [[i u] |] eqn:E; [| discriminate].
    intros [= <-]. apply list_find_Some in E as (Hu & _). by exists u. }
  set (first := head (nonOpReturnOutputs pending)) in *.
  destruct pointer as [ptr |].
  - destruct (ptr =? 0).
    + destruct first as [j |]; [intros [= <-]; by apply Hhead | exact Hfind].
    + destruct (index_in pending ptr) as [i |] eqn:Ei.
      * intros [= <-]. by apply index_in_lookup in Ei as [_ ?].
      * destruct first as [j |]; [intros [= <-]; by apply Hhead | exact Hfind].
  - destruct first as [j |]; [intros [= <-]; by apply Hhead | exact Hfind].
Qed.

(** ** The pointer sweep *)

Lemma give_all (v : Z) : give v v = v.
Proof.
  unfold give. rewrite Z.ltb_irrefl. cbn [orb].
  destruct (v =? 0); reflexivity.
Qed.

Lemma sweep_loop (p : nat) (l : list (string * Z)) :
  ∀ (i : nat) (s : EdictState) (u : IndexerUtxo.t),
  NoDup l.*1 →
  (∀ k v, (k, v) ∈ l → UnallocatedDunes s !! k = Some v) →
  pendingUtxos s !! p = Some u →
  ∃ s' u',
    forEach_from (λ allocationData (_ : nat),
                    allocate p allocationData.1 allocationData.2) l i s = Ok s'
    ∧ (∀ k, UnallocatedDunes s' !! k =
              if decide (k ∈ l.*1) then Some 0 else UnallocatedDunes s !! k)
    ∧ pendingUtxos s' !! p = Some u'
    ∧ IndexerUtxo.address_id u' = IndexerUtxo.address_id u
    ∧ (∀ k, balance_of u' k =
              balance_of u k + if decide (k ∈ l.*1) then unallocated_of s k else 0)
    ∧ (∀ j, j ≠ p → pendingUtxos s' !! j = pendingUtxos s !! j)
    ∧ (∀ to k, transferred (transfers s') to k =
                 transferred (transfers s) to k
                 + if decide (to = destination u ∧ k ∈ l.*1)
                   then unallocated_of s k else 0).
Proof.
  induction l as [| [k v] l IH]; intros i s u Hnodup Hbag Hu.
  - exists s, u. cbn [forEach_from fmap list_fmap].
    repeat split; try done.
    + intros k. rewrite decide_False by apply not_elem_of_nil. lia.
    + intros to k. rewrite decide_False; [lia |].
      intros [_ Hin]. by apply not_elem_of_nil in Hin.
  - rewrite fmap_cons in Hnodup. cbn [fst] in Hnodup.
    apply NoDup_cons in Hnodup as [Hk Hnodup].
    assert (Hkv : UnallocatedDunes s !! k = Some v) by (apply Hbag; left).
    assert (Hlt : (p < length (pendingUtxos s))%nat) by (by eapply lookup_lt_Some).
    set (s1 := allocated p k v v u s).
    destruct (allocated_balance p k k v v u s Hlt) as (u1 & Hu1 & Haddr1 & _).
    fold s1 in Hu1.
    destruct (IH (S i) s1 u1 Hnodup)
      as (s' & u' & Hrun & HU & Hp & Haddr & Hbal & Hoth & Htr).
    { intros k' v' Hin. cbn [s1 allocated UnallocatedDunes].
      rewrite lookup_insert_ne.
      - apply Hbag. by right.
      - intros ->. apply Hk. apply list_elem_of_fmap. by exists (k', v'). }
    { exact Hu1. }
    exists s', u'. split.
    { cbn [forEach_from]. cbn [fst snd].
      rewrite (allocate_Ok p k v v u s Hkv Hu), give_all. exact Hrun. }
    split.
    { intros k'. rewrite HU, fmap_cons. cbn [fst].
      destruct (decide (k' = k)) as [-> | Hne].
      - rewrite decide_False by done. rewrite decide_True by left.
        cbn [s1 allocated UnallocatedDunes]. rewrite lookup_insert_eq.
        f_equal. lia.
      - destruct (decide (k' ∈ l.*1)) as [Hin | Hnin].
        + rewrite decide_True by (by right). done.
        + rewrite decide_False by (rewrite elem_of_cons; intros [? | ?]; done).
          cbn [s1 allocated UnallocatedDunes]. by rewrite lookup_insert_ne. }
    split; [exact Hp |].
    split; [congruence |].
    split.
    { intros k'. rewrite Hbal, fmap_cons. cbn [fst].
      destruct (allocated_balance p k k' v v u s Hlt) as (u1' & Hu1' & _ & Hbal1).
      fold s1 in Hu1'. rewrite Hu1 in Hu1'. injection Hu1' as <-.
      rewrite Hbal1.
      destruct (decide (k' = k)) as [-> | Hne].
      - rewrite decide_False by done. rewrite decide_True by left.
        unfold unallocated_of. rewrite Hkv. cbn [default from_option id]. lia.
      - destruct (decide (k' ∈ l.*1)) as [Hin | Hnin].
        + rewrite decide_True by (by right).
          unfold unallocated_of. cbn [s1 allocated UnallocatedDunes].
          by rewrite lookup_insert_ne.
        + rewrite decide_False by (rewrite elem_of_cons; intros [? | ?]; done). done. }
    split; [intros j Hj; rewrite Hoth by done; by apply allocated_other_output |].
    intros to k'. rewrite Htr, fmap_cons. cbn [fst].
    assert (Hdest : destination u1 = destination u)
      by (unfold destination; by rewrite Haddr1).
    rewrite Hdest. unfold s1 at 1. rewrite allocated_transferred.
    destruct (decide (to = destination u)) as [-> | Hto].
    + destruct (decide (k' = k)) as [-> | Hne].
      * rewrite (decide_True (P := _ ∧ k = k)) by done.
        rewrite (decide_False (P := _ ∧ k ∈ l.*1)) by (intros [_ ?]; done).
        rewrite (decide_True (P := _ ∧ k ∈ k :: l.*1)) by (split; [done | left]).
        unfold unallocated_of. rewrite Hkv. cbn [from_option]. unfold id. lia.
      * rewrite (decide_False (P := _ ∧ k' = k)) by (intros [_ ?]; done).
        destruct (decide (k' ∈ l.*1)) as [Hin | Hnin].
        -- rewrite (decide_True (P := _ ∧ k' ∈ l.*1)) by done.
           rewrite (decide_True (P := _ ∧ k' ∈ k :: l.*1))
             by (split; [done | by right]).
           unfold unallocated_of. cbn [s1 allocated UnallocatedDunes].
           by rewrite lookup_insert_ne.
        -- rewrite (decide_False (P := _ ∧ k' ∈ l.*1)) by (intros [_ ?]; done).
           rewrite (decide_False (P := _ ∧ k' ∈ k :: l.*1)); [lia |].
           rewrite elem_of_cons. intros [_ [? | ?]]; done.
    + rewrite !decide_False by (intros [? _]; done). lia.
Qed.

Lemma sweep_lookup (p : nat) (s : EdictState) (u : IndexerUtxo.t) :
  pendingUtxos s !! p = Some u →
  ∃ s' u',
    sweep p s = Ok s'
    ∧ (∀ k, unallocated_of s' k = 0)
    ∧ pendingUtxos s' !! p = Some u'
    ∧ IndexerUtxo.address_id u' = IndexerUtxo.address_id u
    ∧ (∀ k, balance_of u' k = balance_of u k + unallocated_of s k)
    ∧ (∀ j, j ≠ p → pendingUtxos s' !! j = pendingUtxos s !! j)
    ∧ (∀ to k, transferred (transfers s') to k =
                 transferred (transfers s) to k
                 + if decide (to = destination u) then unallocated_of s k else 0).
Proof.
  intros Hu. unfold sweep, forEach.
  assert (Hkeys : ∀ k, k ∈ (map_to_list (UnallocatedDunes s)).*1
                       ↔ is_Some (UnallocatedDunes s !! k)).
  { intros k. rewrite list_elem_of_fmap. split.
    - intros ([k' v] & -> & Hin). apply elem_of_map_to_list in Hin. by exists v.
    - intros [v Hv]. exists (k, v). split; [done |]. by apply elem_of_map_to_list. }
  destruct (sweep_loop p (map_to_list (UnallocatedDunes s)) 0%nat s u)
    as (s' & u' & Hrun & HU & Hp & Haddr & Hbal & Hoth & Htr).
  { apply NoDup_fst_map_to_list. }
  { intros k v Hin. by apply elem_of_map_to_list. }
  { exact Hu. }
  exists s', u'. split; [exact Hrun |]. split.
  { intros k. unfold unallocated_of. rewrite HU. case_decide as Hin; [done |].
    rewrite Hkeys in Hin. apply eq_None_not_Some in Hin. by rewrite Hin. }
  split; [exact Hp |]. split; [exact Haddr |].
  assert (Hmissing : ∀ k, k ∉ (map_to_list (UnallocatedDunes s)).*1
                          → unallocated_of s k = 0).
  { intros k Hin. rewrite Hkeys in Hin. apply eq_None_not_Some in Hin.
    unfold unallocated_of. by rewrite Hin. }
  split.
  { intros k. rewrite Hbal. case_decide as Hin; [done |].
    by rewrite Hmissing. }
  split; [exact Hoth |].
  intros to k. rewrite Htr.
  destruct (decide (to = destination u)) as [-> | Hto].
  - destruct (decide (k ∈ (map_to_list (UnallocatedDunes s)).*1)) as [Hin | Hnin].
    + by rewrite decide_True by done.
    + rewrite decide_False by (intros [_ ?]; done). by rewrite Hmissing.
  - by rewrite decide_False by (intros [? _]; done).
Qed.

Lemma pointerOutput_None (pointer : option Z) (pending : list IndexerUtxo.t) :
  pointerOutput pointer pending = None ↔ pending = [].
Proof.
  split.
  - destruct pending as [| u rest]; [done |]. intros Hnone. exfalso.
    assert (Hnot : head (nonOpReturnOutputs (u :: rest)) = None
                   → fst <$> list_find (λ utxo, IndexerUtxo.address_id utxo = 2)
                               (u :: rest) = None → False).
    { intros Hhead Hfind.
      unfold nonOpReturnOutputs in Hhead. cbn [nonOpReturn_from] in Hhead.
      destruct (IndexerUtxo.address_id u =? 2) eqn:E; [| discriminate].
      apply Z.eqb_eq in E. cbn [list_find] in Hfind.
      rewrite decide_True in Hfind by done. discriminate. }
    unfold pointerOutput in Hnone.
    destruct (head (nonOpReturnOutputs (u :: rest))) as [j |] eqn:Hhead.
    + destruct pointer as [ptr |]; [| discriminate].
      destruct (ptr =? 0); [discriminate |].
      destruct (index_in (u :: rest) ptr); discriminate.
    + destruct pointer as [ptr |]; [| by apply Hnot].
      destruct (ptr =? 0); [by apply Hnot |].
      destruct (index_in (u :: rest) ptr); [discriminate | by apply Hnot].
  - intros ->. unfold pointerOutput. cbn.
    destruct pointer as [ptr |]; [| done].
    destruct (ptr =? 0); [done |].
    unfold index_in. cbn [length].
    destruct (0 <=? ptr) eqn:E0, (ptr <? Z.of_nat 0) eqn:E1; try done.
    apply Z.leb_le in E0. apply Z.ltb_lt in E1. lia.
Qed.

(** The two ways out of [processEdicts] for a dunestone that is not a
    cenotaph: an exception (an edict's [allocate] threw, or there is no
    output at all), or the pointer sweep. *)
Lemma processEdicts_outcome (Transaction : IndexedTxExtended.t)
    (storage : Storage) (s : EdictState) :
  IDunestoneIndexed.cenotaph (IndexedTxExtended.dunestone Transaction) = false →
  match processEdicts Transaction storage s with
  | Ok s' =>
      (∀ id, unallocated_of s' id = 0)
      ∧ ∃ s1 p u1 u',
          run_edicts Transaction storage s = Ok s1
          ∧ pointerOutput
              (IDunestoneIndexed.pointer (IndexedTxExtended.dunestone Transaction))
              (pendingUtxos s1) = Some p
          ∧ pendingUtxos s1 !! p = Some u1
          ∧ pendingUtxos s' !! p = Some u'
          ∧ (∀ id, balance_of u' id = balance_of u1 id + unallocated_of s1 id)
          ∧ (∀ j, j ≠ p → pendingUtxos s' !! j = pendingUtxos s1 !! j)
  | Throw _ =>
      (∃ msg, run_edicts Transaction storage s = Throw msg)
      ∨ (∃ s1, run_edicts Transaction storage s = Ok s1 ∧ pendingUtxos s1 = [])
  end.
Proof.
  intros Hcen. unfold processEdicts. rewrite Hcen.
  destruct (run_edicts Transaction storage s) as [s1 | msg] eqn:Hrun;
    cbn [mbind result_bind]; [| left; by exists msg].
  destruct (pointerOutput _ (pendingUtxos s1)) as [p |] eqn:Hptr.
  - destruct (pointerOutput_lookup _ _ _ Hptr) as [u1 Hu1].
    destruct (sweep_lookup p s1 u1 Hu1)
      as (s' & u' & Hsweep & Hzero & Hp & _ & Hbal & Hoth & _).
    rewrite Hsweep. split; [exact Hzero |].
    exists s1, p, u1, u'. repeat split; done.
  - right. exists s1. split; [done |]. by apply pointerOutput_None in Hptr.
Qed.

(** ** The edict loop does not throw on decoded edicts *)

Lemma allocate_returns (utxo : nat) (duneId : string) (amt : Z) (s : EdictState) :
  is_Some (UnallocatedDunes s !! duneId) →
  (utxo < length (pendingUtxos s))%nat →
  ∃ s', allocate utxo duneId amt s = Ok s'
        ∧ length (pendingUtxos s') = length (pendingUtxos s)
        ∧ is_Some (UnallocatedDunes s' !! duneId).
Proof.
  intros [have Hhave] Hlt. apply lookup_lt_is_Some in Hlt as [u Hu].
  eexists. split; [by apply allocate_Ok |].
  split; [apply allocated_length |].
  cbn [allocated UnallocatedDunes]. rewrite lookup_insert_eq. by eexists.
Qed.

Lemma forEach_allocate_returns (duneId : string) (amount : nat → Z)
    (outputs : list nat) :
  ∀ (index : nat) (s : EdictState),
  is_Some (UnallocatedDunes s !! duneId) →
  (∀ j, j ∈ outputs → (j < length (pendingUtxos s))%nat) →
  ∃ s', forEach_from (λ utxo i, allocate utxo duneId (amount i)) outputs index s
        = Ok s'
        ∧ length (pendingUtxos s') = length (pendingUtxos s).
Proof.
  induction outputs as [| j outputs IH]; intros index s Hbag Hvalid.
  - by exists s.
  - destruct (allocate_returns j duneId (amount index) s Hbag)
      as (s1 & Hrun & Hlen & Hbag1); [apply Hvalid; by left |].
    destruct (IH (S index) s1 Hbag1) as (s' & Hrest & Hlen').
    { intros j' Hj'. rewrite Hlen. apply Hvalid. by right. }
    exists s'. cbn [forEach_from]. rewrite Hrun. cbn [mbind result_bind].
    split; [exact Hrest | congruence].
Qed.

Lemma processEdict_returns (existingDunes : string → bool) (nonOp : list nat)
    (edict : IEdict.t) (s : EdictState) :
  (∀ j, j ∈ nonOp → (j < length (pendingUtxos s))%nat) →
  0 ≤ IEdict.output edict ≤ Z.of_nat (length (pendingUtxos s)) →
  ∃ s', processEdict existingDunes nonOp edict s = Ok s'
        ∧ length (pendingUtxos s') = length (pendingUtxos s).
Proof.
  intros Hvalid Hrange. unfold processEdict.
  destruct (negb _); [by exists s |].
  destruct (UnallocatedDunes s !! IEdict.id edict) as [have |] eqn:Hbag;
    cbn [falsy_amount]; [| by exists s].
  destruct (have =? 0); [by exists s |].
  assert (Hsome : is_Some (UnallocatedDunes s !! IEdict.id edict))
    by (rewrite Hbag; by eexists).
  destruct (IEdict.output edict =? _) eqn:Eout.
  - destruct (IEdict.amount edict =? 0).
    + destruct (0 <? _); [| by exists s].
      unfold forEach.
      apply (forEach_allocate_returns (IEdict.id edict)
               (λ index, if Z.of_nat index <? _ then _ else _)); done.
    + unfold forEach.
      apply (forEach_allocate_returns (IEdict.id edict)
               (λ _, IEdict.amount edict)); done.
  - apply Z.eqb_neq in Eout.
    assert (Hlt : (Z.to_nat (IEdict.output edict) < length (pendingUtxos s))%nat)
      by lia.
    rewrite index_in_in_range by lia.
    destruct (allocate_returns (Z.to_nat (IEdict.output edict)) (IEdict.id edict)
                (IEdict.amount edict) s Hsome Hlt) as (s' & Hrun & Hlen & _).
    by exists s'.
Qed.

Lemma forEach_processEdict_returns (existingDunes : string → bool)
    (nonOp : list nat) (edicts : list IEdict.t) :
  ∀ (index : nat) (s : EdictState),
  (∀ j, j ∈ nonOp → (j < length (pendingUtxos s))%nat) →
  Forall (λ e, 0 ≤ IEdict.output e ≤ Z.of_nat (length (pendingUtxos s))) edicts →
  ∃ s', forEach_from (λ edict (_ : nat), processEdict existingDunes nonOp edict)
          edicts index s = Ok s'
        ∧ length (pendingUtxos s') = length (pendingUtxos s).
Proof.
  induction edicts as [| e edicts IH]; intros index s Hvalid Hrange.
  - by exists s.
  - apply Forall_cons in Hrange as [He Hrange].
    destruct (processEdict_returns existingDunes nonOp e s Hvalid He)
      as (s1 & Hrun & Hlen).
    destruct (IH (S index) s1) as (s' & Hrest & Hlen').
    { intros j Hj. rewrite Hlen. by apply Hvalid. }
    { by rewrite Hlen. }
    exists s'. cbn [forEach_from]. rewrite Hrun. cbn [mbind result_bind].
    split; [exact Hrest | congruence].
Qed.

(** With every edict naming an output between 0 and the number of
    outputs, as decoded edicts do, and at least one output, a
    non-cenotaph transaction goes through [processEdicts] without an
    exception and leaves the bag empty. *)
Lemma processEdicts_returns (Transaction : IndexedTxExtended.t)
    (storage : Storage) (s : EdictState) :
  IDunestoneIndexed.cenotaph (IndexedTxExtended.dunestone Transaction) = false →
  from_option
    (Forall (λ e, 0 ≤ IEdict.output e ≤ Z.of_nat (length (pendingUtxos s))))
    True (IDunestoneIndexed.edicts (IndexedTxExtended.dunestone Transaction)) →
  pendingUtxos s ≠ [] →
  ∃ s', processEdicts Transaction storage s = Ok s'
        ∧ ∀ id, unallocated_of s' id = 0.
Proof.
  intros Hcen Hrange Hne.
  assert (Hrun : ∃ s1, run_edicts Transaction storage s = Ok s1
                       ∧ length (pendingUtxos s1) = length (pendingUtxos s)).
  { unfold run_edicts.
    destruct (IDunestoneIndexed.edicts _) as [edicts |]; [| by exists s].
    unfold forEach. apply forEach_processEdict_returns.
    - intros j Hj. apply elem_of_nonOpReturnOutputs in Hj as (u & Hu & _).
      by eapply lookup_lt_Some.
    - cbn [from_option] in Hrange. apply Forall_fmap.
      eapply Forall_impl; [exact Hrange |]. by intros e He. }
  destruct Hrun as (s1 & Hrun & Hlen).
  pose proof (processEdicts_outcome Transaction storage s Hcen) as H.
  destruct (processEdicts Transaction storage s) as [s' | msg].
  - exists s'. split; [reflexivity | exact (proj1 H)].
  - exfalso. destruct H as [[msg' H] | (s1' & H & Hnil)]; [congruence |].
    rewrite Hrun in H. injection H as <-.
    apply Hne. apply nil_length_inv. rewrite <- Hlen. by rewrite Hnil.
Qed.

(** C2. For a transaction whose dunestone is not a cenotaph,
    [processEdicts] either throws (an edict's [allocate] threw, or there
    is no output at all) or ends with the pointer sweep, after which the
    unallocated bag maps every dune id to zero: each residual amount has
    been added to the balances of the one output the sweep chose, and no
    other output was touched by the sweep. With every edict naming an
    output between 0 and the number of outputs, and at least one output,
    there is no exception. *)
Theorem pointer_sweep_empties_bag (Transaction : IndexedTxExtended.t)
    (storage : Storage) (s : EdictState) :
  IDunestoneIndexed.cenotaph (IndexedTxExtended.dunestone Transaction) = false →
  match processEdicts Transaction storage s with
  | Ok s' =>
      (∀ id, unallocated_of s' id = 0)
      ∧ ∃ s1 p u1 u',
          run_edicts Transaction storage s = Ok s1
          ∧ pointerOutput
              (IDunestoneIndexed.pointer (IndexedTxExtended.dunestone Transaction))
              (pendingUtxos s1) = Some p
          ∧ pendingUtxos s1 !! p = Some u1
          ∧ pendingUtxos s' !! p = Some u'
          ∧ (∀ id, balance_of u' id = balance_of u1 id + unallocated_of s1 id)
          ∧ (∀ j, j ≠ p → pendingUtxos s' !! j = pendingUtxos s1 !! j)
  | Throw _ =>
      ((∃ msg, run_edicts Transaction storage s = Throw msg)
       ∨ (∃ s1, run_edicts Transaction storage s = Ok s1 ∧ pendingUtxos s1 = []))
      ∧ ¬ (from_option
             (Forall (λ e, 0 ≤ IEdict.output e
                           ≤ Z.of_nat (length (pendingUtxos s))))
             True
             (IDunestoneIndexed.edicts (IndexedTxExtended.dunestone Transaction))
           ∧ pendingUtxos s ≠ [])
  end.
Proof.
  intros Hcen.
  pose proof (processEdicts_outcome Transaction storage s Hcen) as Hout.
  destruct (processEdicts Transaction storage s) as [s' | msg] eqn:Hrun;
    [exact Hout |].
  split; [exact Hout |]. intros [Hrange Hne].
  destruct (processEdicts_returns Transaction storage s Hcen Hrange Hne)
    as (s' & Hok & _).
  congruence.
Qed.

Lemma pointer_sweep_empties_bag_witness :
  let Transaction :=
    {| IndexedTxExtended.block := 840102; IndexedTxExtended.txIndex := 3;
       IndexedTxExtended.dunestone := only_cenotaph false;
       IndexedTxExtended.coinbase := false;
       IndexedTxExtended.vout := []; IndexedTxExtended.virtual_id := None;
       IndexedTxExtended.sender := None |} in
  let storage :=
    {| Dune := ∅; Address := ∅; Event := []; next_dune_id := 1;
       next_address_id := 4 |} in
  let s :=
    {| UnallocatedDunes := {[ "840100:7" := 7 ]};
       pendingUtxos :=
         [ {| IndexerUtxo.address_id := 5; IndexerUtxo.vout_index := 0;
              IndexerUtxo.value_sats := 546;
              IndexerUtxo.dune_balances := Some ∅ |} ];
       transfers := ∅ |} in
  ∃ s', processEdicts Transaction storage s = Ok s'
        ∧ ∀ id, unallocated_of s' id = 0.
Proof.
  intros Transaction storage s.
  pose proof (pointer_sweep_empties_bag Transaction storage s eq_refl) as H.
  destruct (processEdicts Transaction storage s) as [s' | msg] eqn:E.
  - exists s'. split; [reflexivity | exact (proj1 H)].
  - exfalso. vm_compute in E. discriminate E.
Defined.

(** ** The even split *)

Lemma split_loop (id : string) (q r n : Z) :
  0 ≤ q → 0 ≤ r < n →
  ∀ (rest : list nat) (i : nat) (s : EdictState),
  NoDup rest →
  (∀ j, j ∈ rest → is_Some (pendingUtxos s !! j)) →
  Z.of_nat i + Z.of_nat (length rest) = n →
  UnallocatedDunes s !! id = Some (q * (n - Z.of_nat i) + r - Z.min (Z.of_nat i) r) →
  ∃ s',
    forEach_from
      (λ utxo index, allocate utxo id (if Z.of_nat index <? r then q + 1 else q))
      rest i s = Ok s'
    ∧ UnallocatedDunes s' = <[id := 0]> (UnallocatedDunes s)
    ∧ length (pendingUtxos s') = length (pendingUtxos s)
    ∧ (∀ k j, rest !! k = Some j →
         ∃ u u', pendingUtxos s !! j = Some u
                 ∧ pendingUtxos s' !! j = Some u'
                 ∧ IndexerUtxo.address_id u' = IndexerUtxo.address_id u
                 ∧ balance_of u' id =
                     balance_of u id
                     + (if Z.of_nat (i + k) <? r then q + 1 else q)
                 ∧ ∀ id', id' ≠ id → balance_of u' id' = balance_of u id')
    ∧ (∀ j, j ∉ rest → pendingUtxos s' !! j = pendingUtxos s !! j).
Proof.
  intros Hq Hr. induction rest as [| j rest IH]; intros i s Hnodup Hvalid Hlen Hbag.
  - exists s. cbn [forEach_from length] in *.
    split; [reflexivity |]. split.
    { symmetry. apply insert_id. rewrite Hbag. f_equal. nia. }
    split; [reflexivity |]. split; [| done].
    intros k j Hk. by rewrite lookup_nil in Hk.
  - apply NoDup_cons in Hnodup as [Hj Hnodup]. cbn [length] in Hlen.
    destruct (Hvalid j) as [u Hu]; [by left |].
    assert (Hlt : (j < length (pendingUtxos s))%nat) by (by eapply lookup_lt_Some).
    set (have := q * (n - Z.of_nat i) + r - Z.min (Z.of_nat i) r) in *.
    set (amt := if Z.of_nat i <? r then q + 1 else q).
    assert (Hgive : give have amt = amt).
    { unfold give, amt, have.
      destruct (Z.of_nat i <? r) eqn:Ei;
        [apply Z.ltb_lt in Ei | apply Z.ltb_ge in Ei].
      - replace (_ <? q + 1) with false by (symmetry; apply Z.ltb_ge; nia).
        by replace (q + 1 =? 0) with false by (symmetry; apply Z.eqb_neq; lia).
      - replace (_ <? q) with false by (symmetry; apply Z.ltb_ge; nia).
        cbn [orb]. destruct (q =? 0) eqn:Eq; [| reflexivity].
        apply Z.eqb_eq in Eq. nia. }
    set (s1 := allocated j id have amt u s).
    destruct (IH (S i) s1) as (s' & Hrun & HU & Hlen' & Hin & Hout).
    { exact Hnodup. }
    { intros j' Hj'. apply lookup_lt_is_Some. unfold s1.
      rewrite allocated_length. apply lookup_lt_is_Some, Hvalid. by right. }
    { lia. }
    { cbn [s1 allocated UnallocatedDunes]. rewrite lookup_insert_eq. f_equal.
      unfold have, amt.
      destruct (Z.of_nat i <? r) eqn:Ei;
        [apply Z.ltb_lt in Ei | apply Z.ltb_ge in Ei]; nia. }
    exists s'. split.
    { cbn [forEach_from]. fold amt.
      rewrite (allocate_Ok j id amt have u s Hbag Hu), Hgive. exact Hrun. }
    split.
    { rewrite HU. cbn [s1 allocated UnallocatedDunes]. apply insert_insert_eq. }
    split.
    { rewrite Hlen'. apply allocated_length. }
    split.
    { intros k j' Hk. destruct k as [| k].
      - cbn in Hk. injection Hk as <-.
        destruct (allocated_balance j id id have amt u s Hlt) as (u1 & Hu1 & Haddr & Hbal).
        rewrite decide_True in Hbal by done.
        exists u, u1. split; [exact Hu |]. split.
        { rewrite Hout by exact Hj. exact Hu1. }
        split; [exact Haddr |]. split.
        { rewrite Hbal. by rewrite Nat.add_0_r. }
        intros id' Hid.
        destruct (allocated_balance j id id' have amt u s Hlt) as (u1' & Hu1' & _ & Hbal').
        rewrite Hu1 in Hu1'. injection Hu1' as <-.
        by rewrite decide_False in Hbal' by done.
      - cbn in Hk. destruct (Hin k j' Hk) as (u1 & u' & Hu1 & Hu' & Haddr & Hbal & Hoth).
        assert (Hne : j' ≠ j).
        { intros ->. apply Hj. by eapply list_elem_of_lookup_2. }
        unfold s1 in Hu1. rewrite allocated_other_output in Hu1 by exact Hne.
        exists u1, u'. repeat split; try done.
        rewrite Hbal. by replace (S i + k)%nat with (i + S k)%nat by lia. }
    intros j' Hj'. apply not_elem_of_cons in Hj' as [Hne Hj'].
    rewrite Hout by exact Hj'. by apply allocated_other_output.
Qed.

(** C5. A non-cenotaph edict with [amount = 0] and [output] equal to
    the number of outputs, for a known dune of which the bag holds
    [u >= 0], divides [u] across the [n > 0] non-OP_RETURN outputs: the
    output at position [i] among them receives [u / n], plus one when
    [i < u mod n]; the bag is left with nothing of that dune, and the
    OP_RETURN outputs receive nothing. *)
Theorem even_split (existingDunes : string → bool) (edict : IEdict.t)
    (s : EdictState) (u : Z) :
  let nonOp := nonOpReturnOutputs (pendingUtxos s) in
  let n := Z.of_nat (length nonOp) in
  let id := IEdict.id edict in
  existingDunes id = true →
  UnallocatedDunes s !! id = Some u →
  0 ≤ u →
  IEdict.amount edict = 0 →
  IEdict.output edict = Z.of_nat (length (pendingUtxos s)) →
  0 < n →
  ∃ s',
    processEdict existingDunes nonOp edict s = Ok s'
    ∧ unallocated_of s' id = 0
    ∧ (∀ i j, nonOp !! i = Some j →
         ∃ out out', pendingUtxos s !! j = Some out
                     ∧ pendingUtxos s' !! j = Some out'
                     ∧ balance_of out' id =
                         balance_of out id + u / n
                         + (if Z.of_nat i <? u mod n then 1 else 0))
    ∧ (∀ j, j ∉ nonOp → pendingUtxos s' !! j = pendingUtxos s !! j).
Proof.
  intros nonOp n id Hknown Hbag Hu Hamount Houtput Hn.
  assert (Hlen : Z.of_nat (length nonOp) = n) by reflexivity. clearbody n.
  unfold processEdict. fold id. rewrite Hknown, Hbag, Hamount, Houtput.
  cbn [negb falsy_amount]. rewrite !Z.eqb_refl, Hlen.
  destruct (u =? 0) eqn:Eu.
  { apply Z.eqb_eq in Eu. subst u. exists s. split; [reflexivity |].
    split; [unfold unallocated_of; by rewrite Hbag |]. split; [| done].
    intros i j Hij.
    assert (Hj : j ∈ nonOp) by (by eapply list_elem_of_lookup_2).
    apply elem_of_nonOpReturnOutputs in Hj as (out & Hout & _).
    exists out, out. repeat split; try done.
    rewrite Z.div_0_l, Z.mod_0_l by lia.
    replace (Z.of_nat i <? 0) with false by (symmetry; apply Z.ltb_ge; lia). lia. }
  apply Z.eqb_neq in Eu.
  replace (0 <? n) with true by (symmetry; apply Z.ltb_lt; lia).
  cbn [from_option]. unfold Datatypes.id.
  rewrite Z.quot_div_nonneg, Z.rem_mod_nonneg by lia.
  set (q := u / n). set (r := u mod n).
  assert (Hq : 0 ≤ q) by (apply Z.div_pos; lia).
  assert (Hr : 0 ≤ r < n) by (apply Z.mod_pos_bound; lia).
  assert (Hsplit : u = n * q + r) by (apply Z.div_mod; lia).
  destruct (split_loop id q r n Hq Hr nonOp 0%nat s) as (s' & Hrun & HU & _ & Hin & Hout).
  { apply NoDup_nonOpReturn_from. }
  { intros j Hj. apply elem_of_nonOpReturnOutputs in Hj as (out & Hout & _).
    by exists out. }
  { lia. }
  { rewrite Hbag. f_equal. lia. }
  exists s'. unfold forEach. split.
  { rewrite <- Hrun. f_equal. }
  split.
  { unfold unallocated_of. rewrite HU. by rewrite lookup_insert_eq. }
  split; [| exact Hout].
  intros i j Hij. destruct (Hin i j Hij) as (out & out' & H1 & H2 & _ & Hbal & _).
  exists out, out'. split; [exact H1 |]. split; [exact H2 |].
  rewrite Hbal. cbn [Nat.add]. destruct (Z.of_nat i <? r); lia.
Qed.

Lemma even_split_witness :
  let out a i :=
    {| IndexerUtxo.address_id := a; IndexerUtxo.vout_index := i;
       IndexerUtxo.value_sats := 546; IndexerUtxo.dune_balances := Some ∅ |} in
  let s :=
    {| UnallocatedDunes := {[ "840100:7" := 11 ]};
       pendingUtxos := [out 2 0; out 5 1; out 6 2];
       transfers := ∅ |} in
  let edict :=
    {| IEdict.id := "840100:7"; IEdict.amount := 0; IEdict.output := 3 |} in
  ∃ s' out1 out2,
    processEdict (λ _, true) (nonOpReturnOutputs (pendingUtxos s)) edict s = Ok s'
    ∧ pendingUtxos s' !! 1%nat = Some out1 ∧ balance_of out1 "840100:7" = 6
    ∧ pendingUtxos s' !! 2%nat = Some out2 ∧ balance_of out2 "840100:7" = 5.
Proof.
  intros out s edict.
  destruct (even_split (λ _, true) edict s 11) as (s' & Hrun & _ & Hin & _).
  - reflexivity.
  - vm_compute. reflexivity.
  - lia.
  - reflexivity.
  - reflexivity.
  - vm_compute. reflexivity.
  - destruct (Hin 0%nat 1%nat eq_refl) as (o1 & o1' & Ho1 & Ho1' & Hb1).
    destruct (Hin 1%nat 2%nat eq_refl) as (o2 & o2' & Ho2 & Ho2' & Hb2).
    injection Ho1 as <-. injection Ho2 as <-.
    exists s', o1', o2'.
    split; [exact Hrun |]. split; [exact Ho1' |]. split; [exact Hb1 |].
    split; [exact Ho2' | exact Hb2].
Defined.

(** ** The choice of the pointer output *)

(** What the source does: a pointer that is set, non-zero and in range
    names the output; in every other case (no pointer, pointer 0, pointer
    out of range) the first non-OP_RETURN output is taken, and failing
    that the first OP_RETURN output. *)
Lemma pointerOutput_spec (pointer : option Z) (pending : list IndexerUtxo.t) :
  pointerOutput pointer pending =
    match pointer with
    | Some p =>
        if decide (p ≠ 0 ∧ 0 ≤ p < Z.of_nat (length pending)) then Some (Z.to_nat p)
        else match head (nonOpReturnOutputs pending) with
             | Some j => Some j
             | None =>
                 fst <$> list_find (λ utxo, IndexerUtxo.address_id utxo = 2) pending
             end
    | None =>
        match head (nonOpReturnOutputs pending) with
        | Some j => Some j
        | None =>
            fst <$> list_find (λ utxo, IndexerUtxo.address_id utxo = 2) pending
        end
    end.
Proof.
  unfold pointerOutput, index_in. destruct pointer as [p |]; [| reflexivity].
  destruct (p =? 0) eqn:E0; [apply Z.eqb_eq in E0 | apply Z.eqb_neq in E0].
  - rewrite decide_False by lia. reflexivity.
  - destruct ((0 <=? p) && (p <? Z.of_nat (length pending))) eqn:E.
    + apply andb_true_iff in E as [H1 H2].
      apply Z.leb_le in H1. apply Z.ltb_lt in H2.
      rewrite decide_True by lia. reflexivity.
    + apply andb_false_iff in E.
      rewrite decide_False; [reflexivity |].
      intros (_ & H1 & H2). destruct E as [E | E];
        [apply Z.leb_gt in E | apply Z.ltb_ge in E]; lia.
Qed.

(** C8 (what the code does at the failing input). The transaction has
    an OP_RETURN at output 0 and an address at output 1, [pointer = 0]
    and 7 units unallocated: the pointer is set and names an existing
    output, yet the sweep does not use output 0; the 7 units land on
    output 1, the first non-OP_RETURN output. *)
Theorem pointer_zero_is_treated_as_unset :
  let Transaction := transaction 840102 3 (edicts_only [] (Some 0)) [] in
  let s :=
    {| UnallocatedDunes := {[ "840100:7" := 7 ]};
       pendingUtxos := [output 2 0; output 5 1];
       transfers := ∅ |} in
  pointerOutput (Some 0) (pendingUtxos s) = Some 1%nat
  ∧ ∃ s' out0 out1,
      processEdicts Transaction (storage_with_hello (Some 100)) s = Ok s'
      ∧ pendingUtxos s' !! 0%nat = Some out0 ∧ balance_of out0 "840100:7" = 0
      ∧ pendingUtxos s' !! 1%nat = Some out1 ∧ balance_of out1 "840100:7" = 7
      ∧ transferred (transfers s') burn "840100:7" = 0.
Proof.
  intros Transaction s. split; [reflexivity |].
  destruct (processEdicts Transaction (storage_with_hello (Some 100)) s)
    as [s' | msg] eqn:E; vm_compute in E; [| discriminate E].
  injection E as <-.
  do 3 eexists. split; [reflexivity |].
  split; [reflexivity |]. split; [reflexivity |].
  split; [reflexivity |]. split; reflexivity.
Qed.

(** ** The decoder *)

(** What the source does: a schema-valid payload is a cenotaph exactly
    when some edict names an output at or beyond the number of outputs,
    or has an id whose block is 0 and whose index is not. *)
Lemma decipher_cenotaph_iff (vout : list Vout.t) (dune : IDunestoneIndexed.t) :
  IDunestoneIndexed.cenotaph (decipher vout (parsed dune)) = true ↔
  ∃ edicts e, IDunestoneIndexed.edicts dune = Some edicts ∧ e ∈ edicts
              ∧ (Z.of_nat (length vout) ≤ IEdict.output e ∨ badZeroDune e = true).
Proof.
  cbn [decipher]. destruct (IDunestoneIndexed.edicts dune) as [edicts |].
  - destruct (existsb _ edicts || existsb badZeroDune edicts) eqn:E;
      cbn [only_cenotaph IDunestoneIndexed.cenotaph].
    + split; [intros _ | done]. exists edicts.
      apply orb_true_iff in E as [E | E];
        apply existsb_exists in E as (e & Hin & He); exists e;
        (split; [done |]); (split; [by apply list_elem_of_In |]).
      * left. unfold badOutput in He. apply Z.ltb_lt in He. lia.
      * by right.
    + split; [done |]. intros (edicts' & e & [= <-] & Hin & He). exfalso.
      apply orb_false_iff in E as [E1 E2].
      apply list_elem_of_In in Hin. destruct He as [He | He].
      * assert (existsb (badOutput (Z.of_nat (length vout))) edicts = true); [| congruence].
        apply existsb_exists. exists e. split; [done |].
        unfold badOutput. apply Z.ltb_lt. lia.
      * assert (existsb badZeroDune edicts = true); [| congruence].
        apply existsb_exists. by exists e.
  - cbn [IDunestoneIndexed.cenotaph]. split; [done |].
    by intros (edicts & e & [=] & _).
Qed.

(** C3 (what the code does at the failing input). A transaction with
    three outputs carries the schema-valid edict [{id: "840100:7",
    amount: "0", output: 3}], whose output equals the number of outputs
    and whose id is not of the [0:t] form: [decipher] returns a
    cenotaph and drops the edict. *)
Theorem output_equal_to_vout_count_is_cenotaph :
  let vout := [vout_to 0 None 0; vout_to 1 (Some "bc1qa") 546;
               vout_to 2 (Some "bc1qb") 546] in
  let edict := {| IEdict.id := "840100:7"; IEdict.amount := 0; IEdict.output := 3 |} in
  IEdict.output edict = Z.of_nat (length vout)
  ∧ badZeroDune edict = false
  ∧ decipher vout (parsed (edicts_only [edict] None)) = only_cenotaph true.
Proof. intros vout edict. repeat split. Qed.

(** ** Mint inside a cenotaph *)



(** ** Etching *)

Lemma findOrCreate_Address_frame (storage : Storage) (address : string) :
  Dune (findOrCreate_Address storage address).2 = Dune storage
  ∧ Event (findOrCreate_Address storage address).2 = Event storage
  ∧ next_dune_id (findOrCreate_Address storage address).2 = next_dune_id storage.
Proof. unfold findOrCreate_Address. by destruct (Address storage !! address). Qed.

(** The two gates on the terms, read as propositions. *)
Lemma terms_gates (terms : option ITerms.t) :
  let amount_is_0n := from_option (λ t, ITerms.amount t =? 0) false terms in
  let isFlex := amount_is_0n && bool_decide (is_Some (terms ≫= ITerms.price)) in
  let hasMintcap := from_option (λ cap, negb (cap =? 0)) false (terms ≫= ITerms.cap) in
  (negb isFlex && amount_is_0n) || (isFlex && hasMintcap) = true
  ↔ invalid_terms terms.
Proof.
  unfold invalid_terms. destruct terms as [t |]; cbn.
  - destruct (ITerms.amount t =? 0) eqn:Ea;
      [apply Z.eqb_eq in Ea | apply Z.eqb_neq in Ea]; cbn.
    + destruct (ITerms.price t) as [p |] eqn:Ep; cbn.
      * destruct (ITerms.cap t) as [c |] eqn:Ec; cbn.
        -- destruct (c =? 0) eqn:E0;
             [apply Z.eqb_eq in E0 | apply Z.eqb_neq in E0]; cbn.
           ++ split; [done |]. intros (t' & [= <-] & _ & [Hp | (c' & Hc & Hne)]);
                congruence.
           ++ split; [intros _ | done]. exists t. repeat split; try done.
              right. by exists c.
        -- split; [done |]. intros (t' & [= <-] & _ & [Hp | (c' & Hc & Hne)]);
             congruence.
      * split; [intros _ | done]. exists t. repeat split; try done. by left.
    + split; [done |]. by intros (t' & [= <-] & Hz & _).
  - split; [done |]. by intros (t' & [=] & _).
Qed.

(** C7, as amended. [minimumLengthAtHeight] computes
    [13 − floor((block − GENESIS)/17_500)], but [processEtching] never
    asks it: an etching is rejected (the bag and the cache are returned
    as they were) exactly when [block:txIndex] is already a Dune, or the
    name is already a Dune's, or the terms are invalid; in every other
    case, whatever the length of the name, the Dune row is created under
    that name with [mints = 0]. *)
Theorem processEtching_rejects_iff (U : gmap string Z)
    (Transaction : IndexedTxExtended.t) (storage : Storage) (isGenesis : bool)
    (etching : IEtching.t) :
  IDunestoneIndexed.etching (IndexedTxExtended.dunestone Transaction) = Some etching →
  let rejected :=
    is_Some (findOne_Dune storage
               (dune_id_of (IndexedTxExtended.block Transaction)
                  (IndexedTxExtended.txIndex Transaction)))
    ∨ is_Some (findOne_Dune_by_name storage (IEtching.dune etching))
    ∨ invalid_terms (IEtching.terms etching) in
  (∀ block, minimumLengthAtHeight block =
              13 - (block - 840000) / 17500)
  ∧ (processEtching U Transaction storage isGenesis = (U, storage) ↔ rejected)
  ∧ (¬ rejected →
     ∃ row,
       Dune (processEtching U Transaction storage isGenesis).2
         !! etched_key Transaction isGenesis = Some row
       ∧ IDune.name row = IEtching.dune etching
       ∧ IDune.mints row = 0).
Proof.
  intros Hetching rejected. split; [reflexivity |].
  assert (Hdef : rejected ↔
            is_Some (findOne_Dune storage
                       (dune_id_of (IndexedTxExtended.block Transaction)
                          (IndexedTxExtended.txIndex Transaction)))
            ∨ is_Some (findOne_Dune_by_name storage (IEtching.dune etching))
            ∨ invalid_terms (IEtching.terms etching)) by reflexivity.
  clearbody rejected.
  unfold processEtching. rewrite Hetching.
  destruct (findOne_Dune storage _) as [d |] eqn:Hid.
  { assert rejected by (apply Hdef; left; by eexists). by repeat split. }
  destruct (findOne_Dune_by_name storage _) as [d |] eqn:Hname.
  { assert rejected by (apply Hdef; right; left; by eexists). by repeat split. }
  pose proof (terms_gates (IEtching.terms etching)) as Hgates. cbv zeta in Hgates.
  set (amount_is_0n := from_option (λ t, ITerms.amount t =? 0) false
                         (IEtching.terms etching)) in *.
  set (isFlex := amount_is_0n
                 && bool_decide (is_Some (IEtching.terms etching ≫= ITerms.price))) in *.
  set (hasMintcap := from_option (λ cap, negb (cap =? 0)) false
                       (IEtching.terms etching ≫= ITerms.cap)) in *.
  assert (Hrej : rejected ↔ invalid_terms (IEtching.terms etching)).
  { rewrite Hdef. split; [| by intros; right; right].
    intros [[? [=]] | [[? [=]] | H]]. exact H. }
  destruct (negb isFlex && amount_is_0n) eqn:G1.
  { assert (invalid_terms (IEtching.terms etching)) by (by apply Hgates).
    split; [split; [by intros _; apply Hrej | done] |].
    intros Hnot. exfalso. by apply Hnot, Hrej. }
  destruct (isFlex && hasMintcap) eqn:G2.
  { assert (invalid_terms (IEtching.terms etching)) by (by apply Hgates).
    split; [split; [by intros _; apply Hrej | done] |].
    intros Hnot. exfalso. by apply Hnot, Hrej. }
  assert (Hvalid : ¬ rejected).
  { rewrite Hrej, <- Hgates. cbn. congruence. }
  destruct (findOrCreate_Address storage _) as [etcherId storage1] eqn:Haddr.
  pose proof (findOrCreate_Address_frame storage
                (default "UNKNOWN" (IndexedTxExtended.sender Transaction)))
    as (Hdune & Hevent & _).
  rewrite Haddr in Hdune, Hevent. cbn [snd] in Hdune, Hevent.
  cbn [create_Dune].
  split.
  - split; [| done]. intros Heq. exfalso.
    assert (Hlen : length (Event (processEtching U Transaction storage isGenesis).2)
                   = S (length (Event storage))).
    { unfold processEtching. rewrite Hetching, Hid, Hname.
      fold amount_is_0n. fold isFlex. fold hasMintcap. rewrite G1, G2, Haddr.
      cbn [create_Dune].
      destruct (IDunestoneIndexed.cenotaph _);
        cbn [snd create_Event Event]; rewrite length_app, Hevent; cbn; lia. }
    unfold processEtching in Hlen. rewrite Hetching, Hid, Hname in Hlen.
    fold amount_is_0n in Hlen. fold isFlex in Hlen. fold hasMintcap in Hlen.
    rewrite G1, G2, Haddr in Hlen. cbn [create_Dune] in Hlen.
    rewrite Heq in Hlen. cbn [snd] in Hlen. lia.
  - intros _. unfold etched_key.
    destruct (IDunestoneIndexed.cenotaph _), isGenesis;
      cbn [snd create_Event Dune IDune.dune_protocol_id negb];
      (eexists; split; [apply lookup_insert_eq | split; reflexivity]).
Qed.

Lemma processEtching_rejects_iff_witness :
  let Transaction := transaction 840100 7 (etch_only (hello_etching (Some 100))) [] in
  (processEtching ∅ Transaction fresh_storage false ≠ (∅, fresh_storage))
  ∧ ∃ row,
      Dune (processEtching ∅ Transaction fresh_storage false).2 !! "840100:7"
        = Some row
      ∧ IDune.name row = "HELLO".
Proof.
  intros Transaction.
  destruct (processEtching_rejects_iff ∅ Transaction fresh_storage false
              (hello_etching (Some 100)) eq_refl) as (_ & Hiff & Hrow).
  assert (Hvalid : ¬ (is_Some (findOne_Dune fresh_storage (dune_id_of 840100 7))
                      ∨ is_Some (findOne_Dune_by_name fresh_storage "HELLO")
                      ∨ invalid_terms (IEtching.terms (hello_etching (Some 100))))).
  { intros [[? H] | [[? H] | (t & [= <-] & H & _)]]; discriminate H. }
  split.
  - intros Heq. by apply Hvalid, Hiff.
  - destruct (Hrow Hvalid) as (row & Hlookup & Hname & _). by exists row.
Defined.

(** C7, counterexample. At block 840100 the schedule asks for 13
    characters and [HELLO] has 5; the etching is nevertheless accepted:
    the Dune row is created and the premine enters the bag. *)
Lemma short_name_is_etched :
  let Transaction := transaction 840100 7 (etch_only (hello_etching (Some 100))) [] in
  minimumLengthAtHeight 840100 > Z.of_nat (String.length "HELLO")
  ∧ (∃ row,
       Dune (processEtching ∅ Transaction fresh_storage false).2 !! "840100:7"
         = Some row
       ∧ IDune.name row = "HELLO")
  ∧ (processEtching ∅ Transaction fresh_storage false).1 !! "840100:7" = Some 1000.
Proof.
  intros Transaction. split; [reflexivity |]. split.
  - vm_compute. eexists. split; reflexivity.
  - vm_compute. reflexivity.
Qed.

(** ** The mint cap *)











(** ** Flex mints *)





(** ** The bag of the inputs *)

Lemma total_balance_cons (u : IndexerUtxo.t) (outputs : list IndexerUtxo.t)
    (duneId : string) :
  total_balance (u :: outputs) duneId = balance_of u duneId + total_balance outputs duneId.
Proof. reflexivity. Qed.

Lemma sum_entries_lookup (l : list (string * Z)) :
  ∀ (acc : gmap string Z) (k : string),
  NoDup l.*1 →
  foldl (λ acc entry, <[entry.1 := default 0 (acc !! entry.1) + entry.2]> acc) acc l !! k
  = match list_find (λ entry, entry.1 = k) l with
    | Some (_, entry) => Some (default 0 (acc !! k) + entry.2)
    | None => acc !! k
    end.
Proof.
  induction l as [| [k' v] l IH]; intros acc k Hnodup; [reflexivity |].
  rewrite fmap_cons in Hnodup. apply NoDup_cons in Hnodup as [Hk' Hnodup].
  cbn [foldl fst snd]. rewrite IH by exact Hnodup.
  cbn [list_find fst]. destruct (decide (k' = k)) as [-> | Hne].
  - destruct (list_find _ l) as [[i entry] |] eqn:Hfind.
    + exfalso. apply list_find_Some in Hfind as (Hin & Hentry & _).
      apply Hk'. apply list_elem_of_fmap. exists entry.
      split; [done |]. by eapply list_elem_of_lookup_2.
    + cbn. by rewrite lookup_insert_eq.
  - destruct (list_find _ l) as [[i entry] |]; cbn;
      by rewrite lookup_insert_ne by done.
Qed.

Lemma sum_balances_lookup (b : gmap string Z) (acc : gmap string Z) (k : string) :
  foldl (λ acc entry, <[entry.1 := default 0 (acc !! entry.1) + entry.2]> acc) acc
    (map_to_list b) !! k
  = match b !! k with
    | Some v => Some (default 0 (acc !! k) + v)
    | None => acc !! k
    end.
Proof.
  rewrite sum_entries_lookup by apply NoDup_fst_map_to_list.
  destruct (list_find _ (map_to_list b)) as [[i [k' v]] |] eqn:Hfind.
  - apply list_find_Some in Hfind as (Hin & Hk & _). cbn in Hk. subst k'.
    apply list_elem_of_lookup_2, elem_of_map_to_list in Hin. by rewrite Hin.
  - destruct (b !! k) as [v |] eqn:Hb; [| reflexivity]. exfalso.
    apply elem_of_map_to_list in Hb.
    eapply list_find_None in Hfind. rewrite Forall_forall in Hfind.
    by apply (Hfind (k, v)).
Qed.

Lemma getUnallocated_fold (inputUtxos : list IndexerUtxo.t) :
  ∀ (acc : gmap string Z) (id : string),
  let bag :=
    foldl
      (λ acc utxo,
         let duneBalances :=
           match IndexerUtxo.dune_balances utxo with
           | Some balances => map_to_list balances
           | None => []
           end in
         foldl (λ acc entry, <[entry.1 := default 0 (acc !! entry.1) + entry.2]> acc)
           acc duneBalances)
      acc inputUtxos in
  default 0 (bag !! id) = default 0 (acc !! id) + total_balance inputUtxos id
  ∧ (is_Some (bag !! id) ↔
     is_Some (acc !! id)
     ∨ ∃ u b, u ∈ inputUtxos ∧ IndexerUtxo.dune_balances u = Some b
              ∧ is_Some (b !! id)).
Proof.
  induction inputUtxos as [| u inputUtxos IH]; intros acc id; cbn zeta.
  - cbn [foldl]. split; [unfold total_balance; cbn; lia |].
    split; [by left |]. intros [H | (u & b & Hin & _)]; [done |].
    by apply elem_of_nil in Hin.
  - cbn [foldl]. cbv zeta in IH.
    destruct (IH (foldl (λ acc entry, <[entry.1 := default 0 (acc !! entry.1) + entry.2]> acc)
                    acc
                    match IndexerUtxo.dune_balances u with
                    | Some balances => map_to_list balances
                    | None => []
                    end) id) as [Hsum Hkeys].
    rewrite Hsum, Hkeys, total_balance_cons. unfold balance_of at 1.
    destruct (IndexerUtxo.dune_balances u) as [b |] eqn:Hb.
    + rewrite sum_balances_lookup. cbn [default from_option]. unfold Datatypes.id.
      destruct (b !! id) as [v |] eqn:Hv.
      * split; [cbn; lia |]. split.
        -- intros _. right. exists u, b. split; [by left |]. by rewrite Hv.
        -- intros _. left. by eexists.
      * split; [cbn; lia |]. split.
        -- intros [H | (u' & b' & Hin & Hb' & Hid)]; [by left |].
           right. exists u', b'. split; [by right | done].
        -- intros [H | (u' & b' & Hin & Hb' & Hid)]; [by left |].
           apply elem_of_cons in Hin as [-> | Hin].
           ++ rewrite Hb in Hb'. injection Hb' as <-. rewrite Hv in Hid.
              by destruct Hid.
           ++ right. by exists u', b'.
    + cbn [foldl]. split; [cbn; rewrite lookup_empty; cbn; lia |]. split.
      * intros [H | (u' & b' & Hin & Hb' & Hid)]; [by left |].
        right. exists u', b'. split; [by right | done].
      * intros [H | (u' & b' & Hin & Hb' & Hid)]; [by left |].
        apply elem_of_cons in Hin as [-> | Hin]; [congruence |].
        right. by exists u', b'.
Qed.

(** X1. The bag [getUnallocatedDunesFromUtxos] builds holds, for every
    dune id, the sum of the inputs' balances of that dune, and it has a
    key exactly for the ids that are a key of the [dune_balances] of
    some input. *)
Theorem getUnallocatedDunesFromUtxos_sum (inputUtxos : list IndexerUtxo.t)
    (id : string) :
  default 0 (getUnallocatedDunesFromUtxos inputUtxos !! id)
  = total_balance inputUtxos id
  ∧ (is_Some (getUnallocatedDunesFromUtxos inputUtxos !! id) ↔
     ∃ u b, u ∈ inputUtxos ∧ IndexerUtxo.dune_balances u = Some b
            ∧ is_Some (b !! id)).
Proof.
  destruct (getUnallocated_fold inputUtxos ∅ id) as [Hsum Hkeys].
  cbv zeta in Hsum, Hkeys. fold (getUnallocatedDunesFromUtxos inputUtxos) in Hsum, Hkeys.
  rewrite lookup_empty in Hsum. cbn in Hsum. split; [lia |].
  rewrite Hkeys. split; [| by right].
  intros [[? H] | H]; [by rewrite lookup_empty in H | exact H].
Qed.

(* <<< g2 >>> *)

(** ** The edict loop conserves the units *)

Lemma received_cons (u : IndexerUtxo.t) (outputs : list IndexerUtxo.t)
    (to : toAddress) (duneId : string) :
  received (u :: outputs) to duneId
  = (if decide (destination u = to) then balance_of u duneId else 0)
    + received outputs to duneId.
Proof. reflexivity. Qed.

Lemma total_balance_insert (outputs : list IndexerUtxo.t) (i : nat)
    (u u' : IndexerUtxo.t) (duneId : string) :
  outputs !! i = Some u →
  total_balance (<[i := u']> outputs) duneId
  = total_balance outputs duneId - balance_of u duneId + balance_of u' duneId.
Proof.
  revert i. induction outputs as [| x outputs IH]; intros i Hi; [done |].
  destruct i as [| i].
  - injection Hi as ->. change (<[0%nat := u']> (u :: outputs)) with (u' :: outputs).
    rewrite !total_balance_cons. lia.
  - change (<[S i := u']> (x :: outputs)) with (x :: <[i := u']> outputs).
    rewrite !total_balance_cons, (IH i Hi). lia.
Qed.

Lemma received_insert (outputs : list IndexerUtxo.t) (i : nat)
    (u u' : IndexerUtxo.t) (to : toAddress) (duneId : string) :
  outputs !! i = Some u →
  destination u' = destination u →
  received (<[i := u']> outputs) to duneId
  = received outputs to duneId
    + if decide (destination u = to)
      then balance_of u' duneId - balance_of u duneId else 0.
Proof.
  intros Hi Hdest. revert i Hi.
  induction outputs as [| x outputs IH]; intros i Hi; [done |].
  destruct i as [| i].
  - injection Hi as ->. change (<[0%nat := u']> (u :: outputs)) with (u' :: outputs).
    rewrite !received_cons, Hdest.
    destruct (decide (destination u = to)); lia.
  - change (<[S i := u']> (x :: outputs)) with (x :: <[i := u']> outputs).
    rewrite !received_cons, (IH i Hi). lia.
Qed.

(** What a call of [allocate] that returns has done, whether or not the
    bag knew the dune. *)
Lemma allocate_inv (utxo : nat) (duneId : string) (amt : Z) (s s' : EdictState) :
  allocate utxo duneId amt s = Ok s' →
  ∃ u g,
    pendingUtxos s !! utxo = Some u
    ∧ s' = allocated utxo duneId (unallocated_of s duneId) g u s
    ∧ (is_Some (UnallocatedDunes s !! duneId) → g = give (unallocated_of s duneId) amt)
    ∧ (UnallocatedDunes s !! duneId = None → g = amt ∧ amt ≠ 0).
Proof.
  intros Hrun.
  destruct (pendingUtxos s !! utxo) as [u |] eqn:Hu; cycle 1.
  { unfold allocate in Hrun. rewrite Hu in Hrun.
    destruct (UnallocatedDunes s !! duneId); cbn [mbind result_bind] in Hrun;
      [discriminate |].
    destruct (amt =? 0); cbn [mbind result_bind] in Hrun; discriminate. }
  destruct (UnallocatedDunes s !! duneId) as [have |] eqn:Hbag.
  - rewrite (allocate_Ok utxo duneId amt have u s Hbag Hu) in Hrun.
    injection Hrun as <-.
    exists u, (give have amt). unfold unallocated_of. rewrite Hbag.
    cbn [default from_option id]. repeat split; try done.
  - unfold allocate in Hrun. rewrite Hbag, Hu in Hrun.
    destruct (amt =? 0) eqn:E0; cbn [mbind result_bind] in Hrun; [discriminate |].
    rewrite E0 in Hrun. injection Hrun as <-. apply Z.eqb_neq in E0.
    exists u, amt. unfold unallocated_of. rewrite Hbag.
    split; [done |]. split; [| split; [by intros [? [=]] | done]].
    unfold allocated, balance_of, transferred, destination.
    cbn [default from_option id].
    replace (amt =? 0) with false by (symmetry; by apply Z.eqb_neq).
    reflexivity.
Qed.

Section Preserved.

(** A measure of the state that no call of [allocate] changes is not
    changed by [processEdicts] on a transaction without cenotaph. *)
Context {B : Type} (m : EdictState → B).

Hypothesis allocate_preserves :
  ∀ utxo duneId amt s s', allocate utxo duneId amt s = Ok s' → m s' = m s.

Lemma forEach_from_preserves {A} (f : A → nat → EdictState → result EdictState)
    (arr : list A) :
  (∀ x i s s', f x i s = Ok s' → m s' = m s) →
  ∀ i s s', forEach_from f arr i s = Ok s' → m s' = m s.
Proof.
  intros Hf. induction arr as [| x arr IH]; intros i s s' Hrun; cbn [forEach_from] in Hrun.
  - by injection Hrun as <-.
  - destruct (f x i s) as [s1 | msg] eqn:H1; cbn [mbind result_bind] in Hrun;
      [| discriminate].
    rewrite (IH _ _ _ Hrun). by eapply Hf.
Qed.

Lemma processEdict_preserves (existingDunes : string → bool) (nonOp : list nat)
    (edict : IEdict.t) (s s' : EdictState) :
  processEdict existingDunes nonOp edict s = Ok s' → m s' = m s.
Proof.
  unfold processEdict.
  destruct (negb _); [by intros [= <-] |].
  destruct (falsy_amount _); [by intros [= <-] |].
  destruct (IEdict.output edict =? _).
  - destruct (IEdict.amount edict =? 0).
    + destruct (0 <? _); [| by intros [= <-]].
      apply forEach_from_preserves. intros x i s0 s0'. apply allocate_preserves.
    + apply forEach_from_preserves. intros x i s0 s0'. apply allocate_preserves.
  - destruct (index_in _ _); [apply allocate_preserves | discriminate].
Qed.

Lemma run_edicts_preserves (Transaction : IndexedTxExtended.t) (storage : Storage)
    (s s' : EdictState) :
  run_edicts Transaction storage s = Ok s' → m s' = m s.
Proof.
  unfold run_edicts.
  destruct (IDunestoneIndexed.edicts _); [| by intros [= <-]].
  apply forEach_from_preserves. intros x i s0 s0'. apply processEdict_preserves.
Qed.

Lemma sweep_preserves (p : nat) (s s' : EdictState) :
  sweep p s = Ok s' → m s' = m s.
Proof.
  unfold sweep. apply forEach_from_preserves. intros x i s0 s0'.
  apply allocate_preserves.
Qed.

Lemma processEdicts_preserves (Transaction : IndexedTxExtended.t)
    (storage : Storage) (s s' : EdictState) :
  IDunestoneIndexed.cenotaph (IndexedTxExtended.dunestone Transaction) = false →
  processEdicts Transaction storage s = Ok s' → m s' = m s.
Proof.
  intros Hcen. unfold processEdicts. rewrite Hcen.
  destruct (run_edicts Transaction storage s) as [s1 | msg] eqn:Hrun;
    cbn [mbind result_bind]; [| discriminate].
  destruct (pointerOutput _ _) as [p |]; [| discriminate].
  intros Hsweep. rewrite (sweep_preserves _ _ _ Hsweep).
  by apply run_edicts_preserves in Hrun.
Qed.

End Preserved.

Lemma allocate_conserves (id : string) (utxo : nat) (duneId : string) (amt : Z)
    (s s' : EdictState) :
  allocate utxo duneId amt s = Ok s' →
  unallocated_of s' id + total_balance (pendingUtxos s') id
  = unallocated_of s id + total_balance (pendingUtxos s) id.
Proof.
  intros Hrun. apply allocate_inv in Hrun as (u & g & Hu & -> & _ & _).
  assert (Hlt : (utxo < length (pendingUtxos s))%nat) by (by eapply lookup_lt_Some).
  destruct (allocated_balance utxo duneId id (unallocated_of s duneId) g u s Hlt)
    as (u' & Hu' & _ & Hbal).
  cbn [allocated pendingUtxos] in Hu' |- *.
  rewrite list_lookup_insert_eq in Hu' by exact Hlt. injection Hu' as Hu'.
  rewrite (total_balance_insert _ _ u _ _ Hu), Hu', Hbal.
  unfold unallocated_of at 1. cbn [allocated UnallocatedDunes].
  destruct (decide (id = duneId)) as [-> | Hne].
  - rewrite lookup_insert_eq. cbn [default from_option]. unfold Datatypes.id. lia.
  - rewrite lookup_insert_ne by done. fold (unallocated_of s id). lia.
Qed.

Lemma allocate_ledger (to : toAddress) (id : string) (utxo : nat) (duneId : string)
    (amt : Z) (s s' : EdictState) :
  allocate utxo duneId amt s = Ok s' →
  transferred (transfers s') to id - received (pendingUtxos s') to id
  = transferred (transfers s) to id - received (pendingUtxos s) to id.
Proof.
  intros Hrun. apply allocate_inv in Hrun as (u & g & Hu & -> & _ & _).
  assert (Hlt : (utxo < length (pendingUtxos s))%nat) by (by eapply lookup_lt_Some).
  rewrite allocated_transferred.
  destruct (allocated_balance utxo duneId id (unallocated_of s duneId) g u s Hlt)
    as (u' & Hu' & Haddr & Hbal).
  cbn [allocated pendingUtxos] in Hu' |- *.
  rewrite list_lookup_insert_eq in Hu' by exact Hlt. injection Hu' as Hu'.
  rewrite Hu'.
  rewrite (received_insert _ _ u u' to id Hu)
    by (unfold destination; by rewrite Haddr).
  rewrite Hbal.
  destruct (decide (destination u = to)) as [<- | Hto].
  - destruct (decide (id = duneId)) as [-> | Hne].
    + rewrite decide_True by done. lia.
    + rewrite decide_False by (intros [_ ?]; done). lia.
  - rewrite decide_False by (intros [? _]; done). lia.
Qed.

(** X2. [processEdicts] neither creates nor destroys units: when it
    returns, for every dune id the bag and the balances of the outputs
    add up to what they added up to before. Without a cenotaph the whole
    bag has moved onto the outputs; with a cenotaph no output is touched
    and what the bag holds is recorded as transferred to [burn]. *)
Theorem processEdicts_conserves (Transaction : IndexedTxExtended.t)
    (storage : Storage) (s s' : EdictState) (id : string) :
  processEdicts Transaction storage s = Ok s' →
  unallocated_of s' id + total_balance (pendingUtxos s') id
  = unallocated_of s id + total_balance (pendingUtxos s) id
  ∧ (IDunestoneIndexed.cenotaph (IndexedTxExtended.dunestone Transaction) = false →
     total_balance (pendingUtxos s') id
     = total_balance (pendingUtxos s) id + unallocated_of s id)
  ∧ (IDunestoneIndexed.cenotaph (IndexedTxExtended.dunestone Transaction) = true →
     pendingUtxos s' = pendingUtxos s
     ∧ transfers s' !! burn = Some (UnallocatedDunes s)).
Proof.
  intros Hrun.
  destruct (IDunestoneIndexed.cenotaph (IndexedTxExtended.dunestone Transaction))
    eqn:Hcen.
  - unfold processEdicts in Hrun. rewrite Hcen in Hrun. injection Hrun as <-.
    cbn [pendingUtxos transfers]. split; [reflexivity |].
    split; [done |]. intros _. split; [reflexivity | apply lookup_insert_eq].
  - assert (Hm : unallocated_of s' id + total_balance (pendingUtxos s') id
                 = unallocated_of s id + total_balance (pendingUtxos s) id).
    { apply (processEdicts_preserves
               (λ s, unallocated_of s id + total_balance (pendingUtxos s) id)
               (allocate_conserves id) Transaction storage s s' Hcen Hrun). }
    split; [exact Hm |]. split; [| done]. intros _.
    pose proof (processEdicts_outcome Transaction storage s Hcen) as Hout.
    rewrite Hrun in Hout. destruct Hout as [Hzero _].
    rewrite Hzero in Hm. lia.
Qed.

Lemma processEdicts_conserves_witness :
  ∃ s', processEdicts four_to_output_0 (storage_with_hello (Some 100))
          seven_unallocated = Ok s'
        ∧ total_balance (pendingUtxos s') "840100:7" = 0 + 7.
Proof.
  destruct (processEdicts four_to_output_0 (storage_with_hello (Some 100))
              seven_unallocated) as [s' | msg] eqn:E;
    [| exfalso; vm_compute in E; discriminate E].
  exists s'. split; [reflexivity |].
  destruct (processEdicts_conserves four_to_output_0 (storage_with_hello (Some 100))
              seven_unallocated s' "840100:7" E) as (_ & Hout & _).
  apply Hout. reflexivity.
Defined.

(** X3. Without a cenotaph, the [transfers] that [processEdicts] records
    agree with the balances it writes: for every recipient (an address
    id, or [burn] for the OP_RETURN outputs) and every dune id, what is
    added to [transfers[to][id]] is what is added to the balances of the
    outputs that go to that recipient. *)
Theorem transfers_match_outputs (Transaction : IndexedTxExtended.t)
    (storage : Storage) (s s' : EdictState) (to : toAddress) (id : string) :
  IDunestoneIndexed.cenotaph (IndexedTxExtended.dunestone Transaction) = false →
  processEdicts Transaction storage s = Ok s' →
  transferred (transfers s') to id - transferred (transfers s) to id
  = received (pendingUtxos s') to id - received (pendingUtxos s) to id.
Proof.
  intros Hcen Hrun.
  pose proof (processEdicts_preserves
                (λ s, transferred (transfers s) to id - received (pendingUtxos s) to id)
                (allocate_ledger to id) Transaction storage s s' Hcen Hrun) as H.
  cbn beta in H. lia.
Qed.

Lemma transfers_match_outputs_witness :
  ∃ s', processEdicts four_to_output_0 (storage_with_hello (Some 100))
          seven_unallocated = Ok s'
        ∧ transferred (transfers s') burn "840100:7" - 0
          = received (pendingUtxos s') burn "840100:7" - 0.
Proof.
  destruct (processEdicts four_to_output_0 (storage_with_hello (Some 100))
              seven_unallocated) as [s' | msg] eqn:E;
    [| exfalso; vm_compute in E; discriminate E].
  exists s'. split; [reflexivity |].
  apply (transfers_match_outputs four_to_output_0 (storage_with_hello (Some 100))
           seven_unallocated s' burn "840100:7" eq_refl E).
Defined.

(** ** The edict loop never overdraws *)

Lemma give_bounds (have amt : Z) : 0 ≤ have → 0 ≤ amt → 0 ≤ give have amt ≤ have.
Proof.
  intros Hhave Hamt. unfold give.
  destruct (have <? amt) eqn:E1; cbn [orb]; [lia |]. apply Z.ltb_ge in E1.
  destruct (amt =? 0); lia.
Qed.

Lemma allocate_solvent (utxo : nat) (duneId : string) (amt : Z) (s s' : EdictState) :
  solvent s → is_Some (UnallocatedDunes s !! duneId) → 0 ≤ amt →
  allocate utxo duneId amt s = Ok s' →
  solvent s'
  ∧ (∀ k, is_Some (UnallocatedDunes s !! k) → is_Some (UnallocatedDunes s' !! k))
  ∧ length (pendingUtxos s') = length (pendingUtxos s).
Proof.
  intros [Hbag Hout] [have Hhave] Hamt Hrun.
  destruct (pendingUtxos s !! utxo) as [u |] eqn:Hu; cycle 1.
  { unfold allocate in Hrun. rewrite Hhave, Hu in Hrun. discriminate. }
  rewrite (allocate_Ok utxo duneId amt have u s Hhave Hu) in Hrun.
  injection Hrun as <-.
  pose proof (give_bounds have amt (Hbag _ _ Hhave) Hamt) as Hg.
  assert (Hlt : (utxo < length (pendingUtxos s))%nat) by (by eapply lookup_lt_Some).
  split; [split |]; [| | split].
  - intros id v. cbn [allocated UnallocatedDunes]. rewrite lookup_insert.
    case_decide; [intros [= <-]; lia | apply Hbag].
  - intros j u' id Hj. destruct (decide (j = utxo)) as [-> | Hne].
    + destruct (allocated_balance utxo duneId id have (give have amt) u s Hlt)
        as (u1 & Hu1 & _ & Hbal).
      rewrite Hu1 in Hj. injection Hj as <-. rewrite Hbal.
      pose proof (Hout _ _ duneId Hu). pose proof (Hout _ _ id Hu).
      case_decide; lia.
    + rewrite allocated_other_output in Hj by done. by eapply Hout.
  - intros k [v Hk]. cbn [allocated UnallocatedDunes]. rewrite lookup_insert.
    case_decide; by eexists.
  - apply allocated_length.
Qed.

Lemma forEach_allocate_solvent (duneId : string) (amount : nat → Z)
    (outputs : list nat) :
  (∀ i, 0 ≤ amount i) →
  ∀ (index : nat) (s s' : EdictState),
  solvent s → is_Some (UnallocatedDunes s !! duneId) →
  forEach_from (λ utxo i, allocate utxo duneId (amount i)) outputs index s = Ok s' →
  solvent s'
  ∧ (∀ k, is_Some (UnallocatedDunes s !! k) → is_Some (UnallocatedDunes s' !! k))
  ∧ length (pendingUtxos s') = length (pendingUtxos s).
Proof.
  intros Hamount. induction outputs as [| j outputs IH]; intros index s s' Hs Hsome Hrun;
    cbn [forEach_from] in Hrun.
  - injection Hrun as <-. done.
  - destruct (allocate j duneId (amount index) s) as [s1 | msg] eqn:H1;
      cbn [mbind result_bind] in Hrun; [| discriminate].
    destruct (allocate_solvent _ _ _ _ _ Hs Hsome (Hamount index) H1)
      as (Hs1 & Hkeys1 & Hlen1).
    destruct (IH _ _ _ Hs1 (Hkeys1 _ Hsome) Hrun) as (Hs' & Hkeys' & Hlen').
    split; [exact Hs' |]. split; [intros k Hk; by apply Hkeys', Hkeys1 | congruence].
Qed.

Lemma processEdict_solvent (existingDunes : string → bool) (nonOp : list nat)
    (edict : IEdict.t) (s s' : EdictState) :
  solvent s → 0 ≤ IEdict.amount edict →
  processEdict existingDunes nonOp edict s = Ok s' →
  solvent s'
  ∧ (∀ k, is_Some (UnallocatedDunes s !! k) → is_Some (UnallocatedDunes s' !! k))
  ∧ length (pendingUtxos s') = length (pendingUtxos s).
Proof.
  intros Hs Hamt. unfold processEdict.
  destruct (negb _); [by intros [= <-] |].
  destruct (UnallocatedDunes s !! IEdict.id edict) as [have |] eqn:Hbag;
    cbn [falsy_amount]; [| by intros [= <-]].
  destruct (have =? 0); [by intros [= <-] |].
  assert (Hsome : is_Some (UnallocatedDunes s !! IEdict.id edict))
    by (rewrite Hbag; by eexists).
  assert (Hhave : 0 ≤ have) by (by eapply (proj1 Hs)).
  cbn [default from_option]. unfold Datatypes.id.
  destruct (IEdict.output edict =? _).
  - destruct (IEdict.amount edict =? 0).
    + destruct (0 <? Z.of_nat (length nonOp)) eqn:En; [| by intros [= <-]].
      apply Z.ltb_lt in En. unfold forEach.
      apply (forEach_allocate_solvent (IEdict.id edict)
               (λ index, if Z.of_nat index <? Z.rem have (Z.of_nat (length nonOp))
                         then Z.quot have (Z.of_nat (length nonOp)) + 1
                         else Z.quot have (Z.of_nat (length nonOp)))); [| done | done].
      intros i. pose proof (Z.quot_pos have (Z.of_nat (length nonOp)) Hhave ltac:(lia)).
      destruct (_ <? _); lia.
    + unfold forEach.
      apply (forEach_allocate_solvent (IEdict.id edict) (λ _, IEdict.amount edict));
        done.
  - destruct (index_in _ _) as [utxo |]; [| discriminate].
    by apply allocate_solvent.
Qed.

Lemma forEach_processEdict_solvent (existingDunes : string → bool)
    (nonOp : list nat) (edicts : list IEdict.t) :
  Forall (λ e, 0 ≤ IEdict.amount e) edicts →
  ∀ (index : nat) (s s' : EdictState),
  solvent s →
  forEach_from (λ edict (_ : nat), processEdict existingDunes nonOp edict)
    edicts index s = Ok s' →
  solvent s' ∧ length (pendingUtxos s') = length (pendingUtxos s).
Proof.
  induction 1 as [| e edicts He Hall IH]; intros index s s' Hs Hrun;
    cbn [forEach_from] in Hrun.
  - by injection Hrun as <-.
  - destruct (processEdict existingDunes nonOp e s) as [s1 | msg] eqn:H1;
      cbn [mbind result_bind] in Hrun; [| discriminate].
    destruct (processEdict_solvent _ _ _ _ _ Hs He H1) as (Hs1 & _ & Hlen1).
    destruct (IH _ _ _ Hs1 Hrun) as [Hs' Hlen']. split; [exact Hs' | congruence].
Qed.

Lemma sweep_loop_solvent (p : nat) (l : list (string * Z)) :
  ∀ (i : nat) (s s' : EdictState),
  solvent s →
  (∀ k v, (k, v) ∈ l → is_Some (UnallocatedDunes s !! k) ∧ 0 ≤ v) →
  forEach_from (λ allocationData (_ : nat),
                  allocate p allocationData.1 allocationData.2) l i s = Ok s' →
  solvent s' ∧ length (pendingUtxos s') = length (pendingUtxos s).
Proof.
  induction l as [| [k v] l IH]; intros i s s' Hs Hl Hrun; cbn [forEach_from] in Hrun.
  - by injection Hrun as <-.
  - cbn [fst snd] in Hrun.
    destruct (allocate p k v s) as [s1 | msg] eqn:H1;
      cbn [mbind result_bind] in Hrun; [| discriminate].
    destruct (Hl k v) as [Hk Hv]; [by left |].
    destruct (allocate_solvent _ _ _ _ _ Hs Hk Hv H1) as (Hs1 & Hkeys1 & Hlen1).
    destruct (IH (S i) s1 s' Hs1) as [Hs' Hlen']; [| exact Hrun |].
    { intros k' v' Hin. destruct (Hl k' v') as [Hk' Hv']; [by right |].
      split; [by apply Hkeys1 | done]. }
    split; [exact Hs' | congruence].
Qed.

(** X4. When no entry of the bag, no balance of an output and no amount
    of an edict is negative, [processEdicts] leaves no entry of the bag
    and no balance of an output negative, and it keeps the number of
    outputs. *)
Theorem processEdicts_never_overdraws (Transaction : IndexedTxExtended.t)
    (storage : Storage) (s s' : EdictState) :
  (∀ id v, UnallocatedDunes s !! id = Some v → 0 ≤ v) →
  (∀ j u id, pendingUtxos s !! j = Some u → 0 ≤ balance_of u id) →
  from_option (Forall (λ e, 0 ≤ IEdict.amount e)) True
    (IDunestoneIndexed.edicts (IndexedTxExtended.dunestone Transaction)) →
  processEdicts Transaction storage s = Ok s' →
  (∀ id v, UnallocatedDunes s' !! id = Some v → 0 ≤ v)
  ∧ (∀ j u id, pendingUtxos s' !! j = Some u → 0 ≤ balance_of u id)
  ∧ length (pendingUtxos s') = length (pendingUtxos s).
Proof.
  intros Hbag Hout Hamounts.
  assert (Hs : solvent s) by (by split).
  unfold processEdicts.
  destruct (IDunestoneIndexed.cenotaph _).
  { intros [= <-]. cbn [UnallocatedDunes pendingUtxos]. done. }
  destruct (run_edicts Transaction storage s) as [s1 | msg] eqn:Hrun;
    cbn [mbind result_bind]; [| discriminate].
  assert (H1 : solvent s1 ∧ length (pendingUtxos s1) = length (pendingUtxos s)).
  { unfold run_edicts in Hrun.
    destruct (IDunestoneIndexed.edicts _) as [edicts |]; [| by injection Hrun as <-].
    cbn [from_option] in Hamounts. unfold forEach in Hrun.
    eapply forEach_processEdict_solvent; [| exact Hs | exact Hrun].
    apply Forall_fmap. eapply Forall_impl; [exact Hamounts |]. by intros e He. }
  destruct H1 as [Hs1 Hlen1].
  destruct (pointerOutput _ _) as [p |]; [| discriminate].
  unfold sweep, forEach. intros Hsweep.
  destruct (sweep_loop_solvent p (map_to_list (UnallocatedDunes s1)) 0%nat s1 s' Hs1)
    as [[Hb' Ho'] Hlen'];
    [| exact Hsweep |].
  { intros k v Hin. apply elem_of_map_to_list in Hin.
    split; [by eexists | by eapply (proj1 Hs1)]. }
  split; [exact Hb' |]. split; [exact Ho' | congruence].
Qed.

(* <<< g4 >>> *)

Lemma processEdicts_never_overdraws_witness :
  ∃ s', processEdicts four_to_output_0 (storage_with_hello (Some 100))
          seven_unallocated = Ok s'
        ∧ ∀ j u id, pendingUtxos s' !! j = Some u → 0 ≤ balance_of u id.
Proof.
  destruct (processEdicts four_to_output_0 (storage_with_hello (Some 100))
              seven_unallocated) as [s' | msg] eqn:E;
    [| exfalso; vm_compute in E; discriminate E].
  exists s'. split; [reflexivity |].
  apply (processEdicts_never_overdraws four_to_output_0 (storage_with_hello (Some 100))
           seven_unallocated s').
  - intros id v Hv. unfold seven_unallocated in Hv. cbn [UnallocatedDunes] in Hv.
    apply lookup_singleton_Some in Hv as [_ <-]. lia.
  - intros j u id Hu. unfold seven_unallocated in Hu. cbn [pendingUtxos] in Hu.
    destruct j as [| [| j]]; cbn in Hu; [| | discriminate Hu];
      injection Hu as <-; unfold balance_of; cbn; by rewrite lookup_empty.
  - cbn. repeat constructor. cbn. lia.
  - exact E.
Defined.

(** ** The decoder and the edict loop together *)



(** ** What a mint leaves alone *)

(** The two ways [processMint] returns: nothing was done, or one mint
    was counted. *)
Lemma processMint_outcomes (isPriceTermsMet : IDune.t → IndexedTxExtended.t → bool)
    (U U' : gmap string Z) (Transaction : IndexedTxExtended.t)
    (storage storage' : Storage) :
  processMint isPriceTermsMet U Transaction storage = Ok (U', storage') →
  (U' = U ∧ storage' = storage)
  ∨ ∃ d mintAmount event,
      0 < mintAmount
      ∧ U' = updateUnallocated U (IDune.dune_protocol_id d) mintAmount
      ∧ storage'
        = updateAttribute_Dune_mints (create_Event storage event)
            (IDune.dune_protocol_id d) (IDune.mints d + 1)
      ∧ IEvent.type event = 1 ∧ IEvent.to_address_id event = 2.
Proof.
  unfold processMint.
  destruct (negb (truthy_string _)); [intros [= <- <-]; by left |].
  destruct (findOne_Dune storage _) as [d |] eqn:Hd; [| intros [= <- <-]; by left].
  destruct (negb (isPriceTermsMet d Transaction)); [intros [= <- <-]; by left |].
  destruct (isMintOpen _ _ d true) eqn:Hopen; [| intros [= <- <-]; by left].
  destruct (IDunestoneIndexed.cenotaph _); [intros [= <- <-]; by left |].
  match goal with
  | |- context [mbind _ ?m] => destruct m as [mintAmount | msg]
  end; cbn [mbind result_bind]; [| discriminate].
  destruct (Z.leb_spec mintAmount 0) as [| Hpos]; [intros [= <- <-]; by left |].
  destruct (findOne_Address storage _) as [fromAddressId |]; [| discriminate].
  intros [= <- <-]. right. eexists d, mintAmount, _.
  split; [exact Hpos |]. split; [reflexivity |]. split; [reflexivity |].
  split; reflexivity.
Qed.

(** X6. When [processMint] returns, the address table and the counter
    of dune ids are as before; at most one event has been appended, of
    type 1 and addressed to address id 2; no row of the Dune table has
    been added or removed and no field of a row other than [mints] has
    changed; every key of the bag is still there and no entry of the bag
    has decreased. *)
Theorem processMint_frame (isPriceTermsMet : IDune.t → IndexedTxExtended.t → bool)
    (U U' : gmap string Z) (Transaction : IndexedTxExtended.t)
    (storage storage' : Storage) :
  processMint isPriceTermsMet U Transaction storage = Ok (U', storage') →
  Address storage' = Address storage
  ∧ next_dune_id storage' = next_dune_id storage
  ∧ (∃ events, Event storage' = Event storage ++ events
               ∧ (length events ≤ 1)%nat
               ∧ Forall (λ e, IEvent.type e = 1 ∧ IEvent.to_address_id e = 2) events)
  ∧ (∀ key, (λ row, IDune.set_mints row 0) <$> Dune storage' !! key
            = (λ row, IDune.set_mints row 0) <$> Dune storage !! key)
  ∧ (∀ id, is_Some (U !! id) → is_Some (U' !! id))
  ∧ (∀ id, default 0 (U !! id) ≤ default 0 (U' !! id)).
Proof.
  intros Hrun.
  apply processMint_outcomes in Hrun
    as [[-> ->] | (d & mintAmount & event & Hpos & -> & -> & Htype & Hto)].
  - split; [reflexivity |]. split; [reflexivity |]. split.
    { exists []. split; [by rewrite app_nil_r |]. split; [cbn; lia | constructor]. }
    split; [done |]. split; [done |]. intros id. lia.
  - unfold updateAttribute_Dune_mints, create_Event, updateUnallocated.
    cbn [Address next_dune_id Event Dune].
    split; [reflexivity |]. split; [reflexivity |]. split.
    { exists [event]. split; [reflexivity |]. split; [cbn; lia |].
      constructor; [by split | constructor]. }
    split.
    { intros key. rewrite lookup_alter. case_decide as Hk; [| reflexivity]. rewrite Hk.
      destruct (Dune storage !! key) as [row |]; [| reflexivity].
      cbn [fmap option_fmap option_map]. f_equal. }
    split.
    { intros id [v Hv]. rewrite lookup_insert. case_decide; by eexists. }
    intros id. rewrite lookup_insert. case_decide as Hid; [| lia].
    subst id. cbn. lia.
Qed.

(* <<< g18 >>> *)

Lemma processMint_frame_witness :
  let Transaction := transaction 840101 3 (mint_only "840100:7" false) [] in
  ∃ U' storage',
    processMint (λ _ _, true) ∅ Transaction (storage_with_hello (Some 100))
      = Ok (U', storage')
    ∧ Address storage' = Address (storage_with_hello (Some 100)).
Proof.
  intros Transaction.
  destruct (processMint (λ _ _, true) ∅ Transaction (storage_with_hello (Some 100)))
    as [[U' storage'] | msg] eqn:E; [| exfalso; vm_compute in E; discriminate E].
  exists U', storage'. split; [reflexivity |].
  apply (processMint_frame (λ _ _, true) ∅ U' Transaction
           (storage_with_hello (Some 100)) storage' E).
Defined.

(** ** Decimal strings: what [pretty] writes, [parseInt], [Number] and [split] read back *)

Lemma string_app_cons (c : ascii) (a b : string) :
  String c a +:+ b = String c (a +:+ b).
Proof. reflexivity. Qed.

Lemma string_app_nil_l (a : string) : "" +:+ a = a.
Proof. reflexivity. Qed.

Lemma string_app_assoc (a b c : string) : (a +:+ b) +:+ c = a +:+ (b +:+ c).
Proof.
  induction a as [| x a IH]; [reflexivity |]. by rewrite !string_app_cons, IH.
Qed.

Lemma string_app_nil_r (a : string) : a +:+ "" = a.
Proof.
  induction a as [| x a IH]; [reflexivity |]. by rewrite string_app_cons, IH.
Qed.

Lemma pretty_N_go_app (x : N) (s : string) :
  pretty_N_go x s = pretty_N_go x "" +:+ s.
Proof.
  revert s. induction (N.lt_wf_0 x) as [x _ IH]; intros s.
  destruct (decide (x = 0%N)) as [-> | Hne].
  - by rewrite !pretty_N_go_0.
  - rewrite (pretty_N_go_step x s), (pretty_N_go_step x "") by lia.
    assert (Hlt : (x `div` 10 < x)%N) by (apply N.div_lt; lia).
    rewrite (IH _ Hlt (String _ s)), (IH _ Hlt (String _ "")).
    by rewrite string_app_assoc.
Qed.

Lemma digit_of_pretty_N_char (n : N) :
  (n < 10)%N → digit_of (pretty_N_char n) = Some (Z.of_N n).
Proof.
  intros Hn.
  destruct n as [| p]; [reflexivity |].
  do 4 (destruct p as [p | p |]; try reflexivity; try lia).
Qed.

Lemma all_digits_app (a b : string) :
  all_digits (a +:+ b) = all_digits a && all_digits b.
Proof.
  induction a as [| c a IH]; [reflexivity |]. rewrite string_app_cons.
  cbn [all_digits]. destruct (digit_of c); [exact IH | reflexivity].
Qed.

Lemma leading_digits_app (a b : string) (acc : option Z) :
  all_digits a = true →
  leading_digits digit_of 10 (a +:+ b) acc
  = leading_digits digit_of 10 b (leading_digits digit_of 10 a acc).
Proof.
  revert acc. induction a as [| c a IH]; intros acc Ha; [reflexivity |].
  rewrite string_app_cons. cbn [all_digits leading_digits] in Ha |- *.
  destruct (digit_of c) as [d |]; [| discriminate].
  by apply IH.
Qed.

Lemma pretty_N_go_digits (x : N) :
  all_digits (pretty_N_go x "") = true
  ∧ ((0 < x)%N →
     leading_digits digit_of 10 (pretty_N_go x "") None = Some (Z.of_N x)).
Proof.
  induction (N.lt_wf_0 x) as [x _ IH].
  destruct (decide (x = 0%N)) as [-> | Hne].
  - rewrite pretty_N_go_0. split; [reflexivity | lia].
  - assert (Hlt : (x `div` 10 < x)%N) by (apply N.div_lt; lia).
    destruct (IH _ Hlt) as [Hall Hval].
    assert (Hmod : (x `mod` 10 < 10)%N) by (apply N.mod_lt; lia).
    rewrite (pretty_N_go_step x "") by lia. rewrite pretty_N_go_app.
    split.
    + rewrite all_digits_app, Hall. cbn [andb all_digits].
      by rewrite (digit_of_pretty_N_char _ Hmod).
    + intros _. rewrite leading_digits_app by exact Hall. cbn [leading_digits].
      rewrite (digit_of_pretty_N_char _ Hmod). f_equal.
      pose proof (N.div_mod x 10 ltac:(lia)) as Hdm.
      apply (f_equal Z.of_N) in Hdm. rewrite N2Z.inj_add, N2Z.inj_mul in Hdm.
      destruct (decide (x `div` 10 = 0)%N) as [H0 | Hpos].
      * rewrite H0 in Hdm |- *. rewrite pretty_N_go_0.
        cbn [leading_digits default from_option id]. lia.
      * rewrite Hval by lia. cbn [default from_option id]. lia.
Qed.

Lemma pretty_N_digits (n : N) :
  all_digits (pretty n) = true
  ∧ leading_digits digit_of 10 (pretty n) None = Some (Z.of_N n)
  ∧ pretty n ≠ "".
Proof.
  unfold pretty, pretty_N. destruct (decide (n = 0%N)) as [-> | Hne].
  - by repeat split.
  - destruct (pretty_N_go_digits n) as [Hall Hval].
    split; [exact Hall |]. split; [apply Hval; lia |].
    intros Hnil. rewrite Hnil in Hval. specialize (Hval ltac:(lia)). discriminate.
Qed.

Lemma pretty_nonneg_digits (z : Z) :
  0 ≤ z →
  all_digits (pretty z) = true
  ∧ leading_digits digit_of 10 (pretty z) None = Some z
  ∧ pretty z ≠ "".
Proof.
  intros Hz. destruct z as [| p | p]; [by repeat split | | lia].
  change (pretty (Z.pos p)) with (pretty (N.pos p)).
  apply (pretty_N_digits (N.pos p)).
Qed.

Lemma pretty_neg (z : Z) : z < 0 → pretty z = "-" +:+ pretty (- z).
Proof. intros Hz. destruct z as [| p | p]; [lia | lia | reflexivity]. Qed.

Lemma decimal_value_pretty (z : Z) : 0 ≤ z → decimal_value (pretty z) = z.
Proof.
  intros Hz. unfold decimal_value.
  destruct (pretty_nonneg_digits z Hz) as (_ & -> & _). reflexivity.
Qed.

(** *** Splitting *)

Lemma rev_app_rev_app (a b c : string) :
  String.rev_app (String.rev_app a b) c = String.rev_app b (a +:+ c).
Proof.
  revert b c. induction a as [| x a IH]; intros b c; [reflexivity |].
  cbn [String.rev_app]. rewrite IH. reflexivity.
Qed.

Lemma rev_rev_app (a : string) : String.rev (String.rev_app a "") = a.
Proof.
  unfold String.rev. rewrite rev_app_rev_app. cbn [String.rev_app].
  apply string_app_nil_r.
Qed.

Lemma split_go_app (sep : ascii) (a rest cur : string) :
  without sep a = true →
  split_go sep (a +:+ rest) cur = split_go sep rest (String.rev_app a cur).
Proof.
  revert cur. induction a as [| c a IH]; intros cur Ha; [reflexivity |].
  cbn [without] in Ha. apply andb_true_iff in Ha as [Hc Ha].
  rewrite string_app_cons. cbn [split_go String.rev_app].
  apply negb_true_iff in Hc. rewrite Hc. by apply IH.
Qed.

Lemma String_split_cons (sep : ascii) (a b : string) :
  without sep a = true →
  String_split sep (a +:+ String sep b) = a :: String_split sep b.
Proof.
  intros Ha. unfold String_split. rewrite split_go_app by exact Ha.
  cbn [split_go]. rewrite Ascii.eqb_refl. by rewrite rev_rev_app.
Qed.

Lemma String_split_single (sep : ascii) (a : string) :
  without sep a = true → String_split sep a = [a].
Proof.
  intros Ha. unfold String_split.
  rewrite <- (string_app_nil_r a) at 1. rewrite split_go_app by exact Ha.
  cbn [split_go]. by rewrite rev_rev_app.
Qed.

Lemma all_digits_without (sep : ascii) (s : string) :
  digit_of sep = None → all_digits s = true → without sep s = true.
Proof.
  intros Hsep. induction s as [| c s IH]; [reflexivity |].
  cbn [all_digits without]. destruct (digit_of c) as [d |] eqn:Hc; [| discriminate].
  intros Hs. rewrite (IH Hs), andb_true_r. apply negb_true_iff.
  apply Ascii.eqb_neq. intros ->. congruence.
Qed.

Lemma pretty_without (sep : ascii) (z : Z) :
  digit_of sep = None → sep ≠ "-"%char → without sep (pretty z) = true.
Proof.
  intros Hsep Hdash. destruct (Z.lt_ge_cases z 0) as [Hneg | Hpos].
  - rewrite pretty_neg by exact Hneg. rewrite string_app_cons, string_app_nil_l.
    cbn [without]. apply andb_true_iff. split.
    + apply negb_true_iff, Ascii.eqb_neq. congruence.
    + apply all_digits_without; [exact Hsep |].
      apply pretty_nonneg_digits. lia.
  - apply all_digits_without; [exact Hsep |]. by apply pretty_nonneg_digits.
Qed.

Lemma String_split_dune_id_of (block txIndex : Z) :
  String_split ":" (dune_id_of block txIndex) = [pretty block; pretty txIndex].
Proof.
  unfold dune_id_of. rewrite string_app_cons, string_app_nil_l.
  rewrite String_split_cons by (by apply pretty_without).
  by rewrite String_split_single by (by apply pretty_without).
Qed.

(** *** [parseInt] and [Number] read back what the template literal wrote *)

Lemma digit_not_space (c : ascii) (d : Z) : digit_of c = Some d → is_space c = false.
Proof.
  unfold digit_of, is_space. cbv zeta.
  destruct ((48 <=? _) && _) eqn:E; [| discriminate]. intros _.
  apply andb_true_iff in E as [E1 E2]. apply Z.leb_le in E1. apply Z.leb_le in E2.
  repeat (apply orb_false_iff; split); apply N.eqb_neq; lia.
Qed.

Lemma leading_digits_is_Some (digit : ascii → option Z) (radix : Z) (s : string)
    (acc : option Z) :
  is_Some acc → is_Some (leading_digits digit radix s acc).
Proof.
  revert acc. induction s as [| c s IH]; intros acc Hacc; [exact Hacc |].
  cbn [leading_digits]. destruct (digit c); [| exact Hacc].
  apply IH. by eexists.
Qed.

Lemma parseInt_unsigned (c : ascii) (s : string) (d : Z) :
  digit_of c = Some d → all_digits s = true →
  parseInt (String c s) = Num (decimal_value (String c s)).
Proof.
  intros Hc Hall.
  unfold parseInt. cbn [skip_spaces]. rewrite (digit_not_space c d Hc).
  assert (Hsign : match String c s with
                  | String "-" s' => (-1, s')
                  | String "+" s' => (1, s')
                  | _ => (1, String c s)
                  end = (1, String c s)).
  { destruct c as [[] [] [] [] [] [] [] []]; try reflexivity; discriminate Hc. }
  rewrite Hsign.
  assert (Hmag : match String c s with
                 | String "0" (String "x" s') | String "0" (String "X" s') =>
                     leading_digits hex_digit_of 16 s' None
                 | _ => leading_digits digit_of 10 (String c s) None
                 end = leading_digits digit_of 10 (String c s) None).
  { destruct s as [| c' s]; [by destruct c as [[] [] [] [] [] [] [] []] |].
    cbn [all_digits] in Hall. destruct (digit_of c') as [d' |] eqn:Hc'; [| discriminate].
    destruct c as [[] [] [] [] [] [] [] []]; try reflexivity.
    destruct c' as [[] [] [] [] [] [] [] []]; try reflexivity; discriminate Hc'. }
  rewrite Hmag. unfold decimal_value.
  destruct (leading_digits_is_Some digit_of 10 s (Some (10 * default 0 None + d)))
    as [m Hm]; [by eexists |].
  cbn [leading_digits]. rewrite Hc, Hm. cbn. f_equal. lia.
Qed.

Lemma parseInt_digits (s : string) :
  all_digits s = true → s ≠ "" → parseInt s = Num (decimal_value s).
Proof.
  intros Hall Hne. destruct s as [| c s]; [done |].
  cbn [all_digits] in Hall. destruct (digit_of c) as [d |] eqn:Hc; [| discriminate].
  by eapply parseInt_unsigned.
Qed.

Lemma parseInt_negative (s : string) :
  all_digits s = true → s ≠ "" → parseInt ("-" +:+ s) = Num (- decimal_value s).
Proof.
  intros Hall Hne. destruct s as [| c s]; [done |].
  cbn [all_digits] in Hall. destruct (digit_of c) as [d |] eqn:Hc; [| discriminate].
  pose proof (parseInt_unsigned c s d Hc Hall) as Hpos.
  unfold parseInt in Hpos |- *. cbn [skip_spaces] in Hpos.
  rewrite (digit_not_space c d Hc) in Hpos.
  rewrite string_app_cons, string_app_nil_l.
  change (skip_spaces (String "-" (String c s))) with (String "-" (String c s)).
  cbv iota beta.
  assert (Hsign : match String c s with
                  | String "-" s' => (-1, s')
                  | String "+" s' => (1, s')
                  | _ => (1, String c s)
                  end = (1, String c s)).
  { destruct c as [[] [] [] [] [] [] [] []]; try reflexivity; discriminate Hc. }
  rewrite Hsign in Hpos.
  destruct (match String c s with
            | String "0" (String "x" s') | String "0" (String "X" s') =>
                leading_digits hex_digit_of 16 s' None
            | _ => leading_digits digit_of 10 (String c s) None
            end) as [m |]; [| discriminate].
  injection Hpos as <-. f_equal. lia.
Qed.

Lemma parseInt_pretty (z : Z) : parseInt (pretty z) = Num z.
Proof.
  destruct (Z.lt_ge_cases z 0) as [Hneg | Hpos].
  - rewrite pretty_neg by exact Hneg.
    destruct (pretty_nonneg_digits (- z)) as (Hall & _ & Hne); [lia |].
    rewrite parseInt_negative by done. rewrite decimal_value_pretty by lia.
    f_equal. lia.
  - destruct (pretty_nonneg_digits z Hpos) as (Hall & _ & Hne).
    rewrite parseInt_digits by done. by rewrite decimal_value_pretty.
Qed.

Lemma Number_of_string_pretty (z : Z) : 0 ≤ z → Number_of_string (pretty z) = Num z.
Proof.
  intros Hz. unfold Number_of_string.
  destruct (pretty_nonneg_digits z Hz) as (-> & -> & _). reflexivity.
Qed.

(* <<< g8 >>> *)

Lemma Number_of_digits (s : string) :
  all_digits s = true → Number_of_string s = Num (decimal_value s).
Proof. intros Hs. unfold Number_of_string. by rewrite Hs. Qed.

Lemma String_split_pair (a b : string) :
  all_digits a = true → all_digits b = true →
  String_split ":" (a +:+ ":" +:+ b) = [a; b].
Proof.
  intros Ha Hb. rewrite string_app_cons, string_app_nil_l.
  rewrite String_split_cons by (by apply all_digits_without).
  by rewrite String_split_single by (by apply all_digits_without).
Qed.

Lemma String_length_app (a b : string) :
  String.length (a +:+ b) = (String.length a + String.length b)%nat.
Proof.
  induction a as [| c a IH]; [reflexivity |].
  rewrite string_app_cons. cbn [String.length]. by rewrite IH.
Qed.

Lemma zeros_length (n : nat) : String.length (zeros n) = n.
Proof. induction n as [| n IH]; [reflexivity |]. cbn. by rewrite IH. Qed.

Lemma all_digits_zeros (n : nat) : all_digits (zeros n) = true.
Proof. induction n as [| n IH]; [reflexivity | exact IH]. Qed.

Lemma leading_digits_zeros (n : nat) (acc : option Z) :
  default 0 (leading_digits digit_of 10 (zeros n) acc)
  = default 0 acc * 10 ^ Z.of_nat n.
Proof.
  revert acc. induction n as [| n IH]; intros acc.
  - cbn [zeros leading_digits]. change (10 ^ Z.of_nat 0) with 1. lia.
  - cbn [zeros leading_digits].
    change (digit_of "0") with (Some 0). cbv iota beta.
    rewrite IH. cbn [default from_option]. unfold id.
    rewrite Nat2Z.inj_succ, Z.pow_succ_r by lia. lia.
Qed.

Lemma decimal_value_app (a b : string) :
  all_digits a = true →
  decimal_value (a +:+ b)
  = default 0 (leading_digits digit_of 10 b (leading_digits digit_of 10 a None)).
Proof. intros Ha. unfold decimal_value. by rewrite leading_digits_app. Qed.

Lemma decimal_value_zeros_r (a : string) (n : nat) :
  all_digits a = true →
  decimal_value (a +:+ zeros n) = decimal_value a * 10 ^ Z.of_nat n.
Proof.
  intros Ha. rewrite decimal_value_app by exact Ha. apply leading_digits_zeros.
Qed.

Lemma digit_of_range (c : ascii) (d : Z) : digit_of c = Some d → 0 ≤ d ≤ 9.
Proof.
  unfold digit_of. cbv zeta.
  destruct ((48 <=? _) && _) eqn:E; [| discriminate]. intros [= <-].
  apply andb_true_iff in E as [E1 E2]. apply Z.leb_le in E1, E2. lia.
Qed.

Lemma leading_digits_from (s : string) (acc : option Z) :
  default 0 (leading_digits digit_of 10 s acc)
  = default 0 (leading_digits digit_of 10 s (Some (default 0 acc))).
Proof.
  destruct acc as [a |]; [reflexivity |].
  destruct s as [| c s]; [reflexivity |]. cbn [leading_digits].
  destruct (digit_of c); reflexivity.
Qed.

Lemma leading_digits_linear (s : string) :
  all_digits s = true →
  ∀ a : Z,
  default 0 (leading_digits digit_of 10 s (Some a))
  = a * 10 ^ Z.of_nat (String.length s)
    + default 0 (leading_digits digit_of 10 s (Some 0))
  ∧ 0 ≤ default 0 (leading_digits digit_of 10 s (Some 0))
      < 10 ^ Z.of_nat (String.length s).
Proof.
  induction s as [| c s IH]; intros Hs a.
  - cbn [leading_digits String.length].
    change (default 0 (Some a)) with a. change (default 0 (Some 0)) with 0.
    change (10 ^ Z.of_nat 0) with 1. lia.
  - cbn [all_digits] in Hs. destruct (digit_of c) as [d |] eqn:Hc; [| discriminate].
    pose proof (digit_of_range c d Hc) as Hd.
    cbn [leading_digits String.length]. rewrite Hc.
    change (default 0 (Some a)) with a. change (default 0 (Some 0)) with 0.
    destruct (IH Hs (10 * a + d)) as [Ha Hrange].
    destruct (IH Hs (10 * 0 + d)) as [H0 _].
    rewrite Ha, H0. rewrite Nat2Z.inj_succ, Z.pow_succ_r by lia.
    set (p := 10 ^ Z.of_nat (String.length s)) in *.
    assert (0 < p) by (apply Z.pow_pos_nonneg; lia).
    split; [lia | nia].
Qed.

Lemma leading_digits_shift (s : string) (acc : option Z) :
  all_digits s = true →
  default 0 (leading_digits digit_of 10 s acc)
  = default 0 acc * 10 ^ Z.of_nat (String.length s) + decimal_value s
  ∧ 0 ≤ decimal_value s < 10 ^ Z.of_nat (String.length s).
Proof.
  intros Hs. unfold decimal_value.
  rewrite (leading_digits_from s acc), (leading_digits_from s None).
  change (default 0 None) with 0.
  apply (leading_digits_linear s Hs).
Qed.

Lemma decimal_value_concat (a b : string) :
  all_digits a = true → all_digits b = true →
  decimal_value (a +:+ b)
  = decimal_value a * 10 ^ Z.of_nat (String.length b) + decimal_value b.
Proof.
  intros Ha Hb. rewrite decimal_value_app by exact Ha.
  destruct (leading_digits_shift b (leading_digits digit_of 10 a None) Hb) as [-> _].
  reflexivity.
Qed.

(** ** The window of [isMintOpen] *)

Lemma dune_id_of_inj (b t b' t' : Z) :
  dune_id_of b t = dune_id_of b' t' → b = b' ∧ t = t'.
Proof.
  intros Heq.
  pose proof (String_split_dune_id_of b t) as H1.
  rewrite Heq, String_split_dune_id_of in H1.
  injection H1 as Hb Ht.
  apply (f_equal parseInt) in Hb, Ht. rewrite !parseInt_pretty in Hb, Ht.
  split; congruence.
Qed.

Lemma dune_id_of_genesis (b t : Z) :
  String.eqb (dune_id_of b t) "1:0" = bool_decide ((b, t) = (1, 0)).
Proof.
  case_bool_decide as H.
  - injection H as -> ->. reflexivity.
  - apply String.eqb_neq. intros Heq. apply H.
    change "1:0"%string with (dune_id_of 1 0) in Heq.
    apply dune_id_of_inj in Heq as [-> ->]. reflexivity.
Qed.

Lemma window_open_spec (cb block : Z) (d : IDune.t) :
  cb ≤ block →
  window_open cb block d = true ↔
    (∀ hs, IDune.mint_start d = Some hs → hs ≤ block)
    ∧ cb + default 0 (IDune.mint_offset_start d) ≤ block
    ∧ (∀ he, IDune.mint_end d = Some he → he ≠ cb → block ≤ he)
    ∧ (default 0 (IDune.mint_offset_end d) ≠ 0 →
       block ≤ cb + default 0 (IDune.mint_offset_end d)).
Proof.
  intros Hcb. unfold window_open. cbv zeta.
  set (os := default 0 (IDune.mint_offset_start d)).
  set (oe := default 0 (IDune.mint_offset_end d)).
  cbn [parseInt_value number_add].
  assert (Hstart :
    ∀ ms : option Z,
      number_gt
        (if (length (parseInt_value <$>
               List.filter (differs_from (Num cb)) [Num <$> ms; Some (Num (os + cb))])
             =? 2)%nat
         then Math_max (default (Num cb) (Num <$> ms)) (Num (os + cb))
         else default (Num cb)
                ((parseInt_value <$>
                    List.filter (differs_from (Num cb))
                      [Num <$> ms; Some (Num (os + cb))]) !! 0%nat))
        (Num block) = false
      ↔ (∀ hs, ms = Some hs → hs ≤ block) ∧ cb + os ≤ block).
  { intros [hs |]; cbn [fmap option_fmap option_map List.filter differs_from number_eq].
    - destruct (Z.eqb_spec hs cb) as [-> | Hhs];
        destruct (Z.eqb_spec (os + cb) cb) as [Hos | Hos];
        cbn [negb fmap list_fmap length Nat.eqb lookup list_lookup default
             from_option id parseInt_value Math_max number_gt];
        rewrite ?Z.ltb_ge, ?Z.ltb_lt; unfold Datatypes.id; cbn [number_gt];
        rewrite ?Z.ltb_ge; (split; [intros H; split; [intros ? [= <-] |]; lia
                                   | intros [H1 H2]; specialize (H1 _ eq_refl); lia]).
    - destruct (Z.eqb_spec (os + cb) cb) as [Hos | Hos];
        cbn [negb fmap list_fmap length Nat.eqb lookup list_lookup default
             from_option id parseInt_value Math_max number_gt];
        unfold Datatypes.id; cbn [number_gt];
        rewrite ?Z.ltb_ge; (split; [intros H; split; [intros ? [=] |]; lia
                                   | intros [H1 H2]; lia]). }
  assert (Hend :
    ∀ me : option Z,
      number_lt
        (if (length (parseInt_value <$>
               List.filter (differs_from (Num cb)) [Num <$> me; Some (Num (oe + cb))])
             =? 2)%nat
         then Math_min (default (Num (oe + cb)) (Num <$> me)) (Num (oe + cb))
         else default Infinity
                ((parseInt_value <$>
                    List.filter (differs_from (Num cb))
                      [Num <$> me; Some (Num (oe + cb))]) !! 0%nat))
        (Num block) = false
      ↔ (∀ he, me = Some he → he ≠ cb → block ≤ he) ∧ (oe ≠ 0 → block ≤ cb + oe)).
  { intros [he |]; cbn [fmap option_fmap option_map List.filter differs_from number_eq].
    - destruct (Z.eqb_spec he cb) as [-> | Hhe];
        destruct (Z.eqb_spec (oe + cb) cb) as [Hoe | Hoe];
        cbn [negb fmap list_fmap length Nat.eqb lookup list_lookup default
             from_option id parseInt_value Math_min number_lt number_gt];
        unfold Datatypes.id; cbn [number_lt number_gt];
        rewrite ?Z.ltb_ge;
        (split; [intros H; split; [intros ? [= <-] ? | intros ?]; lia
                | intros [H1 H2]; try specialize (H1 _ eq_refl); lia]).
    - destruct (Z.eqb_spec (oe + cb) cb) as [Hoe | Hoe];
        cbn [negb fmap list_fmap length Nat.eqb lookup list_lookup default
             from_option id parseInt_value Math_min number_lt number_gt];
        unfold Datatypes.id; cbn [number_lt number_gt];
        rewrite ?Z.ltb_ge;
        (split; [intros H; split; [intros ? [=] | intros ?]; lia
                | intros [H1 H2]; lia]). }
  rewrite negb_true_iff, orb_false_iff, (Hstart (IDune.mint_start d)),
    (Hend (IDune.mint_end d)).
  tauto.
Qed.

Lemma isMintOpen_parsed (block txIndex b0 t0 : Z) (d : IDune.t) (mint_offset : bool) :
  IDune.dune_protocol_id d = dune_id_of b0 t0 →
  isMintOpen block txIndex d mint_offset
  = negb (IDune.unmintable d)
    && negb ((block =? b0) && (t0 =? txIndex))
    && negb (truthy_numeric (IDune.mint_cap d)
             && (from_option BigInt 0 (IDune.mint_cap d)
                 <? IDune.mints d + (if mint_offset then 1 else 0)))
    && window_open (if bool_decide ((b0, t0) = (1, 0)) then GENESIS_BLOCK else b0)
         block d.
Proof.
  intros Hid. unfold isMintOpen. rewrite Hid, String_split_dune_id_of.
  rewrite dune_id_of_genesis.
  cbn [fmap list_fmap lookup list_lookup default from_option id].
  rewrite !parseInt_pretty. unfold Datatypes.id. cbn [number_eq].
  destruct (IDune.unmintable d); [reflexivity |].
  destruct ((block =? b0) && (t0 =? txIndex)); [reflexivity |].
  cbn [negb andb].
  destruct (truthy_numeric (IDune.mint_cap d) && _); [reflexivity |].
  cbn [negb andb]. unfold window_open.
  destruct (bool_decide ((b0, t0) = (1, 0))); reflexivity.
Qed.

(** X7. [isMintOpen] as inequalities. For a dune whose id is [b0:t0],
    asked at a block not before its creation block (which is
    [GENESIS_BLOCK] for the id [1:0] and [b0] otherwise), the mint is
    open exactly when: the dune is not unmintable; the transaction is
    not the etching transaction itself; a cap that passes the test
    [if (mint_cap)] is not exceeded by [mints], plus one with the offset;
    the block is at or after [mint_start] and at or after the creation
    block plus [mint_offset_start]; the block is at or before
    [mint_end], unless [mint_end] is the creation block; and the block
    is at or before the creation block plus [mint_offset_end], unless
    that offset is unset or 0. So an end equal to the creation block,
    from either field, is read as no end. *)
Theorem isMintOpen_window (block txIndex b0 t0 : Z) (d : IDune.t)
    (mint_offset : bool) :
  let creationBlock := if decide ((b0, t0) = (1, 0)) then GENESIS_BLOCK else b0 in
  IDune.dune_protocol_id d = dune_id_of b0 t0 →
  creationBlock ≤ block →
  isMintOpen block txIndex d mint_offset = true ↔
    IDune.unmintable d = false
    ∧ (block, txIndex) ≠ (b0, t0)
    ∧ (truthy_numeric (IDune.mint_cap d) = true →
       IDune.mints d + (if mint_offset then 1 else 0)
       ≤ from_option BigInt 0 (IDune.mint_cap d))
    ∧ (∀ hs, IDune.mint_start d = Some hs → hs ≤ block)
    ∧ creationBlock + default 0 (IDune.mint_offset_start d) ≤ block
    ∧ (∀ he, IDune.mint_end d = Some he → he ≠ creationBlock → block ≤ he)
    ∧ (default 0 (IDune.mint_offset_end d) ≠ 0 →
       block ≤ creationBlock + default 0 (IDune.mint_offset_end d)).
Proof.
  intros creationBlock Hid Hcb.
  rewrite (isMintOpen_parsed block txIndex b0 t0 d mint_offset Hid).
  assert (Hcb' : (if bool_decide ((b0, t0) = (1, 0)) then GENESIS_BLOCK else b0)
                 = creationBlock).
  { unfold creationBlock. by destruct (decide ((b0, t0) = (1, 0))) as [H | H];
      [rewrite bool_decide_true | rewrite bool_decide_false]. }
  rewrite Hcb'. clearbody creationBlock.
  rewrite !andb_true_iff, !negb_true_iff, (window_open_spec _ _ _ Hcb).
  assert (Hown : (block =? b0) && (t0 =? txIndex) = false ↔ (block, txIndex) ≠ (b0, t0)).
  { destruct (Z.eqb_spec block b0) as [-> | Hb];
      destruct (Z.eqb_spec t0 txIndex) as [-> | Ht]; cbn [andb];
      (split; [intros H; try discriminate H; intros Heq; injection Heq; intros;
                congruence
              | intros H; try reflexivity; exfalso; by apply H]). }
  assert (Hcap : truthy_numeric (IDune.mint_cap d)
                 && (from_option BigInt 0 (IDune.mint_cap d)
                     <? IDune.mints d + (if mint_offset then 1 else 0)) = false
                 ↔ (truthy_numeric (IDune.mint_cap d) = true →
                    IDune.mints d + (if mint_offset then 1 else 0)
                    ≤ from_option BigInt 0 (IDune.mint_cap d))).
  { destruct (truthy_numeric (IDune.mint_cap d)); cbn [andb].
    - rewrite Z.ltb_ge. split; [by intros ? _ | by intros H; apply H].
    - split; [by intros _ [=] | done]. }
  rewrite Hown, Hcap. tauto.
Qed.

Lemma isMintOpen_window_witness :
  ∃ d, IDune.dune_protocol_id d = "840100:7"%string
       ∧ isMintOpen 840105 2 d true = true
       ∧ isMintOpen 840106 2 d true = false.
Proof.
  set (d := {| IDune.id := 1; IDune.dune_protocol_id := "840100:7";
               IDune.name := "HELLO"; IDune.symbol := "$"; IDune.decimals := 0;
               IDune.total_supply := 0; IDune.total_holders := 0;
               IDune.mints := 0; IDune.premine := 0; IDune.mint_cap := None;
               IDune.mint_amount := Some 10; IDune.mint_start := Some 840103;
               IDune.mint_end := None; IDune.mint_offset_start := None;
               IDune.mint_offset_end := Some 5; IDune.price_amount := None;
               IDune.price_pay_to := None; IDune.turbo := true;
               IDune.burnt_amount := 0; IDune.unmintable := false;
               IDune.etch_transaction_id := None; IDune.deployer_address_id := 3 |}).
  exists d. split; [reflexivity |]. split.
  - apply (isMintOpen_window 840105 2 840100 7 d true);
      [reflexivity | by vm_compute |].
    split; [reflexivity |]. split; [intros [=] |]. split; [intros [=] |].
    split; [intros hs [= <-]; lia |]. split; [by vm_compute |].
    split; [intros he [=] |]. intros _. by vm_compute.
  - destruct (isMintOpen 840106 2 d true) eqn:E; [| reflexivity].
    apply (isMintOpen_window 840106 2 840100 7 d true) in E
      as (_ & _ & _ & _ & _ & _ & Hend); [| reflexivity | by vm_compute].
    exfalso. vm_compute in Hend. by apply Hend.
Defined.

(* <<< g5 >>> *)

(** X8. The row [processEtching] creates for a new dune is unmintable
    exactly when the dunestone is a cenotaph or the etching has no
    terms, and [isMintOpen] refuses an unmintable row at every block,
    transaction index and offset. *)
Theorem etched_dune_is_unmintable_iff (U : gmap string Z)
    (Transaction : IndexedTxExtended.t) (storage : Storage) (isGenesis : bool)
    (etching : IEtching.t) (row : IDune.t) :
  IDunestoneIndexed.etching (IndexedTxExtended.dunestone Transaction) = Some etching →
  Dune storage !! etched_key Transaction isGenesis = None →
  Dune (processEtching U Transaction storage isGenesis).2
    !! etched_key Transaction isGenesis = Some row →
  (IDune.unmintable row = true ↔
   IDunestoneIndexed.cenotaph (IndexedTxExtended.dunestone Transaction) = true
   ∨ IEtching.terms etching = None)
  ∧ (IDune.unmintable row = true →
     ∀ block txIndex mint_offset, isMintOpen block txIndex row mint_offset = false).
Proof.
  intros Hetching Hfresh Hrow.
  split; [| intros Hun block txIndex mint_offset; unfold isMintOpen; by rewrite Hun].
  revert Hrow. unfold processEtching. rewrite Hetching.
  destruct (findOne_Dune storage _); [cbn [snd]; congruence |].
  destruct (findOne_Dune_by_name storage _); [cbn [snd]; congruence |].
  set (terms := IEtching.terms etching).
  set (amount_is_0n := from_option (λ t, ITerms.amount t =? 0) false terms).
  set (isFlex := amount_is_0n && bool_decide (is_Some (terms ≫= ITerms.price))).
  destruct (negb isFlex && amount_is_0n) eqn:G1; [cbn [snd]; congruence |].
  destruct (isFlex && _) eqn:G2; [cbn [snd]; congruence |].
  destruct (findOrCreate_Address storage _) as [etcherId storage1] eqn:Haddr.
  cbn [create_Dune].
  assert (Hkey : (if negb isGenesis
                  then dune_id_of (IndexedTxExtended.block Transaction)
                         (IndexedTxExtended.txIndex Transaction)
                  else "1:0"%string) = etched_key Transaction isGenesis).
  { unfold etched_key. by destruct isGenesis. }
  destruct (IDunestoneIndexed.cenotaph _) eqn:Hcen;
    cbn [snd create_Event Dune IDune.dune_protocol_id]; rewrite Hkey, lookup_insert_eq;
    intros [= <-]; cbn [IDune.unmintable orb].
  - split; [by left | done].
  - destruct terms as [t |] eqn:Hterms; cbn [from_option].
    + split; [| by intros [? | ?]]. intros H. exfalso.
      apply andb_true_iff in H as [Ha Hf]. unfold amount_is_0n in G1.
      cbn [from_option] in G1. rewrite Ha, Hf in G1. discriminate G1.
    + split; [by right | done].
Qed.

(* <<< g6 >>> *)

Lemma etched_dune_is_unmintable_iff_witness :
  let Transaction := transaction 840100 7 (etch_only (hello_etching (Some 100))) [] in
  ∃ row,
    Dune (processEtching ∅ Transaction fresh_storage false).2 !! "840100:7" = Some row
    ∧ IDune.unmintable row = false.
Proof.
  intros Transaction.
  destruct (Dune (processEtching ∅ Transaction fresh_storage false).2 !! "840100:7")
    as [row |] eqn:E; [| exfalso; vm_compute in E; discriminate E].
  exists row. split; [reflexivity |].
  destruct (etched_dune_is_unmintable_iff ∅ Transaction fresh_storage false
              (hello_etching (Some 100)) row eq_refl eq_refl E) as [Hiff _].
  destruct (IDune.unmintable row); [| reflexivity].
  destruct (proj1 Hiff eq_refl) as [H | H]; discriminate H.
Defined.

(** ** The unlock schedule of the names *)

(** X9. [minimumLengthAtHeight] goes down by one every [UNLOCK_INTERVAL]
    blocks and never goes up with the height. It is [INITIAL_AVAILABLE]
    exactly during the first interval after [GENESIS_BLOCK], zero or
    less exactly from [INITIAL_AVAILABLE] intervals after
    [GENESIS_BLOCK] on, and more than [INITIAL_AVAILABLE] exactly before
    [GENESIS_BLOCK]. *)
Theorem minimumLengthAtHeight_schedule (block : Z) :
  minimumLengthAtHeight (block + UNLOCK_INTERVAL) = minimumLengthAtHeight block - 1
  ∧ (∀ later, block ≤ later →
       minimumLengthAtHeight later ≤ minimumLengthAtHeight block)
  ∧ (minimumLengthAtHeight block = INITIAL_AVAILABLE
     ↔ GENESIS_BLOCK ≤ block < GENESIS_BLOCK + UNLOCK_INTERVAL)
  ∧ (minimumLengthAtHeight block ≤ 0
     ↔ GENESIS_BLOCK + INITIAL_AVAILABLE * UNLOCK_INTERVAL ≤ block)
  ∧ (INITIAL_AVAILABLE < minimumLengthAtHeight block ↔ block < GENESIS_BLOCK).
Proof.
  unfold minimumLengthAtHeight, GENESIS_BLOCK, UNLOCK_INTERVAL, INITIAL_AVAILABLE.
  repeat split; try intros; Z.div_mod_to_equations; lia.
Qed.

(* <<< g7 >>> *)

(** ** The commitment of a name *)

Lemma le_value_le_bytes (count : nat) (value : Z) :
  0 ≤ value →
  le_value (le_bytes count value) = value mod 256 ^ Z.of_nat count
  ∧ Forall (λ b, 0 ≤ b < 256) (le_bytes count value)
  ∧ length (le_bytes count value) = count.
Proof.
  revert value. induction count as [| n IH]; intros value Hv.
  - cbn. rewrite Z.mod_1_r. by repeat split.
  - cbn [le_bytes le_value foldr length].
    destruct (IH (value / 256)) as (Hval & Hall & Hlen); [apply Z.div_pos; lia |].
    fold (le_value (le_bytes n (value / 256))). rewrite Hval, Hlen.
    split; [| split; [constructor; [apply Z.mod_pos_bound; lia | exact Hall] | reflexivity]].
    rewrite Nat2Z.inj_succ, Z.pow_succ_r by lia.
    rewrite Z.rem_mul_r by (try apply Z.pow_pos_nonneg; lia). reflexivity.
Qed.

Lemma le_value_app (a b : list Z) :
  le_value (a ++ b) = le_value a + 256 ^ Z.of_nat (length a) * le_value b.
Proof.
  induction a as [| x a IH].
  - change (le_value ([] ++ b)) with (le_value b). change (le_value []) with 0.
    change (256 ^ Z.of_nat (length (@nil Z))) with 1. lia.
  - change (le_value ((x :: a) ++ b)) with (x + 256 * le_value (a ++ b)).
    change (le_value (x :: a)) with (x + 256 * le_value a).
    cbn [length]. rewrite IH, Nat2Z.inj_succ, Z.pow_succ_r by lia. lia.
Qed.

Lemma strip_trailing_zeros_spec (bytes : list Z) :
  le_value (strip_trailing_zeros bytes) = le_value bytes
  ∧ last (strip_trailing_zeros bytes) ≠ Some 0
  ∧ (length (strip_trailing_zeros bytes) ≤ length bytes)%nat
  ∧ (Forall (λ b, 0 ≤ b < 256) bytes →
     Forall (λ b, 0 ≤ b < 256) (strip_trailing_zeros bytes)).
Proof.
  induction bytes as [| b rest (Hval & Hlast & Hlen & Hall)].
  { split; [reflexivity |]. split; [discriminate |]. split; [reflexivity | done]. }
  cbn [strip_trailing_zeros].
  change (le_value (b :: rest)) with (b + 256 * le_value rest).
  destruct (strip_trailing_zeros rest) as [| k kept] eqn:E.
  - change (le_value []) with 0 in Hval.
    destruct (Z.eqb_spec b 0) as [-> | Hb].
    + split; [change (le_value []) with 0; lia |]. split; [discriminate |].
      split; [cbn; lia | by intros _].
    + split; [change (le_value [b]) with (b + 256 * 0); lia |].
      split; [cbn; congruence |]. split; [cbn; lia |].
      intros Hf. apply Forall_cons in Hf as [Hb' _].
      constructor; [exact Hb' | constructor].
  - split; [| split; [| split]].
    + change (le_value (b :: k :: kept)) with (b + 256 * le_value (k :: kept)). lia.
    + exact Hlast.
    + cbn [length] in Hlen |- *. lia.
    + intros Hf. apply Forall_cons in Hf as [Hb' Hrest]. constructor; [exact Hb' |].
      by apply Hall.
Qed.

Lemma writeBigUInt64LE_in_range (value : Z) :
  0 ≤ value < 2 ^ 64 → writeBigUInt64LE value = Ok (le_bytes 8 value).
Proof.
  intros Hv. unfold writeBigUInt64LE.
  replace ((0 <=? value) && (value <? 2 ^ 64)) with true; [reflexivity |].
  symmetry. apply andb_true_iff. split; [apply Z.leb_le | apply Z.ltb_lt]; lia.
Qed.

Lemma writeBigUInt64LE_out_of_range (value : Z) :
  ¬ 0 ≤ value < 2 ^ 64 →
  writeBigUInt64LE value = Throw "RangeError: The value is out of range".
Proof.
  intros Hv. unfold writeBigUInt64LE.
  replace ((0 <=? value) && (value <? 2 ^ 64)) with false; [reflexivity |].
  symmetry. apply andb_false_iff.
  destruct (Z.lt_ge_cases value 0); [left; apply Z.leb_gt | right; apply Z.ltb_ge]; lia.
Qed.

(** X10. For a name whose value is in the unsigned 128-bit range,
    [getCommitment] returns the shortest little-endian writing of the
    value: at most 16 bytes, each between 0 and 255, that denote the
    value, the last of them not zero (no byte at all for the value 0).
    For a value outside that range it throws. *)
Theorem getCommitment_is_minimal_little_endian (Rune_value : string → Z)
    (runeName : string) :
  let value := Rune_value runeName in
  if decide (0 ≤ value < 2 ^ 128) then
    ∃ bytes,
      getCommitment Rune_value runeName = Ok bytes
      ∧ le_value bytes = value
      ∧ last bytes ≠ Some 0
      ∧ (length bytes ≤ 16)%nat
      ∧ Forall (λ b, 0 ≤ b < 256) bytes
  else ∃ msg, getCommitment Rune_value runeName = Throw msg.
Proof.
  cbv zeta. unfold getCommitment. set (value := Rune_value runeName).
  change 0xffffffffffffffff with (Z.ones 64).
  rewrite Z.land_comm, Z.land_ones, Z.shiftr_div_pow2 by lia.
  assert (Hlow : 0 ≤ value mod 2 ^ 64 < 2 ^ 64) by (apply Z.mod_pos_bound; lia).
  rewrite (writeBigUInt64LE_in_range _ Hlow). cbn [mbind result_bind].
  destruct (decide (0 ≤ value < 2 ^ 128)) as [Hrange | Hout].
  - assert (Hhigh : 0 ≤ value / 2 ^ 64 < 2 ^ 64).
    { split; [apply Z.div_pos; lia |]. apply Z.div_lt_upper_bound; [lia |].
      change (2 ^ 64 * 2 ^ 64) with (2 ^ 128). lia. }
    rewrite (writeBigUInt64LE_in_range _ Hhigh). cbn [mbind result_bind].
    eexists. split; [reflexivity |].
    destruct (le_value_le_bytes 8 (value mod 2 ^ 64)) as (Hv1 & Ha1 & Hl1); [lia |].
    destruct (le_value_le_bytes 8 (value / 2 ^ 64)) as (Hv2 & Ha2 & Hl2); [lia |].
    destruct (strip_trailing_zeros_spec
                (le_bytes 8 (value mod 2 ^ 64) ++ le_bytes 8 (value / 2 ^ 64)))
      as (Hval & Hlast & Hlen & Hall).
    split.
    { rewrite Hval, le_value_app, Hv1, Hv2, Hl1.
      change (256 ^ Z.of_nat 8) with (2 ^ 64).
      rewrite (Z.mod_small (value mod 2 ^ 64)), (Z.mod_small (value / 2 ^ 64)) by lia.
      pose proof (Z.div_mod value (2 ^ 64)). lia. }
    split; [exact Hlast |]. split.
    { rewrite length_app, Hl1, Hl2 in Hlen. exact Hlen. }
    apply Hall. apply Forall_app. by split.
  - rewrite writeBigUInt64LE_out_of_range; [by eexists |].
    intros [H0 H1]. apply Hout. split.
    + destruct (Z.lt_ge_cases value 0) as [Hneg |]; [| lia].
      assert (value / 2 ^ 64 < 0) by (apply Z.div_lt_upper_bound; lia). lia.
    + destruct (Z.lt_ge_cases value (2 ^ 128)) as [| Hbig]; [lia |].
      assert (2 ^ 64 ≤ value / 2 ^ 64).
      { apply Z.div_le_lower_bound; [lia |].
        change (2 ^ 64 * 2 ^ 64) with (2 ^ 128). lia. }
      lia.
Qed.

(* <<< g17 >>> *)

(** ** [BigInt] of a string, and the amounts of the schema *)

Lemma all_of_digit_of (s : string) : all_of digit_of s = all_digits s.
Proof. induction s as [| c s IH]; [reflexivity |]. cbn. by rewrite IH. Qed.

Lemma all_digits_rev_app (a b : string) :
  all_digits (String.rev_app a b) = all_digits a && all_digits b.
Proof.
  revert b. induction a as [| c a IH]; intros b; [reflexivity |].
  cbn [String.rev_app all_digits]. rewrite IH. cbn [all_digits].
  destruct (digit_of c); [reflexivity |]. by rewrite andb_false_r.
Qed.


Lemma skip_spaces_digits (s : string) :
  all_digits s = true → skip_spaces s = s.
Proof.
  destruct s as [| c s]; [reflexivity |]. cbn [all_digits skip_spaces].
  destruct (digit_of c) as [d |] eqn:Hc; [| discriminate]. intros _.
  by rewrite (digit_not_space c d Hc).
Qed.

Lemma String_rev_involutive (s : string) : String.rev (String.rev s) = s.
Proof. unfold String.rev at 2. apply rev_rev_app. Qed.

Lemma String_trim_digits (s : string) : all_digits s = true → String_trim s = s.
Proof.
  intros Hs. unfold String_trim. rewrite (skip_spaces_digits s Hs).
  rewrite skip_spaces_digits; [apply String_rev_involutive |].
  unfold String.rev. by rewrite all_digits_rev_app, Hs.
Qed.



Lemma digits_value_decimal (s : string) :
  all_digits s = true → s ≠ "" →
  digits_value digit_of 10 s = Ok (decimal_value s).
Proof.
  intros Hs Hne. unfold digits_value. destruct s as [| c s]; [done |].
  by rewrite all_of_digit_of, Hs.
Qed.

(** [BigInt] of a run of decimal digits, leading zeros included. *)
Lemma BigInt_of_digits (s : string) :
  all_digits s = true → BigInt_of_string s = Ok (decimal_value s).
Proof.
  intros Hs. unfold BigInt_of_string. rewrite (String_trim_digits s Hs).
  destruct s as [| c rest]; [reflexivity |].
  pose proof Hs as Hs'. cbn [all_digits] in Hs'.
  destruct (digit_of c) as [d |] eqn:Hc; [| discriminate].
  assert (Hnot : ∀ x : ascii, digit_of x = None → Ascii.eqb c x = false).
  { intros x Hx. apply Ascii.eqb_neq. intros ->. congruence. }
  rewrite !Hnot by reflexivity.
  destruct (Ascii.eqb c "0"); [| by apply digits_value_decimal].
  destruct rest as [| p digits]; [by apply digits_value_decimal |].
  cbn [all_digits] in Hs'. destruct (digit_of p) as [d' |] eqn:Hp; [| discriminate].
  assert (Hnot' : ∀ x : ascii, digit_of x = None → Ascii.eqb p x = false).
  { intros x Hx. apply Ascii.eqb_neq. intros ->. congruence. }
  rewrite !Hnot' by reflexivity. cbn [orb].
  by apply digits_value_decimal.
Qed.


Lemma BigInt_of_power (decimals : nat) :
  BigInt_of_string ("1" +:+ zeros decimals) = Ok (10 ^ Z.of_nat decimals).
Proof.
  rewrite BigInt_of_digits by (rewrite all_digits_app; by rewrite all_digits_zeros).
  f_equal. rewrite decimal_value_zeros_r by reflexivity.
  change (decimal_value "1") with 1. lia.
Qed.



(* <<< g9 >>> *)

(** ** The mint id of the schema *)

Lemma matches_id_pattern_dune_id_of (b t : Z) :
  0 ≤ b → 0 ≤ t → matches_id_pattern (dune_id_of b t) = true.
Proof.
  intros Hb Ht. unfold matches_id_pattern. rewrite String_split_dune_id_of.
  destruct (pretty_nonneg_digits b Hb) as (-> & _ & Hnb).
  destruct (pretty_nonneg_digits t Ht) as (-> & _ & Hnt).
  apply String.eqb_neq in Hnb, Hnt. by rewrite Hnb, Hnt.
Qed.

Lemma MintSchema_transform_dune_id_of (b t : Z) :
  0 ≤ b ≤ MAX_U32 → 0 ≤ t ≤ MAX_U32 →
  MintSchema_transform (dune_id_of b t) = Ok (dune_id_of b t).
Proof.
  intros Hb Ht. unfold MintSchema_transform. rewrite String_split_dune_id_of.
  cbn [lookup list_lookup from_option].
  rewrite !Number_of_string_pretty by lia.
  cbn [Number_isInteger negb orb number_lt number_gt number_toString].
  replace (b <? 0) with false by (symmetry; apply Z.ltb_ge; lia).
  replace (MAX_U32 <? b) with false by (symmetry; apply Z.ltb_ge; lia).
  replace (t <? 0) with false by (symmetry; apply Z.ltb_ge; lia).
  replace (MAX_U32 <? t) with false by (symmetry; apply Z.ltb_ge; lia).
  reflexivity.
Qed.

(** X12. On [blockStr:txStr], two non-empty runs of decimal digits (the
    strings the pattern of [MintSchema] admits), the transform returns
    the id written without leading zeros when both numbers are at most
    [MAX_U32], and throws otherwise. *)
Theorem MintSchema_normalises (blockStr txStr : string) :
  all_digits blockStr = true → blockStr ≠ ""%string →
  all_digits txStr = true → txStr ≠ ""%string →
  matches_id_pattern (blockStr +:+ ":" +:+ txStr) = true
  ∧ MintSchema_transform (blockStr +:+ ":" +:+ txStr)
    = if (decimal_value blockStr <=? MAX_U32) && (decimal_value txStr <=? MAX_U32)
      then Ok (dune_id_of (decimal_value blockStr) (decimal_value txStr))
      else Throw "block and tx must be valid u32 integers".
Proof.
  intros Hb Hnb Ht Hnt.
  unfold matches_id_pattern, MintSchema_transform.
  rewrite String_split_pair by assumption.
  apply String.eqb_neq in Hnb, Hnt. rewrite Hb, Ht, Hnb, Hnt.
  split; [reflexivity |].
  cbn [lookup list_lookup from_option].
  rewrite !Number_of_digits by assumption.
  cbn [Number_isInteger negb orb number_lt number_gt number_toString].
  destruct (leading_digits_shift blockStr None Hb) as [_ [Hb0 _]].
  destruct (leading_digits_shift txStr None Ht) as [_ [Ht0 _]].
  replace (decimal_value blockStr <? 0) with false by (symmetry; apply Z.ltb_ge; lia).
  replace (decimal_value txStr <? 0) with false by (symmetry; apply Z.ltb_ge; lia).
  cbn [orb]. rewrite !(Z.ltb_antisym _ MAX_U32).
  destruct (decimal_value blockStr <=? MAX_U32); [| reflexivity].
  destruct (decimal_value txStr <=? MAX_U32); reflexivity.
Qed.

Lemma MintSchema_normalises_witness :
  MintSchema_transform "0840100:007" = Ok "840100:7"%string
  ∧ ∃ msg, MintSchema_transform "4294967296:0" = Throw msg.
Proof.
  split.
  - destruct (MintSchema_normalises "0840100" "007") as [_ H];
      [reflexivity | discriminate | reflexivity | discriminate |].
    exact H.
  - destruct (MintSchema_normalises "4294967296" "0") as [_ H];
      [reflexivity | discriminate | reflexivity | discriminate |].
    eexists. exact H.
Defined.

(** X13. The id [block:tx] the engine gives a dune, for a block and a
    transaction index in the unsigned 32-bit range, matches the pattern
    of [MintSchema] and is returned unchanged by its transform. *)
Theorem MintSchema_accepts_dune_ids (block txIndex : Z) :
  0 ≤ block ≤ MAX_U32 → 0 ≤ txIndex ≤ MAX_U32 →
  matches_id_pattern (dune_id_of block txIndex) = true
  ∧ MintSchema_transform (dune_id_of block txIndex) = Ok (dune_id_of block txIndex).
Proof.
  intros Hb Ht. split.
  - apply matches_id_pattern_dune_id_of; lia.
  - by apply MintSchema_transform_dune_id_of.
Qed.

(* <<< g10 >>> *)

Lemma MintSchema_accepts_dune_ids_witness :
  MintSchema_transform (dune_id_of 840100 7) = Ok (dune_id_of 840100 7).
Proof. apply (MintSchema_accepts_dune_ids 840100 7); unfold MAX_U32; lia. Defined.

(** ** The two halves of a balance, outside the 128-bit range *)

Lemma signed_half (v : Z) :
  0 ≤ v < 2 ^ 64 →
  let b := if 2 ^ 63 - 1 <? v then v - 2 ^ 64 else v in
  - 2 ^ 63 ≤ b < 2 ^ 63 ∧ (if b <? 0 then b + 2 ^ 64 else b) = v.
Proof.
  intros Hv. cbv zeta. destruct (Z.ltb_spec (2 ^ 63 - 1) v) as [H | H].
  - split; [lia |]. destruct (Z.ltb_spec (v - 2 ^ 64) 0); lia.
  - split; [lia |]. destruct (Z.ltb_spec v 0); lia.
Qed.

Lemma unsigned_half (b : Z) :
  - 2 ^ 63 ≤ b < 2 ^ 63 →
  let v := if b <? 0 then b + 2 ^ 64 else b in
  0 ≤ v < 2 ^ 64 ∧ (if 2 ^ 63 - 1 <? v then v - 2 ^ 64 else v) = b.
Proof.
  intros Hb. cbv zeta. destruct (Z.ltb_spec b 0) as [H | H].
  - split; [lia |]. destruct (Z.ltb_spec (2 ^ 63 - 1) (b + 2 ^ 64)); lia.
  - split; [lia |]. destruct (Z.ltb_spec (2 ^ 63 - 1) b); lia.
Qed.

(** X14. For every integer [amount], the two parts [convertAmountToParts]
    returns are in the signed 64-bit range and [convertPartsToAmount]
    joins them into [amount mod 2^128]: an amount outside the unsigned
    128-bit range is stored wrapped, without an error. *)
Theorem convertParts_wraps (amount : Z) :
  let p := convertAmountToParts amount in
  convertPartsToAmount (balance_0 p) (balance_1 p) = amount mod 2 ^ 128
  ∧ - 2 ^ 63 ≤ balance_0 p < 2 ^ 63
  ∧ - 2 ^ 63 ≤ balance_1 p < 2 ^ 63.
Proof.
  cbv zeta. unfold convertAmountToParts, convertPartsToAmount; cbn [balance_0 balance_1].
  rewrite MAX_64_UNSIGNED_ones, !Z.land_ones, Z.shiftr_div_pow2 by lia.
  change (Z.ones 64 + 1) with (2 ^ 64).
  change MAX_64_SIGNED with (2 ^ 63 - 1).
  set (lo := amount mod 2 ^ 64).
  set (hi := (amount / 2 ^ 64) mod 2 ^ 64).
  assert (Hlo : 0 ≤ lo < 2 ^ 64) by (apply Z.mod_pos_bound; lia).
  assert (Hhi : 0 ≤ hi < 2 ^ 64) by (apply Z.mod_pos_bound; lia).
  destruct (signed_half lo Hlo) as [Hlo_range Hlo_back].
  destruct (signed_half hi Hhi) as [Hhi_range Hhi_back].
  cbv zeta in Hlo_range, Hlo_back, Hhi_range, Hhi_back.
  rewrite Hlo_back, Hhi_back.
  split; [| split; assumption].
  rewrite lor_shiftl_low by exact Hlo. unfold hi, lo.
  change (2 ^ 128) with (2 ^ 64 * 2 ^ 64).
  rewrite Z.rem_mul_r by lia. lia.
Qed.

(** X15. Any two stored halves in the signed 64-bit range join into an
    amount of the unsigned 128-bit range, and splitting that amount
    gives the same two halves back. *)
Theorem convertAmount_of_parts (b0 b1 : Z) :
  - 2 ^ 63 ≤ b0 < 2 ^ 63 → - 2 ^ 63 ≤ b1 < 2 ^ 63 →
  0 ≤ convertPartsToAmount b0 b1 < 2 ^ 128
  ∧ convertAmountToParts (convertPartsToAmount b0 b1)
    = {| balance_0 := b0; balance_1 := b1 |}.
Proof.
  intros H0 H1.
  destruct (unsigned_half b0 H0) as [Hlo Hlo_back].
  destruct (unsigned_half b1 H1) as [Hhi Hhi_back].
  cbv zeta in Hlo, Hlo_back, Hhi, Hhi_back.
  unfold convertPartsToAmount. change (MAX_64_UNSIGNED + 1) with (2 ^ 64).
  set (lo := if b0 <? 0 then b0 + 2 ^ 64 else b0) in *.
  set (hi := if b1 <? 0 then b1 + 2 ^ 64 else b1) in *.
  rewrite lor_shiftl_low by exact Hlo.
  split; [nia |].
  unfold convertAmountToParts.
  rewrite MAX_64_UNSIGNED_ones, !Z.land_ones, Z.shiftr_div_pow2 by lia.
  change (Z.ones 64 + 1) with (2 ^ 64).
  change MAX_64_SIGNED with (2 ^ 63 - 1).
  assert (Hmod : (hi * 2 ^ 64 + lo) mod 2 ^ 64 = lo).
  { rewrite Z.add_comm, Z.mod_add by lia. apply Z.mod_small. exact Hlo. }
  assert (Hdiv : (hi * 2 ^ 64 + lo) / 2 ^ 64 = hi).
  { rewrite Z.add_comm, Z.div_add by lia. rewrite Z.div_small by exact Hlo. lia. }
  rewrite Hmod, Hdiv, (Z.mod_small hi) by exact Hhi.
  by rewrite Hlo_back, Hhi_back.
Qed.

Lemma convertAmount_of_parts_witness :
  convertAmountToParts (convertPartsToAmount (- 1) (- 2 ^ 63))
  = {| balance_0 := - 1; balance_1 := - 2 ^ 63 |}.
Proof. apply (convertAmount_of_parts (- 1) (- 2 ^ 63)); lia. Defined.

(* <<< g16 >>> *)

(** ** Decimal amounts as strings *)

Lemma String_take_drop (n : nat) (s : string) :
  String_take n s +:+ String_drop n s = s.
Proof.
  revert s. induction n as [| n IH]; intros [| c s]; try reflexivity.
  cbn [String_take String_drop]. by rewrite string_app_cons, IH.
Qed.

Lemma String_take_length (n : nat) (s : string) :
  String.length (String_take n s) = (n `min` String.length s)%nat.
Proof.
  revert s. induction n as [| n IH]; intros [| c s]; try reflexivity.
  cbn [String_take String.length]. by rewrite IH.
Qed.

Lemma String_take_all (n : nat) (s : string) :
  (String.length s ≤ n)%nat → String_take n s = s.
Proof.
  revert s. induction n as [| n IH]; intros [| c s] Hlen; try reflexivity.
  - cbn in Hlen. lia.
  - cbn [String_take]. f_equal. apply IH. cbn in Hlen. lia.
Qed.

Lemma dot_splits (i f : string) :
  all_digits i = true → all_digits f = true →
  String_split "." (i +:+ "." +:+ f) = [i; f].
Proof.
  intros Hi Hf. rewrite string_app_cons, string_app_nil_l.
  rewrite String_split_cons by (by apply all_digits_without).
  by rewrite String_split_single by (by apply all_digits_without).
Qed.

Lemma padEnd_digits (f : string) (n : nat) :
  all_digits f = true →
  all_digits (padEnd f n) = true
  ∧ decimal_value (padEnd f n)
    = decimal_value f * 10 ^ Z.of_nat (n - String.length f).
Proof.
  intros Hf. unfold padEnd. split.
  - by rewrite all_digits_app, Hf, all_digits_zeros.
  - by apply decimal_value_zeros_r.
Qed.

Lemma toBigInt_of_digits (integerPart fractionalPart : string) (decimals : nat) :
  all_digits integerPart = true → all_digits fractionalPart = true →
  toBigInt (integerPart +:+ "." +:+ fractionalPart) decimals
  = Ok (pretty (decimal_value integerPart * 10 ^ Z.of_nat decimals
                + decimal_value fractionalPart
                  * 10 ^ Z.of_nat (decimals - String.length fractionalPart)))
  ∧ toBigInt integerPart decimals
    = Ok (pretty (decimal_value integerPart * 10 ^ Z.of_nat decimals)).
Proof.
  intros Hi Hf. unfold toBigInt. split.
  - rewrite dot_splits by done. cbn [lookup list_lookup default from_option id].
    unfold id. destruct (padEnd_digits fractionalPart decimals Hf) as [Hpad Hval].
    rewrite (BigInt_of_digits _ Hi), (BigInt_of_digits _ Hpad), BigInt_of_power.
    cbn [mbind result_bind]. by rewrite Hval.
  - rewrite String_split_single by (by apply all_digits_without).
    cbn [lookup list_lookup default from_option id]. unfold id.
    destruct (padEnd_digits "" decimals eq_refl) as [Hpad Hval].
    rewrite (BigInt_of_digits _ Hi), (BigInt_of_digits _ Hpad), BigInt_of_power.
    cbn [mbind result_bind]. rewrite Hval. change (decimal_value "") with 0.
    do 2 f_equal. lia.
Qed.

(** X16. For an integer part and a fractional part made of decimal
    digits, [toBigInt] returns the integer part times [10^decimals] plus
    the fractional part padded with zeros to [decimals] digits; a
    fractional part longer than [decimals] is not cut but added as a
    whole number (["1.005"] with two decimals gives ["105"]). Without a
    dot the result is the integer part times [10^decimals]. *)
Theorem toBigInt_value (integerPart fractionalPart : string) (decimals : nat) :
  all_digits integerPart = true → all_digits fractionalPart = true →
  toBigInt (integerPart +:+ "." +:+ fractionalPart) decimals
  = Ok (pretty (decimal_value integerPart * 10 ^ Z.of_nat decimals
                + decimal_value fractionalPart
                  * 10 ^ Z.of_nat (decimals - String.length fractionalPart)))
  ∧ toBigInt integerPart decimals
    = Ok (pretty (decimal_value integerPart * 10 ^ Z.of_nat decimals)).
Proof. apply toBigInt_of_digits. Qed.

Lemma toBigInt_value_witness :
  toBigInt "1.005" 2 = Ok "105"%string ∧ toBigInt "1.5" 2 = Ok "150"%string.
Proof.
  split.
  - apply (toBigInt_value "1" "005" 2); reflexivity.
  - apply (toBigInt_value "1" "5" 2); reflexivity.
Defined.

(** X17. For an amount that is not negative, [toBigInt] reads back what
    [fromBigInt] wrote, with the same number of decimals. *)
Theorem fromBigInt_toBigInt (amount : Z) (decimals : nat) :
  0 ≤ amount →
  ∃ s, fromBigInt amount decimals = Ok s
       ∧ toBigInt s decimals = Ok (pretty amount).
Proof.
  intros Hamount. unfold fromBigInt. rewrite BigInt_of_power.
  cbn [mbind result_bind].
  set (p := 10 ^ Z.of_nat decimals).
  assert (Hp : 0 < p) by (apply Z.pow_pos_nonneg; lia).
  set (q := Z.quot amount p). set (r := Z.rem amount p).
  assert (Hq : 0 ≤ q) by (apply Z.quot_pos; lia).
  assert (Hr : 0 ≤ r < p) by (apply Z.rem_bound_pos; lia).
  assert (Hqr : amount = p * q + r) by (apply Z.quot_rem'; lia).
  eexists. split; [reflexivity |].
  destruct (pretty_nonneg_digits q Hq) as (Hqd & _ & _).
  destruct (pretty_nonneg_digits r (proj1 Hr)) as (Hrd & _ & _).
  assert (Hpad : all_digits (padStart (pretty r) decimals) = true).
  { unfold padStart. by rewrite all_digits_app, all_digits_zeros, Hrd. }
  destruct (toBigInt_of_digits (pretty q) (padStart (pretty r) decimals) decimals Hqd Hpad)
    as [-> _].
  do 2 f_equal.
  assert (Hlen : (decimals - String.length (padStart (pretty r) decimals) = 0)%nat).
  { unfold padStart. rewrite String_length_app, zeros_length. lia. }
  rewrite Hlen. change (10 ^ Z.of_nat 0) with 1.
  rewrite decimal_value_pretty by exact Hq.
  unfold padStart. rewrite decimal_value_concat by (apply all_digits_zeros || exact Hrd).
  rewrite decimal_value_pretty by lia.
  assert (Hz : decimal_value (zeros (decimals - String.length (pretty r))) = 0).
  { rewrite <- (string_app_nil_l (zeros _)).
    rewrite decimal_value_zeros_r by reflexivity. reflexivity. }
  rewrite Hz. fold p. lia.
Qed.

Lemma fromBigInt_toBigInt_witness :
  ∃ s, fromBigInt 1005 3 = Ok s ∧ toBigInt s 3 = Ok "1005"%string.
Proof. apply (fromBigInt_toBigInt 1005 3). lia. Defined.

(** X18. For a whole part and a fractional part made of decimal digits,
    [btcToSats] returns the whole part times 10^8 plus the first eight
    digits of the fraction: the amount in satoshis rounded down. For
    at most eight fractional digits this is what [toBigInt] returns with
    eight decimals. *)
Theorem btcToSats_truncates (whole frac : string) :
  all_digits whole = true → all_digits frac = true →
  btcToSats (whole +:+ "." +:+ frac)
  = Ok (decimal_value whole * 100000000
        + decimal_value frac * 100000000 / 10 ^ Z.of_nat (String.length frac))
  ∧ ((String.length frac ≤ 8)%nat →
     toBigInt (whole +:+ "." +:+ frac) 8
     = Ok (pretty (decimal_value whole * 100000000
                   + decimal_value frac * 100000000
                     / 10 ^ Z.of_nat (String.length frac)))).
Proof.
  intros Hw Hf.
  assert (Hshort : (String.length frac ≤ 8)%nat →
            decimal_value frac * 100000000 / 10 ^ Z.of_nat (String.length frac)
            = decimal_value frac * 10 ^ Z.of_nat (8 - String.length frac)).
  { intros Hlen.
    replace 100000000 with (10 ^ Z.of_nat (8 - String.length frac)
                            * 10 ^ Z.of_nat (String.length frac)).
    - rewrite Z.mul_assoc, Z.div_mul; [reflexivity |].
      apply Z.pow_nonzero; lia.
    - rewrite <- Z.pow_add_r by lia.
      replace (Z.of_nat (8 - String.length frac) + Z.of_nat (String.length frac))
        with 8 by lia. reflexivity. }
  split.
  - unfold btcToSats. rewrite dot_splits by done.
    cbn [lookup list_lookup default from_option id]. unfold id.
    rewrite (BigInt_of_digits _ Hw). cbn [mbind result_bind].
    destruct (le_lt_dec (String.length frac) 8) as [Hlen | Hlen].
    + destruct (padEnd_digits frac 8 Hf) as [Hpad Hval].
      rewrite String_take_all
        by (unfold padEnd; rewrite String_length_app, zeros_length; lia).
      rewrite (BigInt_of_digits _ Hpad). cbn [mbind result_bind].
      by rewrite Hval, Hshort.
    + assert (Hpad : padEnd frac 8 = frac).
      { unfold padEnd. replace (8 - String.length frac)%nat with 0%nat by lia.
        apply string_app_nil_r. }
      rewrite Hpad.
      pose proof (String_take_drop 8 frac) as Hsplit.
      assert (Hparts : all_digits (String_take 8 frac) = true
                       ∧ all_digits (String_drop 8 frac) = true).
      { rewrite <- Hsplit, all_digits_app in Hf. by apply andb_true_iff in Hf. }
      destruct Hparts as [Ha Hb].
      rewrite (BigInt_of_digits _ Ha). cbn [mbind result_bind]. do 2 f_equal.
      pose proof (decimal_value_concat _ _ Ha Hb) as Hcat. rewrite Hsplit in Hcat.
      destruct (leading_digits_shift (String_drop 8 frac) None Hb) as [_ Hrange].
      assert (Hlenb : String.length frac
                      = (8 + String.length (String_drop 8 frac))%nat).
      { rewrite <- Hsplit at 1. rewrite String_length_app, String_take_length. lia. }
      rewrite Hlenb, Nat2Z.inj_add, Z.pow_add_r by lia.
      set (pb := 10 ^ Z.of_nat (String.length (String_drop 8 frac))) in *.
      change (10 ^ Z.of_nat 8) with 100000000.
      assert (0 < pb) by (apply Z.pow_pos_nonneg; lia).
      rewrite Hcat.
      rewrite (Z.mul_comm _ 100000000), Z.div_mul_cancel_l by lia.
      apply Z.div_unique with (r := decimal_value (String_drop 8 frac)); lia.
  - intros Hlen. destruct (toBigInt_of_digits whole frac 8 Hw Hf) as [-> _].
    rewrite (Hshort Hlen). reflexivity.
Qed.

Lemma btcToSats_truncates_witness :
  btcToSats "0.123456789" = Ok 12345678 ∧ btcToSats "1.5" = Ok 150000000.
Proof.
  split.
  - apply (btcToSats_truncates "0" "123456789"); reflexivity.
  - apply (btcToSats_truncates "1" "5"); reflexivity.
Defined.

(* <<< g1 >>> *)

(** ** Sorting by a field *)

Section MergeSort_facts.

Context {T K : Type} (field : T → K) (lt : K → K → bool).

Lemma mergeObj_nil_r (left : list T) : mergeObj field lt left [] = left.
Proof. by destruct left. Qed.

Lemma mergeObj_cons (x y : T) (left right : list T) :
  mergeObj field lt (x :: left) (y :: right)
  = if lt (field x) (field y) then x :: mergeObj field lt left (y :: right)
    else y :: mergeObj field lt (x :: left) right.
Proof. reflexivity. Qed.

Lemma mergeObj_Permutation (left right : list T) :
  Permutation (mergeObj field lt left right) (left ++ right).
Proof.
  revert right. induction left as [| x left IHl]; intros right; [by destruct right |].
  induction right as [| y right IHr].
  - rewrite mergeObj_nil_r, app_nil_r. reflexivity.
  - rewrite mergeObj_cons. destruct (lt (field x) (field y)).
    + cbn. constructor. apply IHl.
    + rewrite IHr. apply (Permutation_middle (x :: left) right y).
Qed.

Lemma mergeObj_head (left right : list T) (z : T) :
  HdRel (λ x y, lt (field y) (field x) = false) z left →
  HdRel (λ x y, lt (field y) (field x) = false) z right →
  HdRel (λ x y, lt (field y) (field x) = false) z (mergeObj field lt left right).
Proof.
  intros Hl Hr. destruct left as [| x left]; [by destruct right |].
  destruct right as [| y right]; [by rewrite mergeObj_nil_r |].
  rewrite mergeObj_cons. inversion Hl; inversion Hr; subst.
  destruct (lt (field x) (field y)); by constructor.
Qed.

Lemma mergeObj_ascending (left right : list T) :
  (∀ a b, lt a b = true → lt b a = false) →
  ascending field lt left → ascending field lt right → ascending field lt (mergeObj field lt left right).
Proof.
  intros Hasym. unfold ascending. revert right.
  induction left as [| x left IHl]; intros right Hl Hr; [by destruct right |].
  induction right as [| y right IHr]; [by rewrite mergeObj_nil_r |].
  rewrite mergeObj_cons. inversion Hl; inversion Hr; subst.
  destruct (lt (field x) (field y)) eqn:E.
  - constructor; [by apply IHl |].
    apply mergeObj_head; [done |]. constructor. by apply Hasym.
  - constructor; [by apply IHr |].
    apply mergeObj_head; [by constructor | done].
Qed.

Lemma mergeSort_from_spec (depth : nat) :
  (∀ a b, lt a b = true → lt b a = false) →
  ∀ array, (length array ≤ depth)%nat →
  ascending field lt (mergeSort_from field lt depth array)
  ∧ Permutation (mergeSort_from field lt depth array) array.
Proof.
  intros Hasym. induction depth as [| depth IH]; intros array Hlen.
  - destruct array; [| cbn in Hlen; lia]. split; [constructor | reflexivity].
  - cbn [mergeSort_from]. destruct (Nat.leb_spec (length array) 1) as [Hshort | Hlong].
    + split; [| reflexivity].
      destruct array as [| x [| y array]]; [constructor | by repeat constructor |].
      cbn in Hshort. lia.
    + assert (Hmid : (0 < length array / 2 < length array)%nat).
      { split; [apply Nat.div_str_pos; lia | apply Nat.div_lt; lia]. }
      destruct (IH (take (length array / 2) array)) as [Hl Pl];
        [rewrite length_take; lia |].
      destruct (IH (drop (length array / 2) array)) as [Hr Pr];
        [rewrite length_drop; lia |].
      split; [by apply mergeObj_ascending |].
      rewrite mergeObj_Permutation, Pl, Pr. by rewrite take_drop.
Qed.

(** X19. When [<] on the values of the field is asymmetric,
    [mergeSortArrayOfObj] returns a rearrangement of the array in which
    no item is followed by one with a smaller value of the field. *)
Theorem mergeSortArrayOfObj_sorts (array : list T) :
  (∀ a b, lt a b = true → lt b a = false) →
  ascending field lt (mergeSortArrayOfObj field lt array)
  ∧ Permutation (mergeSortArrayOfObj field lt array) array.
Proof. intros Hasym. by apply mergeSort_from_spec. Qed.

Lemma mergeObj_ties (left right : list T) :
  (∀ x y, x ∈ left → y ∈ right → lt (field x) (field y) = false) →
  mergeObj field lt left right = right ++ left.
Proof.
  destruct left as [| x left]; [intros _; destruct right; by rewrite ?app_nil_r |].
  induction right as [| y right IH]; intros Hties; [reflexivity |].
  rewrite mergeObj_cons, Hties by (apply elem_of_cons; by left).
  cbn [app]. f_equal. apply IH. intros a b Ha Hb. apply Hties; [exact Ha |].
  apply elem_of_cons. by right.
Qed.

Lemma mergeSort_from_ties (depth : nat) :
  ∀ array, (length array ≤ depth)%nat →
  (∀ x y, x ∈ array → y ∈ array → lt (field x) (field y) = false) →
  mergeSort_from field lt depth array = reverse array.
Proof.
  induction depth as [| depth IH]; intros array Hlen Hties.
  - destruct array; [reflexivity | cbn in Hlen; lia].
  - cbn [mergeSort_from]. destruct (Nat.leb_spec (length array) 1) as [Hshort | Hlong].
    + destruct array as [| x [| y array]]; [reflexivity | reflexivity |].
      cbn in Hshort. lia.
    + assert (Hmid : (0 < length array / 2 < length array)%nat).
      { split; [apply Nat.div_str_pos; lia | apply Nat.div_lt; lia]. }
      set (middle := (length array / 2)%nat) in *.
      assert (Hin : ∀ x, x ∈ take middle array ∨ x ∈ drop middle array → x ∈ array).
      { intros x Hx. rewrite <- (take_drop middle array). by apply elem_of_app. }
      rewrite (IH (take middle array)), (IH (drop middle array)).
      * rewrite mergeObj_ties.
        -- rewrite <- reverse_app. by rewrite take_drop.
        -- intros x y. rewrite !elem_of_reverse. intros Hx Hy.
           apply Hties; [apply Hin; by left | apply Hin; by right].
      * rewrite length_drop. lia.
      * intros x y Hx Hy. apply Hties; apply Hin; by right.
      * rewrite length_take. lia.
      * intros x y Hx Hy. apply Hties; apply Hin; by left.
Qed.

(** X20. The sort is not stable: an array in which no value of the field
    is smaller than another comes back reversed ([mergeObj] takes from
    the right half on a tie). *)
Theorem mergeSortArrayOfObj_reverses_ties (array : list T) :
  (∀ x y, x ∈ array → y ∈ array → lt (field x) (field y) = false) →
  mergeSortArrayOfObj field lt array = reverse array.
Proof. intros Hties. by apply mergeSort_from_ties. Qed.

End MergeSort_facts.

Lemma mergeSortArrayOfObj_sorts_witness :
  mergeSortArrayOfObj fst Z.ltb [(3, "c"); (1, "a"); (2, "b"); (1, "z")]
  = [(1, "z"); (1, "a"); (2, "b"); (3, "c")]
  ∧ ascending fst Z.ltb
      (mergeSortArrayOfObj fst Z.ltb [(3, "c"); (1, "a"); (2, "b"); (1, "z")]).
Proof.
  split; [reflexivity |].
  apply (mergeSortArrayOfObj_sorts fst Z.ltb).
  intros a b H. apply Z.ltb_lt in H. apply Z.ltb_ge. lia.
Defined.

Lemma mergeSortArrayOfObj_reverses_ties_witness :
  mergeSortArrayOfObj fst Z.ltb [(1, "first"); (1, "second"); (1, "third")]
  = [(1, "third"); (1, "second"); (1, "first")].
Proof.
  refine (mergeSortArrayOfObj_reverses_ties fst Z.ltb
            [(1, "first"); (1, "second"); (1, "third")] _).
  intros x y Hx Hy. apply Z.ltb_ge.
  assert (Hfst : ∀ z : Z * string,
            z ∈ [(1, "first"); (1, "second"); (1, "third")] → z.1 = 1).
  { intros z Hz. repeat (apply elem_of_cons in Hz as [-> | Hz]); try reflexivity.
    by apply not_elem_of_nil in Hz. }
  rewrite (Hfst x Hx), (Hfst y Hy). lia.
Defined.

(** ** Removing duplicates *)

Section RemoveDuplicates_facts.

Context {T K : Type} `{Countable K} (prop : T → K) (strict_eq : K → K → bool).

Lemma removeItems_filter_spec (array : list T) :
  ∀ seen : gset K,
  NoDup (prop <$> removeItems_filter prop seen array)
  ∧ (∀ k, k ∈ seen → k ∉ prop <$> removeItems_filter prop seen array)
  ∧ removeItems_filter prop seen array `sublist_of` array
  ∧ (∀ k, k ∉ seen →
       List.find (λ item, bool_decide (prop item = k)) (removeItems_filter prop seen array)
       = List.find (λ item, bool_decide (prop item = k)) array).
Proof.
  induction array as [| item rest IH]; intros seen; cbn [removeItems_filter].
  - repeat split; try constructor. intros k _. apply not_elem_of_nil.
  - cbv zeta. destruct (decide (prop item ∈ seen)) as [Hin | Hnin].
    + destruct (IH seen) as (Hnodup & Hseen & Hsub & Hfind).
      split; [exact Hnodup |]. split; [exact Hseen |].
      split; [by apply sublist_cons |].
      intros k Hk. cbn [List.find].
      rewrite bool_decide_false by (intros <-; done). by apply Hfind.
    + destruct (IH ({[ prop item ]} ∪ seen)) as (Hnodup & Hseen & Hsub & Hfind).
      split; [| split; [| split]].
      * rewrite fmap_cons. constructor; [| exact Hnodup].
        apply Hseen. apply elem_of_union. left. by apply elem_of_singleton.
      * intros k Hk. rewrite fmap_cons, not_elem_of_cons. split.
        -- intros ->. done.
        -- apply Hseen. apply elem_of_union. by right.
      * by apply sublist_skip.
      * intros k Hk. cbn [List.find]. case_bool_decide as Hkey; [reflexivity |].
        apply Hfind. rewrite elem_of_union, elem_of_singleton.
        intros [Heq | Hin]; [by apply Hkey | by apply Hk].
Qed.

(** X21. [removeItemsWithDuplicateProp] (utils.ts) returns items of the
    array in their order, no two of them with the same value of the
    property, and for every value of the property the first item of the
    array that has it is the one the result has. *)
Theorem removeItemsWithDuplicateProp_keeps_first (array : list T) :
  NoDup (prop <$> removeItemsWithDuplicateProp prop array)
  ∧ removeItemsWithDuplicateProp prop array `sublist_of` array
  ∧ ∀ k,
      List.find (λ item, bool_decide (prop item = k))
        (removeItemsWithDuplicateProp prop array)
      = List.find (λ item, bool_decide (prop item = k)) array.
Proof.
  destruct (removeItems_filter_spec array ∅) as (Hnodup & _ & Hsub & Hfind).
  split; [exact Hnodup |]. split; [exact Hsub |].
  intros k. apply Hfind. apply not_elem_of_empty.
Qed.

Lemma removeItems_reduce (array : list T) :
  (∀ a b, strict_eq a b = true ↔ a = b) →
  ∀ acc : list T,
  foldl
    (λ acc item,
       if existsb (λ testElement, strict_eq (prop testElement) (prop item)) acc
       then acc else acc ++ [item])
    acc array
  = acc ++ removeItems_filter prop (list_to_set (prop <$> acc)) array.
Proof.
  intros Hstrict. induction array as [| item rest IH]; intros acc; cbn [foldl removeItems_filter].
  - by rewrite app_nil_r.
  - cbv zeta.
    assert (Hsome : existsb (λ testElement, strict_eq (prop testElement) (prop item)) acc
                    = bool_decide (prop item ∈ (list_to_set (prop <$> acc) : gset K))).
    { case_bool_decide as Hmem.
      - apply existsb_exists. rewrite elem_of_list_to_set, list_elem_of_fmap in Hmem.
        destruct Hmem as (t & Ht & Hin). exists t.
        split; [by apply list_elem_of_In | by apply Hstrict].
      - apply not_true_is_false. intros (t & Hin & Ht)%existsb_exists.
        apply Hmem. rewrite elem_of_list_to_set, list_elem_of_fmap.
        exists t. apply Hstrict in Ht.
        split; [done | by apply list_elem_of_In]. }
    rewrite Hsome. destruct (decide (prop item ∈ list_to_set (prop <$> acc))) as [Hin | Hnin].
    + rewrite bool_decide_true by exact Hin. apply IH.
    + rewrite bool_decide_false by exact Hnin. rewrite IH, <- app_assoc. cbn.
      do 3 f_equal. rewrite fmap_app, list_to_set_app_L. cbn.
      rewrite (right_id_L ∅ (∪)). apply (comm_L (∪)).
Qed.

(** X22. On property values for which [===] is equality (no [NaN] among
    them), the copy in utils.js, which searches the accumulator with
    [===], returns what the copy in utils.ts returns with its [Set]. *)
Theorem removeItemsWithDuplicateProp_copies_agree (array : list T) :
  (∀ a b, strict_eq a b = true ↔ a = b) →
  removeItemsWithDuplicateProp_js prop strict_eq array = removeItemsWithDuplicateProp prop array.
Proof.
  intros Hstrict. unfold removeItemsWithDuplicateProp_js, removeItemsWithDuplicateProp.
  by rewrite removeItems_reduce.
Qed.

End RemoveDuplicates_facts.

Lemma removeItemsWithDuplicateProp_copies_agree_witness :
  removeItemsWithDuplicateProp_js fst Z.eqb [(1, "a"); (2, "b"); (1, "c")]
  = [(1, "a"); (2, "b")]
  ∧ removeItemsWithDuplicateProp fst [(1, "a"); (2, "b"); (1, "c")]
    = [(1, "a"); (2, "b")].
Proof.
  split; [reflexivity |].
  rewrite <- (removeItemsWithDuplicateProp_copies_agree fst Z.eqb); [reflexivity |].
  intros a b. apply Z.eqb_eq.
Defined.

(* <<< g13 >>> *)

(** ** Chunks *)

Section Chunkify_facts.

Context {T : Type}.

Lemma Array_slice_chunk (array : list T) (i size : Z) :
  0 ≤ i → 0 < size →
  Array_slice array i (i + size) = take (Z.to_nat size) (drop (Z.to_nat i) array).
Proof.
  intros Hi Hsize. unfold Array_slice. cbv zeta.
  replace (i <? 0) with false by (symmetry; apply Z.ltb_ge; lia).
  replace (i + size <? 0) with false by (symmetry; apply Z.ltb_ge; lia).
  set (len := Z.of_nat (length array)).
  destruct (Z.le_gt_cases len i) as [Hout | Hin].
  - rewrite !Z.min_r by lia.
    rewrite (drop_ge array (Z.to_nat len)) by lia.
    rewrite (drop_ge array (Z.to_nat i)) by lia. by rewrite !take_nil.
  - rewrite (Z.min_l i len) by lia.
    destruct (Z.le_gt_cases (i + size) len) as [Hfit | Hover].
    + rewrite Z.min_l by lia. f_equal. lia.
    + rewrite Z.min_r by lia.
      rewrite !take_ge; [reflexivity | |]; rewrite length_drop; lia.
Qed.

Lemma chunkify_from_spec (size : Z) (array : list T) :
  0 < size →
  ∀ (steps : nat) (i : Z) (result : list (list T)),
  0 ≤ i →
  Z.of_nat (length array) - i ≤ Z.of_nat steps * size →
  ∃ chunks,
    chunkify_from steps array size i result = Some (result ++ chunks)
    ∧ concat chunks = drop (Z.to_nat i) array
    ∧ Forall (λ chunk, 0 < Z.of_nat (length chunk) ≤ size) chunks
    ∧ (∀ j chunk, chunks !! j = Some chunk → (S j < length chunks)%nat →
         Z.of_nat (length chunk) = size)
    ∧ Z.of_nat (length chunks)
      = (Z.max (Z.of_nat (length array) - i) 0 + size - 1) / size.
Proof.
  intros Hsize. induction steps as [| steps IH]; intros i result Hi Hfuel.
  - cbn [chunkify_from].
    replace (i <? Z.of_nat (length array)) with false
      by (symmetry; apply Z.ltb_ge; lia).
    exists []. rewrite app_nil_r. split; [reflexivity |].
    split; [by rewrite drop_ge by lia |]. split; [constructor |].
    split; [intros j chunk Hj; by rewrite lookup_nil in Hj |].
    cbn [length]. rewrite Z.max_r by lia. symmetry. apply Z.div_small. lia.
  - cbn [chunkify_from]. destruct (Z.ltb_spec i (Z.of_nat (length array))) as [Hin | Hout].
    + destruct (IH (i + size) (result ++ [Array_slice array i (i + size)]))
        as (chunks & Hrun & Hcat & Hall & Hfull & Hcount); [lia | lia |].
      rewrite Array_slice_chunk in Hrun |- * by lia.
      set (chunk := take (Z.to_nat size) (drop (Z.to_nat i) array)) in *.
      exists (chunk :: chunks). rewrite Hrun, <- app_assoc. split; [reflexivity |].
      assert (Hlen : Z.of_nat (length chunk)
                     = Z.min size (Z.of_nat (length array) - i)).
      { unfold chunk. rewrite length_take, length_drop. lia. }
      split.
      { cbn [concat]. rewrite Hcat. unfold chunk.
        replace (Z.to_nat (i + size)) with (Z.to_nat i + Z.to_nat size)%nat by lia.
        rewrite <- drop_drop. apply take_drop. }
      split; [constructor; [lia | exact Hall] |].
      split.
      { intros [| j] c Hj Hlast; cbn in Hj, Hlast.
        - injection Hj as <-. rewrite Hlen.
          destruct chunks as [| c1 chunks]; [cbn in Hlast; lia |].
          cbn [length] in Hcount.
          destruct (Z.le_gt_cases size (Z.of_nat (length array) - i)); [lia |].
          rewrite Z.max_r in Hcount by lia. rewrite Z.div_small in Hcount; lia.
        - apply (Hfull j c Hj). lia. }
      cbn [length]. rewrite Nat2Z.inj_succ, Hcount.
      rewrite (Z.max_l (Z.of_nat (length array) - i)) by lia.
      destruct (Z.le_gt_cases (Z.of_nat (length array) - (i + size)) 0) as [Hz | Hp].
      * rewrite Z.max_r by lia. rewrite (Z.div_small (0 + size - 1)) by lia.
        apply Z.div_unique with (r := Z.of_nat (length array) - i - 1); lia.
      * rewrite Z.max_l by lia.
        replace (Z.of_nat (length array) - i + size - 1)
          with (Z.of_nat (length array) - (i + size) + size - 1 + 1 * size) by lia.
        rewrite Z.div_add by lia. lia.
    + exists []. rewrite app_nil_r. split; [reflexivity |].
      split; [by rewrite drop_ge by lia |]. split; [constructor |].
      split; [intros j chunk Hj; by rewrite lookup_nil in Hj |].
      cbn [length]. rewrite Z.max_r by lia. symmetry. apply Z.div_small. lia.
Qed.

(** X23. For a positive [size], [chunkify] ends within as many turns as
    the array has items, and its chunks, put end to end, are the array:
    none is empty or longer than [size], every chunk before the last
    has exactly [size] items, and there are [ceil(length / size)] of
    them. *)
Theorem chunkify_partitions (array : list T) (size : Z) (steps : nat) :
  0 < size → (length array ≤ steps)%nat →
  ∃ chunks,
    chunkify steps array size = Some chunks
    ∧ concat chunks = array
    ∧ Forall (λ chunk, 0 < Z.of_nat (length chunk) ≤ size) chunks
    ∧ (∀ j chunk, chunks !! j = Some chunk → (S j < length chunks)%nat →
         Z.of_nat (length chunk) = size)
    ∧ Z.of_nat (length chunks) = (Z.of_nat (length array) + size - 1) / size.
Proof.
  intros Hsize Hsteps.
  destruct (chunkify_from_spec size array Hsize steps 0 [])
    as (chunks & Hrun & Hcat & Hall & Hfull & Hcount); [lia | nia |].
  exists chunks. split; [exact Hrun |]. split; [exact Hcat |].
  split; [exact Hall |]. split; [exact Hfull |].
  rewrite Hcount, Z.sub_0_r, Z.max_l by lia. reflexivity.
Qed.

(** X24. For a [size] that is zero or negative and an array that is not
    empty, the loop of [chunkify] does not end: no number of turns
    reaches a result. *)
Theorem chunkify_never_returns (array : list T) (size : Z) (steps : nat) :
  size ≤ 0 → array ≠ [] → chunkify steps array size = None.
Proof.
  intros Hsize Hne. unfold chunkify.
  assert (Hgen : ∀ steps i result, i ≤ 0 → chunkify_from steps array size i result = None).
  { clear steps. induction steps as [| steps IH]; intros i result Hi;
      cbn [chunkify_from];
      (replace (i <? Z.of_nat (length array)) with true
         by (symmetry; apply Z.ltb_lt; destruct array; [done | cbn [length]; lia]));
      [reflexivity | apply IH; lia]. }
  by apply Hgen.
Qed.

End Chunkify_facts.

Lemma chunkify_partitions_witness :
  ∃ chunks, chunkify 5 [1; 2; 3; 4; 5] 2 = Some chunks ∧ concat chunks = [1; 2; 3; 4; 5].
Proof.
  destruct (chunkify_partitions [1; 2; 3; 4; 5] 2 5) as (chunks & Hrun & Hcat & _);
    [lia | cbn; lia |].
  by exists chunks.
Defined.

Lemma chunkify_never_returns_witness : chunkify 1000 [1; 2; 3] 0 = None.
Proof. apply (chunkify_never_returns [1; 2; 3] 0 1000); [lia | discriminate]. Defined.

(* <<< g14 >>> *)

(** ** Plurals *)

Lemma ends_with_f_fe (word : string) :
  ends_with "f" word = true → ends_with "fe" word = false.
Proof.
  unfold ends_with, strip_suffix. intros Hf.
  apply bool_decide_eq_true in Hf. apply bool_decide_eq_false. intros Hfe.
  change (String.rev "f") with "f"%string in Hf.
  change (String.rev "fe") with "ef"%string in Hfe.
  destruct (String.rev word) as [| c rest]; [by destruct Hf |].
  cbn [strip_prefix] in Hf, Hfe.
  destruct (Ascii.eqb_spec "f" c) as [<- |]; [| by destruct Hf].
  by destruct Hfe.
Qed.

Lemma replace_suffix_ends (suffix replacement word : string) :
  ends_with suffix word = true →
  ∃ stem, replace_suffix suffix replacement word = stem +:+ replacement.
Proof.
  unfold ends_with, replace_suffix. intros [stem Hstem]%bool_decide_eq_true.
  rewrite Hstem. by exists stem.
Qed.

(** X25. The two copies of [pluralize] (one tests [/fe?$/], the other
    [/f$/] and then [/fe$/]) return the same word for every input, and
    that word ends with [s]. *)
Theorem pluralize_copies_agree (word : string) :
  pluralize_js word = pluralize word
  ∧ ∃ stem, pluralize word = stem +:+ "s".
Proof.
  unfold pluralize_js, pluralize. split.
  - destruct (ends_with_consonant_y word); [reflexivity |].
    destruct (ends_with_sibilant word); [reflexivity |].
    destruct (ends_with "f" word) eqn:Ef.
    + rewrite (ends_with_f_fe word Ef). reflexivity.
    + destruct (ends_with "fe" word); reflexivity.
  - destruct (ends_with_consonant_y word) eqn:Ey.
    { assert (Hy : ends_with "y" word = true).
      { unfold ends_with_consonant_y in Ey. unfold ends_with, strip_suffix.
        change (String.rev "y") with "y"%string.
        destruct (String.rev word) as [| c [| before rest]]; try discriminate.
        apply andb_true_iff in Ey as [Ec _]. cbn [strip_prefix].
        rewrite Ascii.eqb_sym, Ec. apply bool_decide_eq_true. by eexists. }
      destruct (replace_suffix_ends "y" "ies" word Hy) as [stem ->].
      exists (stem +:+ "ie"). by rewrite string_app_assoc. }
    destruct (ends_with_sibilant word).
    { exists (word +:+ "e"). by rewrite string_app_assoc. }
    destruct (ends_with "fe" word) eqn:Efe; cbn [orb].
    { destruct (replace_suffix_ends "fe" "ves" word Efe) as [stem ->].
      exists (stem +:+ "ve"). by rewrite string_app_assoc. }
    destruct (ends_with "f" word) eqn:Ef.
    { destruct (replace_suffix_ends "f" "ves" word Ef) as [stem ->].
      exists (stem +:+ "ve"). by rewrite string_app_assoc. }
    by exists word.
Qed.

(** ** Keeping and dropping fields *)

Section Fields_facts.

Context {V : Type}.





End Fields_facts.

(** ** [stripValue] *)

Lemma value_induction (P : value → Prop) :
  (∀ p, P (Primitive p)) → P Null →
  (∀ items, Forall P items → P (Array items)) →
  (∀ properties, Forall (λ kv, P kv.2) properties → P (Object properties)) →
  ∀ obj, P obj.
Proof.
  intros Hprim Hnull Harr Hobj.
  fix IH 1. intros [p | | items | properties].
  - apply Hprim.
  - apply Hnull.
  - apply Harr. induction items as [| v items IHitems]; constructor; [apply IH | exact IHitems].
  - apply Hobj. induction properties as [| [k v] properties IHp]; constructor;
      [apply IH | exact IHp].
Qed.

Lemma index_key_not_value (index : nat) : index_key index ≠ "_value"%string.
Proof.
  unfold index_key. intros Heq.
  destruct (pretty_nonneg_digits (Z.of_nat index)) as (Hd & _ & _); [lia |].
  rewrite Heq in Hd. discriminate Hd.
Qed.

Lemma stripValue_stripped (obj : value) : stripped (stripValue obj).
Proof.
  induction obj as [p | | items IH | properties IH] using value_induction.
  - exact I.
  - exact I.
  - cbn [stripValue stripped]. generalize 0%nat.
    induction IH as [| v items Hv _ IHitems]; intros index; [exact I |].
    split; [apply index_key_not_value |]. split; [exact Hv | apply IHitems].
  - cbn [stripValue].
    set (_value := fix _value (l : list (string * value)) : option value :=
           match l with
           | [] => None
           | (key, v) :: rest =>
               if String.eqb key "_value" then Some (stripValue v) else _value rest
           end).
    assert (Hfound : ∀ found, _value properties = Some found → stripped found).
    { clear -IH. induction IH as [| [k v] properties Hv _ IHp]; intros found;
        cbn [_value]; [discriminate |].
      destruct (String.eqb k "_value"); [by intros [= <-] | apply IHp]. }
    assert (Hnone : _value properties = None →
              Forall (λ kv, kv.1 ≠ "_value"%string) properties).
    { clear. induction properties as [| [k v] properties IHp]; cbn [_value];
        [constructor |].
      destruct (String.eqb_spec k "_value"); [discriminate |].
      intros H. constructor; [done | by apply IHp]. }
    destruct (_value properties) as [found |]; [by apply Hfound |].
    specialize (Hnone eq_refl). cbn [stripped]. clear Hfound _value.
    induction IH as [| [k v] properties Hv _ IHp]; [exact I |].
    apply Forall_cons in Hnone as [Hk Hrest].
    split; [exact Hk |]. split; [exact Hv | by apply IHp].
Qed.

Lemma stripValue_fixed (obj : value) : stripped obj → stripValue obj = obj.
Proof.
  induction obj as [p | | items IH | properties IH] using value_induction.
  - reflexivity.
  - reflexivity.
  - intros [].
  - cbn [stripValue stripped].
    induction IH as [| [k v] properties Hv _ IHp]; [reflexivity |].
    intros (Hk & Hsv & Hrest). apply String.eqb_neq in Hk. rewrite Hk.
    specialize (IHp Hrest).
    destruct ((fix _value (l : list (string * value)) : option value :=
                 match l with
                 | [] => None
                 | (key, v0) :: rest =>
                     if String.eqb key "_value" then Some (stripValue v0)
                     else _value rest
                 end) properties) as [found |] eqn:Hfound.
    + exfalso. clear -Hrest Hfound.
      induction properties as [| [k' v'] properties IH]; [discriminate |].
      destruct Hrest as (Hk' & _ & Hrest). apply String.eqb_neq in Hk'.
      rewrite Hk' in Hfound. by apply IH.
    + cbn [snd] in Hv. rewrite (Hv Hsv). injection IHp as ->. reflexivity.
Qed.

(** X27. What [stripValue] (utils.ts) returns has no [_value] property
    and no array at any depth (an array comes back as a plain object
    keyed by its indexes), and [stripValue] returns it unchanged when
    applied again. *)
Theorem stripValue_idempotent (obj : value) :
  stripped (stripValue obj) ∧ stripValue (stripValue obj) = stripValue obj.
Proof.
  split; [apply stripValue_stripped |]. apply stripValue_fixed, stripValue_stripped.
Qed.

(* <<< g11 >>> *)
